(** * Klondike Solitaire engine (src/solitaire.js): shallow embedding

    The JavaScript program keeps its board in module-level variables and
    mutates card objects in place.  The embedding follows it:

    - a card object is a reference ([ref]) into an object store ([heap]);
      piles and the selection hold references, so a [faceUp] assignment is
      seen through every alias of the card, as in the source;
    - every function of the engine is a function on [State]; a function that
      can raise a [TypeError] (reading a property of [undefined]) returns an
      [option], [None] standing for the exception;
    - [Math.random] is an explicit argument of [shuffleDeck] and [initGame];
    - [render] only rebuilds the DOM and is left out; [checkWin]'s
      [setTimeout(alert)] is recorded in the counter [alerts];
    - [moveHistory] is reset by [initGame] and otherwise never read or
      written, so it is not part of [State]. *)

From stdpp Require Import base option list strings.
From Stdlib Require Import ZArith Lia.

Local Open Scope Z_scope.
Local Open Scope string_scope.
Local Open Scope list_scope.
Local Open Scope nat_scope.

(** ** Cards *)

Inductive Suit := hearts | diamonds | clubs | spades.

Inductive Value :=
  VA | V2 | V3 | V4 | V5 | V6 | V7 | V8 | V9 | V10 | VJ | VQ | VK.

Inductive Color := red | black.

(** The keys of the [foundations] object. *)
Inductive FKey := Kh | Kd | Kc | Ks.

#[global] Instance Suit_eq_dec : EqDecision Suit.
Proof. solve_decision. Defined.
#[global] Instance Value_eq_dec : EqDecision Value.
Proof. solve_decision. Defined.
#[global] Instance Color_eq_dec : EqDecision Color.
Proof. solve_decision. Defined.
#[global] Instance FKey_eq_dec : EqDecision FKey.
Proof. solve_decision. Defined.

Definition SUITS : list Suit := [hearts; diamonds; clubs; spades].

Definition VALUES : list Value :=
  [VA; V2; V3; V4; V5; V6; V7; V8; V9; V10; VJ; VQ; VK].

Definition SUIT_SHORT (s : Suit) : FKey :=
  match s with hearts => Kh | diamonds => Kd | clubs => Kc | spades => Ks end.

(** The strings the source uses for suits and values; they only matter for
    the [id] of a card. *)
Definition suitName (s : Suit) : string :=
  match s with
  | hearts => "hearts" | diamonds => "diamonds"
  | clubs => "clubs" | spades => "spades"
  end.

Definition valueName (v : Value) : string :=
  match v with
  | VA => "A" | V2 => "2" | V3 => "3" | V4 => "4" | V5 => "5" | V6 => "6"
  | V7 => "7" | V8 => "8" | V9 => "9" | V10 => "10"
  | VJ => "J" | VQ => "Q" | VK => "K"
  end.

Record Card := mkCard {
  suit : Suit;
  value : Value;
  color : Color;
  faceUp : bool;
  id : string
}.

Definition createCard (s : Suit) (v : Value) : Card :=
  {| suit := s;
     value := v;
     color := if bool_decide (s = hearts) || bool_decide (s = diamonds)
              then red else black;
     faceUp := false;
     id := valueName v ++ "-" ++ suitName s |}.

(** [createDeck] pushes one fresh card per suit and value, suits in the outer
    loop.  The list is the sequence of objects in allocation order. *)
Definition createDeck : list Card :=
  s ← SUITS; v ← VALUES; [createCard s v].

(** [Array.prototype.indexOf] and [findIndex]: the first position, or -1. *)
Fixpoint findIndex {A} (p : A → bool) (l : list A) : Z :=
  match l with
  | [] => (-1)%Z
  | x :: l' =>
      if p x then 0%Z
      else let r := findIndex p l' in
           if (r <? 0)%Z then (-1)%Z else (r + 1)%Z
  end.

Definition getValueIndex (v : Value) : Z :=
  findIndex (λ w, bool_decide (w = v)) VALUES.

Definition getSuitShort (s : Suit) : FKey := SUIT_SHORT s.

(** ** Arrays

    A pile is a list whose last element is the top card ([push] appends,
    [pop] removes the last element). *)

(** [a[i]] for an integer [i]: [undefined] ([None]) out of range. *)
Definition at_ {A} (l : list A) (i : Z) : option A :=
  if (i <? 0)%Z then None else l !! Z.to_nat i.

(** The start position [slice] and [splice] compute from a relative index:
    a negative one counts from the end, and the result is clamped to
    [0 .. length]. *)
Definition relativeStart (len : nat) (start : Z) : nat :=
  if (start <? 0)%Z then Z.to_nat (Z.max (Z.of_nat len + start) 0)
  else Nat.min (Z.to_nat start) len.

(** [a.slice(start)] *)
Definition slice {A} (l : list A) (start : Z) : list A :=
  drop (relativeStart (length l) start) l.

(** The array left by [a.splice(start, count)]. *)
Definition splice {A} (l : list A) (start : Z) (count : nat) : list A :=
  let k := relativeStart (length l) start in
  take k l ++ drop (k + count) l.

(** ** The object store and the board *)

(** References to card objects. *)
Abbreviation ref := nat.

Definition Heap := ref → Card.

(** [card.faceUp = b] *)
Definition setFaceUp (r : ref) (b : bool) (h : Heap) : Heap :=
  λ r', if bool_decide (r' = r)
        then {| suit := suit (h r'); value := value (h r');
                color := color (h r'); faceUp := b; id := id (h r') |}
        else h r'.

Record Foundations := mkFoundations {
  f_h : list ref;
  f_d : list ref;
  f_c : list ref;
  f_s : list ref
}.

Definition fget (k : FKey) (f : Foundations) : list ref :=
  match k with Kh => f_h f | Kd => f_d f | Kc => f_c f | Ks => f_s f end.

Definition fset (k : FKey) (p : list ref) (f : Foundations) : Foundations :=
  match k with
  | Kh => mkFoundations p (f_d f) (f_c f) (f_s f)
  | Kd => mkFoundations (f_h f) p (f_c f) (f_s f)
  | Kc => mkFoundations (f_h f) (f_d f) p (f_s f)
  | Ks => mkFoundations (f_h f) (f_d f) (f_c f) p
  end.

(** A pile descriptor [{ type, index }].  The index of a tableau column is a
    number, that of a foundation one of its keys; the waste has none that is
    ever read. *)
Inductive Loc :=
| Waste
| Tableau (index : nat)
| Foundation (index : FKey).

#[global] Instance Loc_eq_dec : EqDecision Loc.
Proof. solve_decision. Defined.

Record Selection := mkSelection {
  sel_cards : list ref;
  sel_source : Loc
}.

Record State := mkState {
  heap : Heap;
  stock : list ref;
  waste : list ref;
  foundations : Foundations;
  tableau : list (list ref);
  selectedCards : option Selection;
  alerts : nat
}.

Definition with_heap (h : Heap) (s : State) : State :=
  mkState h (stock s) (waste s) (foundations s) (tableau s)
          (selectedCards s) (alerts s).
Definition with_stock (p : list ref) (s : State) : State :=
  mkState (heap s) p (waste s) (foundations s) (tableau s)
          (selectedCards s) (alerts s).
Definition with_waste (p : list ref) (s : State) : State :=
  mkState (heap s) (stock s) p (foundations s) (tableau s)
          (selectedCards s) (alerts s).
Definition with_foundations (f : Foundations) (s : State) : State :=
  mkState (heap s) (stock s) (waste s) f (tableau s)
          (selectedCards s) (alerts s).
Definition with_tableau (t : list (list ref)) (s : State) : State :=
  mkState (heap s) (stock s) (waste s) (foundations s) t
          (selectedCards s) (alerts s).
Definition with_selectedCards (o : option Selection) (s : State) : State :=
  mkState (heap s) (stock s) (waste s) (foundations s) (tableau s)
          o (alerts s).
Definition with_alerts (n : nat) (s : State) : State :=
  mkState (heap s) (stock s) (waste s) (foundations s) (tableau s)
          (selectedCards s) n.

(** [pile[pile.length - 1]] *)
Definition top {A} (l : list A) : option A :=
  at_ l (Z.of_nat (length l) - 1).

(** A loop whose body can raise: the state is threaded through the
    iterations in order, and an exception ends the loop. *)
Fixpoint forEach {A S} (body : A → S → option S) (l : list A) (s : S)
  : option S :=
  match l with
  | [] => Some s
  | x :: l' => s' ← body x s; forEach body l' s'
  end.

(** ** Deck management *)

(** [[a[i], a[j]] = [a[j], a[i]]]: both reads come first, then [a[i]] and
    [a[j]] are written.  The loop of [shuffleDeck] only swaps positions of
    the array, so both reads succeed. *)
Definition swap {A} (i j : nat) (a : list A) : list A :=
  match a !! i, a !! j with
  | Some x, Some y => <[j := x]> (<[i := y]> a)
  | _, _ => a
  end.

(** [rnd i] is the draw of [Math.random] made in the iteration with index
    [i].  [Math.floor(Math.random() * (i + 1))] lies in [0 .. i]; the
    embedding reduces the draw into that range. *)
Definition shuffleDeck {A} (rnd : nat → nat) (deck : list A) : list A :=
  fold_left (λ shuffled i, swap i (rnd i mod (i + 1)) shuffled)
            (rev (seq 1 (length deck - 1))) deck.

(** ** Game initialization *)

(** The store after [createDeck]: the object with reference [r] is the
    [r]-th card created.  References that were never allocated read as an
    arbitrary card; no pile ever holds one. *)
Definition deckHeap : Heap :=
  λ r, default (createCard hearts VA) (createDeck !! r).

Definition emptyFoundations : Foundations := mkFoundations [] [] [] [].

Definition resetState (h : Heap) : State :=
  {| heap := h; stock := []; waste := [];
     foundations := emptyFoundations;
     tableau := [[]; []; []; []; []; []; []];
     selectedCards := None; alerts := 0 |}.

(** The body of the inner dealing loop; the loop state is the board together
    with [cardIndex]. *)
Definition dealCard (deck : list ref) (col row : nat) (st : State * nat)
  : option (State * nat) :=
  let '(s, cardIndex) := st in
  card ← deck !! cardIndex;
  pile ← tableau s !! col;
  Some (with_tableau (<[col := pile ++ [card]]> (tableau s))
          (with_heap (setFaceUp card (bool_decide (row = col)) (heap s)) s),
        S cardIndex).

(** [initGame] after the shuffle: deal the tableau, then push what is left
    of the deck on the stock. *)
Definition deal (deck : list ref) (h : Heap) : option State :=
  '(s, cardIndex) ←
     forEach (λ col, forEach (dealCard deck col) (seq 0 (col + 1)))
             (seq 0 7) (resetState h, 0);
  Some (with_stock (stock s ++ drop cardIndex deck) s).

Definition initGame (rnd : nat → nat) : option State :=
  deal (shuffleDeck rnd (seq 0 (length createDeck))) deckHeap.

(** ** Move validation *)

Definition canMoveToFoundation (s : State) (card : ref) (foundationSuit : FKey)
  : option bool :=
  let foundation := fget foundationSuit (foundations s) in
  let suitShort := getSuitShort (suit (heap s card)) in
  if negb (bool_decide (suitShort = foundationSuit)) then Some false
  else if bool_decide (length foundation = 0) then
    Some (bool_decide (value (heap s card) = VA))
  else
    topCard ← top foundation;
    Some (bool_decide (getValueIndex (value (heap s card))
                       = (getValueIndex (value (heap s topCard)) + 1)%Z)).

Definition canMoveToTableau (s : State) (cards : list ref) (targetCol : nat)
  : option bool :=
  targetPile ← tableau s !! targetCol;
  if bool_decide (length targetPile = 0) then
    movingCard ← cards !! 0;
    Some (bool_decide (value (heap s movingCard) = VK))
  else
    targetCard ← top targetPile;
    if negb (faceUp (heap s targetCard)) then Some false
    else
      movingCard ← cards !! 0;
      if bool_decide (color (heap s movingCard) = color (heap s targetCard))
      then Some false
      else Some (bool_decide
                   (getValueIndex (value (heap s movingCard))
                    = (getValueIndex (value (heap s targetCard)) - 1)%Z)).

(** ** Selection and win detection *)

Definition selectCards (cards : list ref) (source : Loc) (s : State) : State :=
  with_selectedCards (Some (mkSelection cards source)) s.

Definition deselect (s : State) : State := with_selectedCards None s.

Definition totalFoundationCards (s : State) : nat :=
  length (f_h (foundations s)) + length (f_d (foundations s))
  + length (f_c (foundations s)) + length (f_s (foundations s)).

(** The win signal: one more alert is scheduled. *)
Definition checkWin (s : State) : State :=
  if bool_decide (totalFoundationCards s = 52)
  then with_alerts (S (alerts s)) s
  else s.

(** ** Move execution *)

Definition drawFromStock (s : State) : option State :=
  let s := deselect s in
  if bool_decide (length (stock s) = 0) then
    if bool_decide (0 < length (waste s)) then
      let reversed := rev (waste s) in
      Some (with_waste []
              (with_stock reversed
                 (with_heap
                    (fold_left (λ h card, setFaceUp card false h)
                               reversed (heap s)) s)))
    else Some s
  else
    card ← top (stock s);
    Some (with_waste (waste s ++ [card])
            (with_heap (setFaceUp card true (heap s))
               (with_stock (removelast (stock s)) s))).

Definition moveCards (cards : list ref) (source destination : Loc) (s : State)
  : option State :=
  s1 ← match source with
       | Waste => Some (with_waste (removelast (waste s)) s)
       | Tableau i =>
           pile ← tableau s !! i;
           startIdx ←
             match pile with
             | [] => Some (-1)%Z
             | _ :: _ =>
                 c0 ← cards !! 0;
                 Some (findIndex
                         (λ c, bool_decide (id (heap s c) = id (heap s c0)))
                         pile)
             end;
           let pile' := splice pile startIdx (length cards) in
           h ← (if bool_decide (0 < length pile') then
                  newTop ← top pile';
                  Some (if negb (faceUp (heap s newTop))
                        then setFaceUp newTop true (heap s)
                        else heap s)
                else Some (heap s));
           Some (with_heap h (with_tableau (<[i := pile']> (tableau s)) s))
       | Foundation k =>
           Some (with_foundations
                   (fset k (removelast (fget k (foundations s)))
                         (foundations s)) s)
       end;
  s2 ← match destination with
       | Tableau j =>
           pile ← tableau s1 !! j;
           Some (with_tableau (<[j := pile ++ cards]> (tableau s1)) s1)
       | Foundation k =>
           Some (with_foundations
                   (fset k (fget k (foundations s1) ++ cards)
                         (foundations s1)) s1)
       | Waste => Some s1
       end;
  Some (checkWin (deselect s2)).

(** What a call of [attemptMove] evaluates to. *)
Inductive JsRet := RetUndefined | RetBool (b : bool).

Definition truthy (r : JsRet) : bool :=
  match r with RetUndefined => false | RetBool b => b end.

Definition attemptMove (destination : Loc) (s : State)
  : option (JsRet * State) :=
  match selectedCards s with
  | None => Some (RetUndefined, s)
  | Some (mkSelection cards source) =>
      let rejected := Some (RetBool false, deselect s) in
      match destination with
      | Foundation k =>
          ok ← (if bool_decide (length cards = 1) then
                  c0 ← cards !! 0; canMoveToFoundation s c0 k
                else Some false);
          if ok : bool then
            s' ← moveCards cards source (Foundation k) s;
            Some (RetBool true, s')
          else rejected
      | Tableau j =>
          ok ← canMoveToTableau s cards j;
          if ok : bool then
            s' ← moveCards cards source (Tableau j) s;
            Some (RetBool true, s')
          else rejected
      | Waste => rejected
      end
  end.

Definition autoMoveToFoundation (card : ref) (source : Loc) (s : State)
  : option (bool * State) :=
  let suitShort := getSuitShort (suit (heap s card)) in
  ok ← canMoveToFoundation s card suitShort;
  if ok : bool then
    s' ← moveCards [card] source (Foundation suitShort) s;
    Some (true, s')
  else Some (false, s).

(** ** Selection logic *)

(** [sourceType === "foundation"] *)
Definition isFoundation (l : Loc) : bool :=
  match l with Foundation _ => true | _ => false end.

(** [dbl] says that the click event is present with [detail === 2]. *)
Definition handleCardClick (cardId : string) (source : Loc) (dbl : bool)
    (s : State) : option State :=
  '(pile, card, cardIndex) ←
     match source with
     | Waste =>
         Some (waste s, top (waste s), (Z.of_nat (length (waste s)) - 1)%Z)
     | Tableau i =>
         pile ← tableau s !! i;
         let cardIndex :=
           findIndex (λ c, bool_decide (id (heap s c) = cardId)) pile in
         Some (pile, at_ pile cardIndex, cardIndex)
     | Foundation k =>
         let pile := fget k (foundations s) in
         Some (pile, top pile, (Z.of_nat (length pile) - 1)%Z)
     end;
  match card with
  | None => Some s
  | Some card =>
      if negb (faceUp (heap s card)) then Some s
      else
        '(moved, s1) ←
           (if dbl && negb (isFoundation source) then
              let cardsToMove :=
                match source with
                | Tableau _ => slice pile cardIndex
                | _ => [card]
                end in
              if bool_decide (length cardsToMove = 1)
              then autoMoveToFoundation card source s
              else Some (false, s)
            else Some (false, s));
        if moved : bool then Some s1
        else
          match selectedCards s1 with
          | None =>
              let cardsToSelect :=
                match source with
                | Tableau _ => slice pile cardIndex
                | _ => [card]
                end in
              Some (selectCards cardsToSelect source s1)
          | Some _ =>
              match source with
              | Tableau i => snd <$> attemptMove (Tableau i) s1
              | Foundation k => snd <$> attemptMove (Foundation k) s1
              | Waste => Some (deselect s1)
              end
          end
  end.

Definition handleEmptySlotClick (slot : Loc) (s : State) : option State :=
  match selectedCards s with
  | Some _ => snd <$> attemptMove slot s
  | None => Some s
  end.

(** ** Notions used in the statements *)

(** [n] calls of [drawFromStock] in a row. *)
Fixpoint drawTimes (n : nat) (s : State) : option State :=
  match n with
  | 0 => Some s
  | S n' => s' ← drawFromStock s; drawTimes n' s'
  end.

(** Two card records that differ at most in [faceUp]. *)
Definition sameIdentity (c c' : Card) : Prop :=
  suit c = suit c' ∧ value c = value c' ∧ color c = color c' ∧ id c = id c'.

(** A sequence of [card.faceUp = b] assignments, carried out in order. *)
Definition applyWrites (ws : list (ref * bool)) (h : Heap) : Heap :=
  fold_left (λ (h : Heap) (w : ref * bool), setFaceUp w.1 w.2 h) ws h.

(** The deal in closed form: column [i] takes [i + 1] cards of the deck
    from position [i(i+1)/2] on, only the last of them face-up; [deal] is
    proved to compute this board. *)
Definition dealColumn (deck : list ref) (i : nat) : list ref :=
  take (i + 1) (drop (i * (i + 1) / 2) deck).

Definition columnWrites (deck : list ref) (i : nat) : list (ref * bool) :=
  zip (dealColumn deck i) ((λ row, bool_decide (row = i)) <$> seq 0 (i + 1)).

Definition dealt (deck : list ref) (h : Heap) : State :=
  {| heap := applyWrites (i ← seq 0 7; columnWrites deck i) h;
     stock := drop 28 deck; waste := [];
     foundations := emptyFoundations;
     tableau := dealColumn deck <$> seq 0 7;
     selectedCards := None; alerts := 0 |}.

(** *** The cards on the board *)

Definition foundationCards (f : Foundations) : list ref :=
  f_h f ++ f_d f ++ f_c f ++ f_s f.

(** All piles, one after the other. *)
Definition allCards (s : State) : list ref :=
  stock s ++ waste s ++ foundationCards (foundations s) ++ concat (tableau s).

(** The [id]s of the cards in the piles, and the 52 [id]s of a deck. *)
Definition cardIds (s : State) : list string :=
  (λ r, id (heap s r)) <$> allCards s.

Definition deckIds : list string := id <$> createDeck.

(** Stock, waste, four foundations and seven columns hold every [id] of the
    deck exactly once. *)
Definition partitioned (s : State) : Prop :=
  length (tableau s) = 7 ∧ cardIds s ≡ₚ deckIds.

(** *** The operations of the engine *)

(** One call of an entry point of the engine that returns. [moveCards] and
    [autoMoveToFoundation] are called by [attemptMove] and
    [handleCardClick] only, with the cards and the source of the selection
    or of the click. *)
Inductive step : State → State → Prop :=
| step_drawFromStock s s' :
    drawFromStock s = Some s' → step s s'
| step_handleCardClick cardId source dbl s s' :
    handleCardClick cardId source dbl s = Some s' → step s s'
| step_handleEmptySlotClick slot s s' :
    handleEmptySlotClick slot s = Some s' → step s s'
| step_attemptMove destination r s s' :
    attemptMove destination s = Some (r, s') → step s s'
| step_deselect s :
    step s (deselect s).

Inductive reachable : State → Prop :=
| reachable_initGame rnd s :
    initGame rnd = Some s → reachable s
| reachable_step s s' :
    reachable s → step s s' → reachable s'.

(** The pile descriptors the interface passes: the seven columns, the four
    foundations and the waste. *)
Definition validLoc (l : Loc) : Prop :=
  match l with
  | Tableau i => i < 7
  | _ => True
  end.

(** The cards [cards] are the top of the pile [source]: the top card of the
    waste or of a foundation, or a run on top of a tableau column. *)
Definition onTop (s : State) (cards : list ref) (source : Loc) : Prop :=
  match source with
  | Waste => ∃ below c, waste s = below ++ [c] ∧ cards = [c]
  | Foundation k =>
      ∃ below c, fget k (foundations s) = below ++ [c] ∧ cards = [c]
  | Tableau i =>
      ∃ below c0 rest,
        tableau s !! i = Some (below ++ c0 :: rest) ∧ cards = c0 :: rest
  end.

(** The invariant of the reachable boards: the piles hold the 52 objects of
    the deck, each once; no assignment has changed the identity of a card;
    and a selection lies on top of its source. *)
Record wellFormed (s : State) : Prop := {
  wf_cards : allCards s ≡ₚ seq 0 52;
  wf_columns : length (tableau s) = 7;
  wf_heap : ∀ r, sameIdentity (heap s r) (deckHeap r);
  wf_selection :
    match selectedCards s with
    | Some sel => onTop s (sel_cards sel) (sel_source sel)
    | None => True
    end
}.

(** When [attemptMove] does not execute a move: there is no selection, or
    the destination is the waste, or the test guarding [moveCards] in the
    branch of the destination is false. *)
Inductive notExecuted (s : State) : Loc → Prop :=
| ne_no_selection destination :
    selectedCards s = None → notExecuted s destination
| ne_waste sel :
    selectedCards s = Some sel → notExecuted s Waste
| ne_foundation_run sel k :
    selectedCards s = Some sel → length (sel_cards sel) ≠ 1 →
    notExecuted s (Foundation k)
| ne_foundation_illegal sel c0 k :
    selectedCards s = Some sel → sel_cards sel = [c0] →
    canMoveToFoundation s c0 k = Some false →
    notExecuted s (Foundation k)
| ne_tableau_illegal sel j :
    selectedCards s = Some sel →
    canMoveToTableau s (sel_cards sel) j = Some false →
    notExecuted s (Tableau j).

(** *** Sequences of calls *)

Inductive Op :=
| OpDrawFromStock
| OpCardClick (cardId : string) (source : Loc) (dbl : bool)
| OpEmptySlotClick (slot : Loc)
| OpAttemptMove (destination : Loc)
| OpDeselect.

Definition runOp (o : Op) (s : State) : option State :=
  match o with
  | OpDrawFromStock => drawFromStock s
  | OpCardClick cardId source dbl => handleCardClick cardId source dbl s
  | OpEmptySlotClick slot => handleEmptySlotClick slot s
  | OpAttemptMove destination => snd <$> attemptMove destination s
  | OpDeselect => Some (deselect s)
  end.

Definition runOps : list Op → State → option State := forEach runOp.

(** A double click reaches the handler as two click events, the second
    with [detail === 2]. *)
Definition doubleClick (cardId : string) (source : Loc) : list Op :=
  [OpCardClick cardId source false; OpCardClick cardId source true].

(** ** Boards used as concrete inputs *)

(** The deal of the unshuffled deck: column [i] holds the references
    [i(i+1)/2 .. i(i+1)/2 + i], the stock [28 .. 51]. *)
Definition unshuffledBoard : State := dealt (seq 0 52) deckHeap.

(** A board whose hearts foundation holds the ace of hearts (object 0). *)
Definition aceBoard : State :=
  with_foundations (mkFoundations [0] [] [] []) (resetState deckHeap).

(** Columns 1 to 3 hold the six of hearts (object 5, face-up), the six of
    clubs (object 31, face-up) and the six of diamonds (object 18,
    face-down); the other columns are empty. *)
Definition sixesBoard : State :=
  with_tableau [[]; [5]; [31]; [18]; []; []; []]
    (resetState (setFaceUp 5 true (setFaceUp 31 true deckHeap))).

(** The unshuffled deal with the ace of hearts, the top card of column 0,
    selected; and the board after it has been moved to its foundation. *)
Definition selectedBoard : State :=
  selectCards [0] (Tableau 0) unshuffledBoard.

Definition movedBoard : State :=
  default selectedBoard (snd <$> attemptMove (Foundation Kh) selectedBoard).

(** A board with an empty stock and three cards on the waste, drawn in the
    order 7, 8, 9. *)
Definition wasteBoard : State :=
  with_waste [7; 8; 9]
    (resetState
       (setFaceUp 7 true (setFaceUp 8 true (setFaceUp 9 true deckHeap)))).

(** The waste holds the six of hearts (object 5) under the ace of hearts
    (object 0), both face-up. *)
Definition aceWasteBoard : State :=
  with_waste [5; 0]
    (resetState (setFaceUp 0 true (setFaceUp 5 true deckHeap))).

(** Column 1 holds the two of hearts (object 1, face-down) under the three
    of hearts (object 2, face-up). *)
Definition flipBoard : State :=
  with_tableau [[]; [1; 2]; []; []; []; []; []]
    (resetState (setFaceUp 2 true deckHeap)).

(** *** A game that is won

    The draws of [Math.random] below shuffle the deck so that the stock
    yields the hearts from ace to king and then the diamonds from ace to
    jack, and the columns hold, from the top down, the queen and king of
    diamonds, the clubs and the spades in rising order. *)
Definition winningDraws : list nat :=
  [0; 0; 2; 1; 2; 0; 0; 0; 7; 0; 8; 9; 7; 8; 9; 7; 8; 9; 10; 11; 12; 0; 1; 2;
   3; 4; 5; 6; 23; 22; 21; 20; 19; 18; 17; 16; 15; 14; 13; 12; 11; 10; 9; 8;
   7; 6; 5; 4; 3; 2; 1; 0].

Definition winningRnd (i : nat) : nat := default 0 (winningDraws !! i).

Definition cardIdOf (s : Suit) (v : Value) : string := id (createCard s v).

(** Every card is drawn or uncovered in the order in which its foundation
    takes it, and sent there by a double click. *)
Definition winningGame : list Op :=
  (c ← take 24 createDeck; OpDrawFromStock :: doubleClick (id c) Waste)
  ++ doubleClick (cardIdOf diamonds VQ) (Tableau 0)
  ++ doubleClick (cardIdOf diamonds VK) (Tableau 1)
  ++ doubleClick (cardIdOf clubs VA) (Tableau 1)
  ++ (v ← [V2; V3; V4]; doubleClick (cardIdOf clubs v) (Tableau 2))
  ++ (v ← [V5; V6; V7; V8]; doubleClick (cardIdOf clubs v) (Tableau 3))
  ++ (v ← [V9; V10; VJ; VQ; VK]; doubleClick (cardIdOf clubs v) (Tableau 4))
  ++ (v ← [VA; V2; V3; V4; V5; V6];
      doubleClick (cardIdOf spades v) (Tableau 5))
  ++ (v ← [V7; V8; V9; V10; VJ; VQ; VK];
      doubleClick (cardIdOf spades v) (Tableau 6)).

(** On the won board: the king of spades is picked from its foundation and
    put on the empty column 0, then picked there and put back. *)
Definition kingOutAndBack : list Op :=
  [OpCardClick (cardIdOf spades VK) (Foundation Ks) false;
   OpEmptySlotClick (Tableau 0);
   OpCardClick (cardIdOf spades VK) (Tableau 0) false;
   OpCardClick (cardIdOf spades VQ) (Foundation Ks) false].

(** All cards but the king of spades (object 51) lie on the foundations;
    the king is alone on column 0. *)
Definition almostWonBoard : State :=
  with_foundations
    (mkFoundations (seq 0 13) (seq 13 13) (seq 26 13) (seq 39 12))
    (with_tableau [[51]; []; []; []; []; []; []]
       (resetState (setFaceUp 51 true deckHeap))).

(** ** Notions used in the further properties *)

(** The pile a descriptor names (no pile for a column that does not
    exist). *)
Definition pileAt (l : Loc) (s : State) : list ref :=
  match l with
  | Waste => waste s
  | Tableau i => default [] (tableau s !! i)
  | Foundation k => fget k (foundations s)
  end.

(** [b] may lie on [a] in the tableau: the other color, one rank lower. *)
Definition stacks (h : Heap) (a b : ref) : Prop :=
  color (h b) ≠ color (h a)
  ∧ getValueIndex (value (h b)) = (getValueIndex (value (h a)) - 1)%Z.

(** A run in which every card lies on the one before it. *)
Fixpoint chain (h : Heap) (run : list ref) : Prop :=
  match run with
  | a :: (b :: _) as rest => stacks h a b ∧ chain h rest
  | _ => True
  end.

(** A tableau column: face-down cards under a chain of face-up cards, the
    top card of a non-empty column being face-up. *)
Definition columnOK (h : Heap) (pile : list ref) : Prop :=
  ∃ down up,
    pile = down ++ up
    ∧ (∀ r, r ∈ down → faceUp (h r) = false)
    ∧ (∀ r, r ∈ up → faceUp (h r) = true)
    ∧ chain h up
    ∧ (pile ≠ [] → up ≠ []).

(** The piles as the rules want them: the stock face-down, the waste and
    the foundations face-up, foundation [k] holding the cards of its suit
    from the ace upwards, every column face-down cards under a chain. *)
Record tidy (s : State) : Prop := {
  td_stock : ∀ r, r ∈ stock s → faceUp (heap s r) = false;
  td_waste : ∀ r, r ∈ waste s → faceUp (heap s r) = true;
  td_foundations_up :
    ∀ k r, r ∈ fget k (foundations s) → faceUp (heap s r) = true;
  td_foundations :
    ∀ k i r,
      fget k (foundations s) !! i = Some r →
      getSuitShort (suit (heap s r)) = k
      ∧ getValueIndex (value (heap s r)) = Z.of_nat i;
  td_tableau : ∀ i pile, tableau s !! i = Some pile → columnOK (heap s) pile
}.

(** The rules of the game as an invariant of the board. *)
Record klondike (s : State) : Prop := {
  kl_wellFormed : wellFormed s;
  kl_tidy : tidy s;
  kl_selection :
    match selectedCards s with
    | Some sel =>
        ∀ c, sel_cards sel !! 0 = Some c → faceUp (heap s c) = true
    | None => True
    end
}.

(** The second half of [moveCards], which pushes the cards on the
    destination; it is named here for the proofs only. *)
Definition addToDestination (cards : list ref) (destination : Loc)
    (s1 : State) : option State :=
  match destination with
  | Tableau j =>
      pile ← tableau s1 !! j;
      Some (with_tableau (<[j := pile ++ cards]> (tableau s1)) s1)
  | Foundation k =>
      Some (with_foundations
              (fset k (fget k (foundations s1) ++ cards) (foundations s1)) s1)
  | Waste => Some s1
  end.

(** A move the rules allow: the cards lie on top of their source, the
    first of them face-up, and the validator of the destination accepts
    them (a foundation takes one card at a time, the waste none). *)
Definition legalMove (s : State) (cards : list ref) (source destination : Loc)
  : Prop :=
  onTop s cards source
  ∧ (∀ c, cards !! 0 = Some c → faceUp (heap s c) = true)
  ∧ match destination with
    | Tableau j => canMoveToTableau s cards j = Some true
    | Foundation k => ∃ c, cards = [c] ∧ canMoveToFoundation s c k = Some true
    | Waste => False
    end.

(** What a call of an entry point can do to the board. *)
Inductive play (s : State) : State → Prop :=
| play_deselect :
    play s (deselect s)
| play_select cards source :
    onTop s cards source →
    (∀ c, cards !! 0 = Some c → faceUp (heap s c) = true) →
    play s (selectCards cards source s)
| play_draw s' :
    drawFromStock s = Some s' → play s s'
| play_move cards source destination s' :
    legalMove s cards source destination →
    moveCards cards source destination s = Some s' →
    play s s'.

(** The board at the end of the game [winningGame]. *)
Definition wonBoard : State :=
  default unshuffledBoard (initGame winningRnd ≫= runOps winningGame).

(** The board [movedBoard], whose column 0 is empty, after a draw, which
    turns up the king of spades (object 51), and a click on the waste,
    which selects it. *)
Definition kingSelectedBoard : State :=
  default movedBoard
    (runOps [OpDrawFromStock; OpCardClick "K-spades" Waste false] movedBoard).

(** A board with three face-down cards in the stock, 9 on top. *)
Definition stockBoard : State := with_stock [7; 8; 9] (resetState deckHeap).

(** * Properties *)

(** ** Arrays *)

Section arrays.
Context {A : Type}.
Implicit Types (l : list A) (x : A).

Lemma top_last l : top l = last l.
Proof.
  unfold top, at_. destruct l as [|x l] using rev_ind; [done|].
  rewrite length_app, last_snoc. simpl.
  destruct (Z.ltb_spec (Z.of_nat (length l + 1) - 1) 0) as [?|_]; [lia|].
  replace (Z.to_nat (Z.of_nat (length l + 1) - 1)) with (length l) by lia.
  by rewrite lookup_app_r, Nat.sub_diag by lia.
Qed.

Lemma top_snoc l x : top (l ++ [x]) = Some x.
Proof. by rewrite top_last, last_snoc. Qed.

Lemma top_nil : top (@nil A) = None.
Proof. done. Qed.

Lemma top_is_Some l : 0 < length l → is_Some (top l).
Proof.
  rewrite top_last. destruct l using rev_ind; simpl; [lia|].
  rewrite last_snoc. eauto.
Qed.

Lemma at_nonneg l (i : nat) : at_ l (Z.of_nat i) = l !! i.
Proof.
  unfold at_. destruct (Z.ltb_spec (Z.of_nat i) 0); [lia|].
  by rewrite Nat2Z.id.
Qed.

Lemma relativeStart_nonneg (len i : nat) :
  i ≤ len → relativeStart len (Z.of_nat i) = i.
Proof.
  intros. unfold relativeStart.
  destruct (Z.ltb_spec (Z.of_nat i) 0); lia.
Qed.

Lemma slice_app l1 l2 : slice (l1 ++ l2) (Z.of_nat (length l1)) = l2.
Proof.
  unfold slice. rewrite relativeStart_nonneg by (rewrite length_app; lia).
  by rewrite drop_app_length.
Qed.

Lemma splice_app l1 l2 :
  splice (l1 ++ l2) (Z.of_nat (length l1)) (length l2) = l1.
Proof.
  unfold splice. rewrite relativeStart_nonneg by (rewrite length_app; lia).
  rewrite take_app_length, drop_ge, app_nil_r; [done|].
  rewrite length_app. lia.
Qed.

(** [findIndex] stops at the first element that satisfies the test. *)
Lemma findIndex_app (p : A → bool) l1 x l2 :
  (∀ y, y ∈ l1 → p y = false) → p x = true →
  findIndex p (l1 ++ x :: l2) = Z.of_nat (length l1).
Proof.
  intros Hl1 Hx. induction l1 as [|y l1 IH]; simpl.
  - by rewrite Hx.
  - rewrite (Hl1 y) by constructor.
    rewrite IH by (intros; apply Hl1; by constructor).
    destruct (Z.ltb_spec (Z.of_nat (length l1)) 0); lia.
Qed.

Lemma findIndex_range (p : A → bool) l :
  (-1 ≤ findIndex p l < Z.of_nat (length l))%Z.
Proof.
  induction l as [|x l IH]; simpl; [lia|].
  destruct (p x); [lia|].
  destruct (Z.ltb_spec (findIndex p l) 0); lia.
Qed.

Lemma findIndex_Some (p : A → bool) l x :
  at_ l (findIndex p l) = Some x →
  ∃ l1 l2, l = l1 ++ x :: l2 ∧ findIndex p l = Z.of_nat (length l1).
Proof.
  revert x. induction l as [|y l IH]; intros x; simpl.
  - unfold at_. simpl. done.
  - destruct (p y) eqn:Hy.
    + unfold at_. simpl. intros [= ->]. by exists [], l.
    + destruct (Z.ltb_spec (findIndex p l) 0) as [Hneg|Hpos].
      * unfold at_. simpl. done.
      * unfold at_ in *.
        destruct (Z.ltb_spec (findIndex p l) 0); [lia|].
        destruct (Z.ltb_spec (findIndex p l + 1) 0); [lia|].
        replace (Z.to_nat (findIndex p l + 1))
          with (S (Z.to_nat (findIndex p l))) by lia.
        simpl. intros Hx. destruct (IH _ Hx) as (l1 & l2 & -> & Hidx).
        exists (y :: l1), l2. split; [done|]. simpl length. lia.
Qed.
End arrays.

(** ** Rank order *)

Lemma getValueIndex_VALUES :
  getValueIndex <$> VALUES = [0; 1; 2; 3; 4; 5; 6; 7; 8; 9; 10; 11; 12]%Z.
Proof. reflexivity. Qed.

Lemma getValueIndex_range v : (0 ≤ getValueIndex v ≤ 12)%Z.
Proof. destruct v; vm_compute; split; discriminate. Qed.

Lemma getValueIndex_inj v w : getValueIndex v = getValueIndex w → v = w.
Proof. destruct v, w; vm_compute; congruence. Qed.

(** ** Move validation *)

(** C3. [canMoveToFoundation] is false for a card of another suit; on the
    empty foundation of the card's suit it is true exactly for an ace; on a
    non-empty one it is true exactly when the card's rank is one above the
    rank of the top card, in the order A < 2 < ... < 10 < J < Q < K. *)
Theorem canMoveToFoundation_spec (s : State) (card : ref) (k : FKey) :
  let c := heap s card in
  (getSuitShort (suit c) ≠ k → canMoveToFoundation s card k = Some false)
  ∧ (getSuitShort (suit c) = k → fget k (foundations s) = [] →
     canMoveToFoundation s card k = Some (bool_decide (value c = VA)))
  ∧ (∀ below topCard,
       getSuitShort (suit c) = k →
       fget k (foundations s) = below ++ [topCard] →
       canMoveToFoundation s card k
       = Some (bool_decide (getValueIndex (value c)
                            = (getValueIndex (value (heap s topCard)) + 1)%Z)))
  ∧ getValueIndex <$> [VA; V2; V3; V4; V5; V6; V7; V8; V9; V10; VJ; VQ; VK]
    = [0; 1; 2; 3; 4; 5; 6; 7; 8; 9; 10; 11; 12]%Z.
Proof.
  intros c. unfold canMoveToFoundation. fold c.
  split; [|split; [|split]].
  - intros Hne. by rewrite bool_decide_eq_false_2.
  - intros Heq Hempty. rewrite bool_decide_eq_true_2 by done.
    by rewrite Hempty.
  - intros below topCard Heq Hpile. rewrite bool_decide_eq_true_2 by done.
    rewrite Hpile. rewrite bool_decide_eq_false_2
      by (rewrite length_app; simpl; lia).
    simpl. by rewrite top_snoc.
  - reflexivity.
Qed.

Lemma canMoveToFoundation_spec_witness :
  canMoveToFoundation aceBoard 13 Kh = Some false
  ∧ canMoveToFoundation aceBoard 13 Kd = Some true
  ∧ canMoveToFoundation aceBoard 1 Kh = Some true
  ∧ canMoveToFoundation aceBoard 2 Kh = Some false.
Proof.
  destruct (canMoveToFoundation_spec aceBoard 13 Kh) as (H1 & _).
  destruct (canMoveToFoundation_spec aceBoard 13 Kd) as (_ & H2 & _).
  destruct (canMoveToFoundation_spec aceBoard 1 Kh) as (_ & _ & H3 & _).
  destruct (canMoveToFoundation_spec aceBoard 2 Kh) as (_ & _ & H4 & _).
  split; [|split; [|split]].
  - refine (H1 _). discriminate.
  - exact (H2 eq_refl eq_refl).
  - exact (H3 [] 0 eq_refl eq_refl).
  - exact (H4 [] 0 eq_refl eq_refl).
Defined.

(** C4. For a run with leading card [movingCard] and a column of the
    tableau: on an empty column [canMoveToTableau] is true exactly when the
    leading card is a king; on a column with top card [targetCard] it is
    false when that card is face-down, false when both cards have the same
    color, and otherwise true exactly when the rank of the leading card is
    one below the rank of the top card. *)
Theorem canMoveToTableau_spec (s : State) (movingCard : ref)
    (rest : list ref) (targetCol : nat) (targetPile : list ref) :
  tableau s !! targetCol = Some targetPile →
  let cards := movingCard :: rest in
  let m := heap s movingCard in
  (targetPile = [] →
   canMoveToTableau s cards targetCol = Some (bool_decide (value m = VK)))
  ∧ (∀ below targetCard,
       targetPile = below ++ [targetCard] →
       let t := heap s targetCard in
       (faceUp t = false → canMoveToTableau s cards targetCol = Some false)
       ∧ (color m = color t →
          canMoveToTableau s cards targetCol = Some false)
       ∧ (faceUp t = true → color m ≠ color t →
          canMoveToTableau s cards targetCol
          = Some (bool_decide (getValueIndex (value m)
                               = (getValueIndex (value t) - 1)%Z)))).
Proof.
  intros Hcol. cbv zeta. unfold canMoveToTableau. rewrite Hcol. simpl.
  set (m := heap s movingCard).
  split.
  - intros ->. done.
  - intros below targetCard ->. set (t := heap s targetCard).
    rewrite bool_decide_eq_false_2 by (rewrite length_app; simpl; lia).
    rewrite top_snoc. simpl. fold t.
    split; [|split].
    + intros ->. done.
    + intros Hc. destruct (faceUp t); simpl; [|done].
      by rewrite bool_decide_eq_true_2.
    + intros -> Hc. simpl. by rewrite bool_decide_eq_false_2.
Qed.

Lemma canMoveToTableau_spec_witness :
  canMoveToTableau sixesBoard [25] 0 = Some true
  ∧ canMoveToTableau sixesBoard [43] 3 = Some false
  ∧ canMoveToTableau sixesBoard [43] 2 = Some false
  ∧ canMoveToTableau sixesBoard [43] 1 = Some true.
Proof.
  destruct (canMoveToTableau_spec sixesBoard 25 [] 0 [] eq_refl) as [H1 _].
  destruct (canMoveToTableau_spec sixesBoard 43 [] 3 [18] eq_refl) as [_ H2].
  destruct (canMoveToTableau_spec sixesBoard 43 [] 2 [31] eq_refl) as [_ H3].
  destruct (canMoveToTableau_spec sixesBoard 43 [] 1 [5] eq_refl) as [_ H4].
  split; [|split; [|split]].
  - exact (H1 eq_refl).
  - exact (proj1 (H2 [] 18 eq_refl) eq_refl).
  - exact (proj1 (proj2 (H3 [] 31 eq_refl)) eq_refl).
  - refine (proj2 (proj2 (H4 [] 5 eq_refl)) eq_refl _). discriminate.
Defined.

(** ** Selection clearing *)

Lemma selectedCards_checkWin s : selectedCards (checkWin s) = selectedCards s.
Proof. unfold checkWin. by case_bool_decide. Qed.

Lemma moveCards_selectedCards cards source destination s s' :
  moveCards cards source destination s = Some s' → selectedCards s' = None.
Proof.
  unfold moveCards. intros H.
  apply bind_Some in H as (s1 & _ & H1).
  apply bind_Some in H1 as (s2 & _ & [= <-]).
  by rewrite selectedCards_checkWin.
Qed.

Lemma drawFromStock_total s : is_Some (drawFromStock s).
Proof.
  unfold drawFromStock. simpl.
  case_bool_decide as Hlen; [case_bool_decide; eauto|].
  destruct (top_is_Some (stock s)) as [card ->]; [lia|]. simpl. eauto.
Qed.

(** The three ways in which [attemptMove] returns: without a selection;
    after dropping the selection; after [moveCards]. *)
Lemma attemptMove_cases (s : State) (destination : Loc) (r : JsRet)
    (s' : State) :
  attemptMove destination s = Some (r, s') →
  (selectedCards s = None ∧ r = RetUndefined ∧ s' = s)
  ∨ (is_Some (selectedCards s) ∧ r = RetBool false ∧ s' = deselect s)
  ∨ (∃ sel, selectedCards s = Some sel ∧ r = RetBool true
            ∧ destination ≠ Waste
            ∧ moveCards (sel_cards sel) (sel_source sel) destination s
              = Some s').
Proof.
  unfold attemptMove.
  destruct (selectedCards s) as [[cards source]|] eqn:Hsel;
    [|intros [= <- <-]; by left].
  intros Ha. right.
  assert (∀ ok : bool,
            (if ok then
               s1 ← moveCards cards source destination s;
               Some (RetBool true, s1)
             else Some (RetBool false, deselect s)) = Some (r, s') →
            destination ≠ Waste →
            (is_Some (Some (mkSelection cards source))
             ∧ r = RetBool false ∧ s' = deselect s)
            ∨ (∃ sel, Some (mkSelection cards source) = Some sel
                      ∧ r = RetBool true ∧ destination ≠ Waste
                      ∧ moveCards (sel_cards sel) (sel_source sel)
                          destination s = Some s')) as Hok.
  { intros [] H Hdest.
    - apply bind_Some in H as (s1 & Hm & [= <- <-]). right.
      by exists (mkSelection cards source).
    - injection H as <- <-. left. eauto. }
  destruct destination as [|j|k].
  - injection Ha as <- <-. left. eauto.
  - apply bind_Some in Ha as (ok & _ & Ha). by apply (Hok ok).
  - apply bind_Some in Ha as (ok & _ & Ha). by apply (Hok ok).
Qed.

(** C8. [attemptMove], whenever it returns, and [drawFromStock], which
    always returns, leave the selection absent. *)
Theorem selection_absent_afterwards (s : State) :
  (∀ destination r s',
     attemptMove destination s = Some (r, s') → selectedCards s' = None)
  ∧ (∃ s', drawFromStock s = Some s' ∧ selectedCards s' = None).
Proof.
  split.
  - intros destination r s' Ha.
    destruct (attemptMove_cases _ _ _ _ Ha)
      as [(Hsel & _ & ->)|[(_ & _ & ->)|(sel & _ & _ & _ & Hm)]]; [done..|].
    by eapply moveCards_selectedCards.
  - destruct (drawFromStock_total s) as [s' Hs']. exists s'. split; [done|].
    revert Hs'. unfold drawFromStock. simpl.
    case_bool_decide; [case_bool_decide|]; intros Hd.
    + by injection Hd as <-.
    + by injection Hd as <-.
    + apply bind_Some in Hd as (card & _ & [= <-]). done.
Qed.

Lemma selection_absent_afterwards_witness :
  attemptMove (Foundation Kh) selectedBoard = Some (RetBool true, movedBoard)
  ∧ selectedCards selectedBoard = Some (mkSelection [0] (Tableau 0))
  ∧ selectedCards movedBoard = None.
Proof.
  assert (attemptMove (Foundation Kh) selectedBoard
          = Some (RetBool true, movedBoard)) as H by reflexivity.
  split; [exact H|]. split; [reflexivity|].
  exact (proj1 (selection_absent_afterwards selectedBoard) _ _ _ H).
Defined.

(** ** Rejected moves *)

(** C7. A call of [attemptMove] that does not execute a move returns a
    falsy value ([undefined] without a selection, [false] otherwise), leaves
    the selection absent and changes neither a pile nor a card. *)
Theorem attemptMove_rejected (s : State) (destination : Loc) :
  notExecuted s destination →
  ∃ r s',
    attemptMove destination s = Some (r, s')
    ∧ truthy r = false
    ∧ selectedCards s' = None
    ∧ stock s' = stock s ∧ waste s' = waste s
    ∧ foundations s' = foundations s ∧ tableau s' = tableau s
    ∧ heap s' = heap s ∧ alerts s' = alerts s.
Proof.
  intros Hne. unfold attemptMove.
  destruct Hne as [destination Hsel|sel Hsel|sel k Hsel Hlen
                   |sel c0 k Hsel Hcards Hcan|sel j Hsel Hcan];
    rewrite Hsel; [|destruct sel as [cards source]; simpl in *..].
  - exists RetUndefined, s. by rewrite Hsel.
  - by exists (RetBool false), (deselect s).
  - rewrite bool_decide_eq_false_2 by done. simpl.
    by exists (RetBool false), (deselect s).
  - subst cards. simpl. rewrite Hcan. simpl.
    by exists (RetBool false), (deselect s).
  - rewrite Hcan. simpl. by exists (RetBool false), (deselect s).
Qed.

Lemma attemptMove_rejected_witness :
  notExecuted selectedBoard (Tableau 1)
  ∧ ∃ r s',
      attemptMove (Tableau 1) selectedBoard = Some (r, s')
      ∧ truthy r = false
      ∧ selectedCards s' = None
      ∧ stock s' = stock selectedBoard ∧ waste s' = waste selectedBoard
      ∧ foundations s' = foundations selectedBoard
      ∧ tableau s' = tableau selectedBoard
      ∧ heap s' = heap selectedBoard ∧ alerts s' = alerts selectedBoard.
Proof.
  assert (notExecuted selectedBoard (Tableau 1)) as H.
  { apply (ne_tableau_illegal _ (mkSelection [0] (Tableau 0)));
      reflexivity. }
  split; [exact H|]. exact (attemptMove_rejected selectedBoard (Tableau 1) H).
Defined.

(** ** The object store *)

Lemma setFaceUp_same r b h : faceUp (setFaceUp r b h r) = b.
Proof. unfold setFaceUp. by rewrite bool_decide_eq_true_2. Qed.

Lemma setFaceUp_other r b h r' : r' ≠ r → setFaceUp r b h r' = h r'.
Proof. intros. unfold setFaceUp. by rewrite bool_decide_eq_false_2. Qed.

Lemma setFaceUp_sameIdentity r b h r' : sameIdentity (setFaceUp r b h r') (h r').
Proof. unfold setFaceUp, sameIdentity. by case_bool_decide. Qed.

Lemma sameIdentity_refl c : sameIdentity c c.
Proof. done. Qed.

Lemma sameIdentity_trans c1 c2 c3 :
  sameIdentity c1 c2 → sameIdentity c2 c3 → sameIdentity c1 c3.
Proof.
  intros (? & ? & ? & ?) (? & ? & ? & ?). repeat split; congruence.
Qed.

(** The loop that turns cards face-down (or face-up) one after the other. *)
Lemma fold_setFaceUp_in b (l : list ref) h r :
  r ∈ l → faceUp (fold_left (λ h card, setFaceUp card b h) l h r) = b.
Proof.
  revert h. induction l as [|x l IH] using rev_ind; intros h Hin.
  - by apply elem_of_nil in Hin.
  - rewrite fold_left_app. simpl.
    destruct (decide (r = x)) as [->|Hne]; [apply setFaceUp_same|].
    rewrite setFaceUp_other by done. apply IH.
    apply elem_of_app in Hin as [?|Hx]; [done|].
    apply list_elem_of_singleton in Hx. done.
Qed.

Lemma fold_setFaceUp_notin b (l : list ref) h r :
  r ∉ l → fold_left (λ h card, setFaceUp card b h) l h r = h r.
Proof.
  revert h. induction l as [|x l IH]; intros h Hin; [done|].
  simpl. rewrite IH by (intros ?; apply Hin; by constructor).
  apply setFaceUp_other. intros ->. apply Hin. constructor.
Qed.

Lemma fold_setFaceUp_sameIdentity b (l : list ref) h r :
  sameIdentity (fold_left (λ h card, setFaceUp card b h) l h r) (h r).
Proof.
  revert h. induction l as [|x l IH]; intros h; [done|].
  simpl. eapply sameIdentity_trans; [apply IH|apply setFaceUp_sameIdentity].
Qed.

(** ** Stock and waste *)

Lemma drawFromStock_draw s base card :
  stock s = base ++ [card] →
  drawFromStock s
  = Some (with_waste (waste s ++ [card])
            (with_heap (setFaceUp card true (heap s))
               (with_stock base (deselect s)))).
Proof.
  intros Hst. unfold drawFromStock. simpl. rewrite Hst.
  rewrite bool_decide_eq_false_2 by (rewrite length_app; simpl; lia).
  rewrite top_snoc. simpl. by rewrite removelast_last.
Qed.

(** Drawing the cards [d] off a stock that ends with them, the first card of
    [d] being on top. *)
Lemma drawTimes_replay (d : list ref) : ∀ s base,
  stock s = base ++ rev d →
  ∃ s', drawTimes (length d) s = Some s'
        ∧ waste s' = waste s ++ d ∧ stock s' = base
        ∧ foundations s' = foundations s ∧ tableau s' = tableau s.
Proof.
  induction d as [|x d IH]; intros s base Hst.
  - exists s. simpl in *. by rewrite !app_nil_r in *.
  - simpl in Hst. rewrite app_assoc in Hst.
    simpl. rewrite (drawFromStock_draw _ _ _ Hst). simpl.
    edestruct IH as (s' & -> & Hw & Hs & Hf & Ht); [by simpl|].
    exists s'. simpl in *. by rewrite Hw, <- app_assoc.
Qed.

(** C6. With an empty stock and a non-empty waste, [drawFromStock] makes the
    reversed waste the new stock, every one of its cards face-down, and
    empties the waste; the draws that follow then take the cards in the
    order in which the waste had received them: after [k] more draws the
    waste is the first [k] cards of the old waste, and after all of them it
    is the old waste.  With both piles empty, [drawFromStock] changes no
    pile and no card. *)
Theorem drawFromStock_recycle (s : State) :
  stock s = [] →
  (waste s ≠ [] →
   ∃ s', drawFromStock s = Some s'
     ∧ stock s' = rev (waste s) ∧ waste s' = []
     ∧ (∀ r, r ∈ waste s → faceUp (heap s' r) = false)
     ∧ (∀ r, r ∉ waste s → heap s' r = heap s r)
     ∧ (∀ r, sameIdentity (heap s' r) (heap s r))
     ∧ foundations s' = foundations s ∧ tableau s' = tableau s
     ∧ (∀ k, k ≤ length (waste s) →
          ∃ sk, drawTimes k s' = Some sk
                ∧ waste sk = take k (waste s)
                ∧ stock sk = rev (drop k (waste s)))
     ∧ (∃ sn, drawTimes (length (waste s)) s' = Some sn
              ∧ waste sn = waste s ∧ stock sn = []))
  ∧ (waste s = [] →
     ∃ s', drawFromStock s = Some s'
       ∧ stock s' = [] ∧ waste s' = []
       ∧ foundations s' = foundations s ∧ tableau s' = tableau s
       ∧ heap s' = heap s).
Proof.
  intros Hst. split.
  - intros Hw. unfold drawFromStock. simpl. rewrite Hst. simpl.
    rewrite bool_decide_eq_true_2
      by (destruct (waste s); [done|simpl; lia]).
    eexists. split; [done|]. simpl.
    assert (∀ k, k ≤ length (waste s) →
      ∃ sk, drawTimes k
              (with_waste []
                 (with_stock (rev (waste s))
                    (with_heap
                       (fold_left (λ h card, setFaceUp card false h)
                                  (rev (waste s)) (heap s))
                       (deselect s)))) = Some sk
            ∧ waste sk = take k (waste s)
            ∧ stock sk = rev (drop k (waste s))) as Hreplay.
    { intros k Hk.
      edestruct (drawTimes_replay (take k (waste s))) as (sk & Hd & ? & ? & _);
        [|rewrite length_take, Nat.min_l in Hd by done; exists sk; eauto].
      simpl. rewrite <- rev_app_distr. by rewrite take_drop. }
    split_and!; try done.
    + intros r Hr. apply fold_setFaceUp_in.
      apply list_elem_of_In, in_rev. rewrite rev_involutive.
      by apply list_elem_of_In.
    + intros r Hr. apply fold_setFaceUp_notin. intros Hin. apply Hr.
      apply list_elem_of_In, in_rev. by apply list_elem_of_In.
    + intros r.
      apply (fold_setFaceUp_sameIdentity false (rev (waste s)) (heap s) r).
    + destruct (Hreplay (length (waste s))) as (sn & Hd & Hwn & Hsn); [done|].
      exists sn. by rewrite Hd, Hwn, Hsn, firstn_all, drop_all.
  - intros Hw. unfold drawFromStock. simpl. rewrite Hst, Hw. simpl.
    eexists. split; [done|]. by simpl.
Qed.

Lemma drawFromStock_recycle_witness :
  (stock wasteBoard = [] ∧ waste wasteBoard ≠ []
   ∧ ∃ s', drawFromStock wasteBoard = Some s'
           ∧ stock s' = [9; 8; 7] ∧ waste s' = []
           ∧ ∃ sn, drawTimes 3 s' = Some sn
                   ∧ waste sn = [7; 8; 9] ∧ stock sn = [])
  ∧ (stock (resetState deckHeap) = [] ∧ waste (resetState deckHeap) = []
     ∧ ∃ s', drawFromStock (resetState deckHeap) = Some s'
             ∧ stock s' = [] ∧ waste s' = []).
Proof.
  destruct (drawFromStock_recycle wasteBoard eq_refl) as [H1 _].
  destruct (drawFromStock_recycle (resetState deckHeap) eq_refl) as [_ H2].
  split.
  - split; [reflexivity|]. split; [discriminate|].
    destruct H1 as (s' & Hd & Hs & Hw & _ & _ & _ & _ & _ & _ & sn & Hn & Hwn & Hsn);
      [discriminate|].
    exists s'. split; [exact Hd|]. split; [exact Hs|]. split; [exact Hw|].
    exists sn. split; [exact Hn|]. split; [exact Hwn|exact Hsn].
  - split; [reflexivity|]. split; [reflexivity|].
    destruct (H2 eq_refl) as (s' & Hd & Hs & Hw & _).
    exists s'. split; [exact Hd|]. split; [exact Hs|exact Hw].
Defined.

(** ** Move execution *)

Lemma heap_checkWin s : heap (checkWin s) = heap s.
Proof. unfold checkWin. by case_bool_decide. Qed.

Lemma tableau_checkWin s : tableau (checkWin s) = tableau s.
Proof. unfold checkWin. by case_bool_decide. Qed.

Lemma stock_checkWin s : stock (checkWin s) = stock s.
Proof. unfold checkWin. by case_bool_decide. Qed.

Lemma waste_checkWin s : waste (checkWin s) = waste s.
Proof. unfold checkWin. by case_bool_decide. Qed.

Lemma foundations_checkWin s : foundations (checkWin s) = foundations s.
Proof. unfold checkWin. by case_bool_decide. Qed.

(** The position [moveCards] and [handleCardClick] find for a card whose
    [id] no card below it in the pile carries. *)
Lemma findIndex_id (h : Heap) (below : list ref) (c0 : ref) (rest : list ref)
    (cardId : string) :
  id (h c0) = cardId →
  (∀ b, b ∈ below → id (h b) ≠ cardId) →
  findIndex (λ c, bool_decide (id (h c) = cardId)) (below ++ c0 :: rest)
  = Z.of_nat (length below).
Proof.
  intros Hc0 Hbelow. apply findIndex_app.
  - intros y Hy. apply bool_decide_eq_false_2. by apply Hbelow.
  - by apply bool_decide_eq_true_2.
Qed.

(** What [moveCards] does to a tableau source holding the run on top. *)
Lemma moveCards_tableau_source s i below c0 rest destination :
  tableau s !! i = Some (below ++ c0 :: rest) →
  (∀ b, b ∈ below → id (heap s b) ≠ id (heap s c0)) →
  moveCards (c0 :: rest) (Tableau i) destination s
  = (let h := match last below with
              | Some newTop =>
                  if faceUp (heap s newTop) then heap s
                  else setFaceUp newTop true (heap s)
              | None => heap s
              end in
     let s1 := with_heap h (with_tableau (<[i := below]> (tableau s)) s) in
     s2 ← match destination with
          | Tableau j =>
              pile ← tableau s1 !! j;
              Some (with_tableau (<[j := pile ++ c0 :: rest]> (tableau s1)) s1)
          | Foundation k =>
              Some (with_foundations
                      (fset k (fget k (foundations s1) ++ c0 :: rest)
                            (foundations s1)) s1)
          | Waste => Some s1
          end;
     Some (checkWin (deselect s2))).
Proof.
  intros Hcol Hids. unfold moveCards. rewrite Hcol. simpl.
  destruct (below ++ c0 :: rest) as [|x pile] eqn:Hpile;
    [by destruct below|].
  rewrite <- Hpile. simpl.
  rewrite (findIndex_id (heap s) below c0 rest _ eq_refl Hids). simpl.
  change (S (length rest)) with (length (c0 :: rest)). rewrite splice_app.
  destruct below as [|y below _] using rev_ind; [done|].
  rewrite bool_decide_eq_true_2 by (rewrite length_app; simpl; lia).
  rewrite top_snoc, last_snoc. simpl.
  by destruct (faceUp (heap s y)).
Qed.

(** C9. A call of [moveCards] with a tableau column as source changes at
    most one card, and only by turning a face-down card face-up.  When the
    column holds the run [c0 :: rest] above the cards [below] (no card of
    [below] carrying the [id] of [c0]), the run is taken off and [below] is
    left: if [below] is non-empty and its top card is face-down, that card,
    and no other, is turned face-up; if the top card of [below] is face-up
    already, or [below] is empty, no card changes. *)
Theorem moveCards_autoflip (s : State) (i : nat) (cards : list ref)
    (destination : Loc) :
  (∀ s', moveCards cards (Tableau i) destination s = Some s' →
     heap s' = heap s
     ∨ ∃ newTop,
         faceUp (heap s newTop) = false
         ∧ faceUp (heap s' newTop) = true
         ∧ sameIdentity (heap s' newTop) (heap s newTop)
         ∧ ∀ r, r ≠ newTop → heap s' r = heap s r)
  ∧ (∀ below c0 rest,
       cards = c0 :: rest →
       tableau s !! i = Some (below ++ cards) →
       (∀ b, b ∈ below → id (heap s b) ≠ id (heap s c0)) →
       match destination with
       | Tableau j => j < length (tableau s)
       | _ => True
       end →
       ∃ s', moveCards cards (Tableau i) destination s = Some s'
         ∧ (destination ≠ Tableau i → tableau s' !! i = Some below)
         ∧ match last below with
           | Some newTop =>
               if faceUp (heap s newTop) then heap s' = heap s
               else faceUp (heap s' newTop) = true
                    ∧ sameIdentity (heap s' newTop) (heap s newTop)
                    ∧ ∀ r, r ≠ newTop → heap s' r = heap s r
           | None => heap s' = heap s
           end).
Proof.
  split.
  - intros s' Hmove. unfold moveCards in Hmove.
    apply bind_Some in Hmove as (s1 & Hs1 & Hmove).
    apply bind_Some in Hmove as (s2 & Hs2 & [= <-]).
    rewrite heap_checkWin. simpl.
    assert (heap s2 = heap s1) as ->.
    { destruct destination as [|j|k].
      - by injection Hs2 as <-.
      - apply bind_Some in Hs2 as (pile & _ & [= <-]). done.
      - by injection Hs2 as <-. }
    apply bind_Some in Hs1 as (pile & _ & Hs1).
    apply bind_Some in Hs1 as (startIdx & _ & Hs1).
    apply bind_Some in Hs1 as (h & Hh & [= <-]). simpl.
    case_bool_decide; [|left; congruence].
    apply bind_Some in Hh as (newTop & _ & [= <-]).
    destruct (faceUp (heap s newTop)) eqn:Hup; simpl; [by left|].
    right. exists newTop. split; [done|].
    split; [apply setFaceUp_same|].
    split; [apply setFaceUp_sameIdentity|].
    intros r Hr. by apply setFaceUp_other.
  - intros below c0 rest -> Hcol Hids Hdest.
    rewrite (moveCards_tableau_source _ _ _ _ _ _ Hcol Hids). cbv zeta.
    set (h := match last below with
              | Some newTop =>
                  if faceUp (heap s newTop) then heap s
                  else setFaceUp newTop true (heap s)
              | None => heap s
              end).
    assert (match last below with
            | Some newTop =>
                if faceUp (heap s newTop) then h = heap s
                else faceUp (h newTop) = true
                     ∧ sameIdentity (h newTop) (heap s newTop)
                     ∧ ∀ r, r ≠ newTop → h r = heap s r
            | None => h = heap s
            end) as Hh.
    { subst h. destruct (last below) as [newTop|]; [|done].
      destruct (faceUp (heap s newTop)); [done|].
      split; [apply setFaceUp_same|].
      split; [apply setFaceUp_sameIdentity|].
      intros r Hr. by apply setFaceUp_other. }
    assert (i < length (tableau s)) as Hi by (by eapply lookup_lt_Some).
    destruct destination as [|j|k]; simpl.
    + eexists. split; [done|]. rewrite heap_checkWin, tableau_checkWin. simpl.
      split; [|done]. intros _. by apply list_lookup_insert_eq.
    + destruct (lookup_lt_is_Some_2 (<[i:=below]> (tableau s)) j)
        as [pile Hj]; [by rewrite length_insert|].
      rewrite Hj. simpl. eexists. split; [done|].
      rewrite heap_checkWin, tableau_checkWin. simpl. split; [|done].
      intros Hne. rewrite list_lookup_insert_ne by congruence.
      by apply list_lookup_insert_eq.
    + eexists. split; [done|]. rewrite heap_checkWin, tableau_checkWin. simpl.
      split; [|done]. intros _. by apply list_lookup_insert_eq.
Qed.

Lemma moveCards_autoflip_witness :
  tableau flipBoard !! 1 = Some ([1] ++ [2])
  ∧ faceUp (heap flipBoard 1) = false
  ∧ ∃ s', moveCards [2] (Tableau 1) (Tableau 0) flipBoard = Some s'
          ∧ tableau s' !! 1 = Some [1]
          ∧ faceUp (heap s' 1) = true
          ∧ ∀ r, r ≠ 1 → heap s' r = heap flipBoard r.
Proof.
  split; [reflexivity|]. split; [reflexivity|].
  destruct (proj2 (moveCards_autoflip flipBoard 1 [2] (Tableau 0))
              [1] 2 [] eq_refl)
    as (s' & Hm & Hcol & Hflip).
  - reflexivity.
  - intros b Hb. apply list_elem_of_singleton in Hb. subst b.
    vm_compute. discriminate.
  - vm_compute. lia.
  - exists s'. split; [exact Hm|]. split; [apply Hcol; discriminate|].
    destruct Hflip as (Hup & _ & Hothers). split; [exact Hup|exact Hothers].
Defined.

(** ** The deal *)

Lemma applyWrites_in (ws : list (ref * bool)) (h : Heap) (r : ref) (b : bool) :
  NoDup ws.*1 → (r, b) ∈ ws → faceUp (applyWrites ws h r) = b.
Proof.
  unfold applyWrites. revert h.
  induction ws as [|[r' b'] ws IH] using rev_ind; intros h Hnd Hin.
  - by apply elem_of_nil in Hin.
  - rewrite fold_left_app. simpl.
    rewrite fmap_app in Hnd. apply NoDup_app in Hnd as (Hnd & Hfresh & _).
    apply elem_of_app in Hin as [Hin|Hin].
    + rewrite setFaceUp_other; [by apply IH|].
      intros Heq. subst r'. apply (Hfresh r).
      * apply list_elem_of_fmap. exists (r, b). split; [done|exact Hin].
      * simpl. apply list_elem_of_here.
    + apply list_elem_of_singleton in Hin. injection Hin as -> ->.
      apply setFaceUp_same.
Qed.

Lemma applyWrites_notin (ws : list (ref * bool)) (h : Heap) (r : ref) :
  r ∉ ws.*1 → applyWrites ws h r = h r.
Proof.
  unfold applyWrites. revert h.
  induction ws as [|[r' b'] ws IH]; intros h Hin; [done|].
  simpl in *. rewrite IH by (intros ?; apply Hin; by constructor).
  apply setFaceUp_other. intros ->. apply Hin. constructor.
Qed.

Lemma applyWrites_sameIdentity (ws : list (ref * bool)) (h : Heap) (r : ref) :
  sameIdentity (applyWrites ws h r) (h r).
Proof.
  unfold applyWrites. revert h.
  induction ws as [|[r' b'] ws IH]; intros h; [done|].
  simpl. eapply sameIdentity_trans; [apply IH|apply setFaceUp_sameIdentity].
Qed.

Lemma applyWrites_app (ws1 ws2 : list (ref * bool)) (h : Heap) :
  applyWrites ws2 (applyWrites ws1 h) = applyWrites (ws1 ++ ws2) h.
Proof. unfold applyWrites. by rewrite fold_left_app. Qed.

Lemma dealCard_rows (deck : list ref) (col : nat) (rows : list nat) :
  ∀ h st w f t sel a idx pile,
    idx + length rows ≤ length deck →
    t !! col = Some pile →
    forEach (dealCard deck col) rows (mkState h st w f t sel a, idx)
    = Some (mkState
              (applyWrites
                 (zip (take (length rows) (drop idx deck))
                      ((λ row, bool_decide (row = col)) <$> rows)) h)
              st w f
              (<[col := pile ++ take (length rows) (drop idx deck)]> t)
              sel a,
            idx + length rows).
Proof.
  induction rows as [|row rows IH]; intros h st w f t sel a idx pile Hlen Hcol.
  - simpl. rewrite app_nil_r, list_insert_id by done.
    by rewrite Nat.add_0_r.
  - simpl in Hlen.
    destruct (lookup_lt_is_Some_2 deck idx) as [card Hcard]; [lia|].
    simpl. rewrite Hcard. simpl. rewrite Hcol. simpl.
    unfold with_tableau, with_heap. simpl.
    erewrite IH; [|simpl; lia|apply list_lookup_insert_eq;
                               by eapply lookup_lt_Some].
    rewrite list_insert_insert_eq.
    rewrite (drop_S _ _ _ Hcard). simpl.
    rewrite <- app_assoc. simpl. do 2 f_equal. lia.
Qed.

Lemma deal_dealt (deck : list ref) (h : Heap) :
  length deck = 52 → deal deck h = Some (dealt deck h).
Proof.
  intros Hlen. unfold deal, resetState.
  change (seq 0 7) with [0; 1; 2; 3; 4; 5; 6].
  cbn [forEach].
  do 7 (erewrite dealCard_rows by (simpl; first [lia|done]);
        cbn [mbind option_bind]).
  f_equal. unfold dealt, with_stock.
  cbn [stock waste heap foundations tableau selectedCards alerts].
  rewrite !applyWrites_app, <- ?app_assoc.
  replace (seq 0 7 ≫= columnWrites deck)
    with (columnWrites deck 0 ++ columnWrites deck 1 ++ columnWrites deck 2
          ++ columnWrites deck 3 ++ columnWrites deck 4
          ++ columnWrites deck 5 ++ columnWrites deck 6)
    by (simpl; by rewrite app_nil_r).
  reflexivity.
Qed.

Lemma columnWrites_fst (deck : list ref) (i : nat) :
  (columnWrites deck i).*1 = dealColumn deck i.
Proof.
  unfold columnWrites, dealColumn. apply fst_zip.
  rewrite length_take, length_fmap, length_seq. lia.
Qed.

Lemma dealColumns_concat (deck : list ref) :
  concat (dealColumn deck <$> seq 0 7) = take 28 deck.
Proof.
  trans (take 1 deck ++ take 2 (drop 1 deck) ++ take 3 (drop 3 deck)
         ++ take 4 (drop 6 deck) ++ take 5 (drop 10 deck)
         ++ take 6 (drop 15 deck) ++ take 7 (drop 21 deck));
    [by rewrite <- (app_nil_r (take 7 _))|].
  rewrite !app_assoc.
  rewrite (take_take_drop deck 1 2). change (1 + 2) with 3.
  rewrite (take_take_drop deck 3 3). change (3 + 3) with 6.
  rewrite (take_take_drop deck 6 4). change (6 + 4) with 10.
  rewrite (take_take_drop deck 10 5). change (10 + 5) with 15.
  rewrite (take_take_drop deck 15 6). change (15 + 6) with 21.
  by rewrite (take_take_drop deck 21 7).
Qed.

Lemma dealWrites_fst (deck : list ref) :
  (seq 0 7 ≫= columnWrites deck).*1 = take 28 deck.
Proof.
  rewrite <- dealColumns_concat.
  change (seq 0 7) with [0; 1; 2; 3; 4; 5; 6]. simpl.
  by rewrite !fmap_app, !columnWrites_fst.
Qed.

Lemma columnWrites_lookup (deck : list ref) (i k : nat) (r : ref) :
  dealColumn deck i !! k = Some r →
  (r, bool_decide (k = i)) ∈ columnWrites deck i.
Proof.
  intros Hk. apply list_elem_of_lookup. exists k.
  unfold columnWrites. apply lookup_zip_with_Some.
  exists r, (bool_decide (k = i)). split; [done|]. split; [done|].
  rewrite list_lookup_fmap, lookup_seq_lt; [done|].
  unfold dealColumn in Hk. apply lookup_take_Some in Hk. lia.
Qed.

(** C5. For a deck of 52 distinct face-down cards, the deal returns a board
    in which column [i] of the seven columns holds the [i + 1] cards that
    follow the first [i(i+1)/2] cards of the deck, only its last card (the
    one at position [i]) face-up; the stock holds the remaining 24 cards in
    deck order, all face-down, the last card of the deck on top; the waste
    and the four foundations are empty and nothing is selected. *)
Theorem deal_spec (deck : list ref) (h : Heap) :
  length deck = 52 → NoDup deck → (∀ r, r ∈ deck → faceUp (h r) = false) →
  ∃ s, deal deck h = Some s
    ∧ length (tableau s) = 7
    ∧ (∀ i, i < 7 →
         tableau s !! i = Some (take (i + 1) (drop (i * (i + 1) / 2) deck)))
    ∧ (∀ i pile, tableau s !! i = Some pile → length pile = i + 1)
    ∧ (∀ i pile k r,
         tableau s !! i = Some pile → pile !! k = Some r →
         faceUp (heap s r) = bool_decide (k = i))
    ∧ stock s = drop 28 deck ∧ length (stock s) = 24
    ∧ (∀ r, r ∈ stock s → faceUp (heap s r) = false)
    ∧ top (stock s) = last deck
    ∧ waste s = [] ∧ foundations s = emptyFoundations
    ∧ selectedCards s = None
    ∧ ∀ r, sameIdentity (heap s r) (h r).
Proof.
  intros Hlen Hnd Hdown. exists (dealt deck h).
  split; [by apply deal_dealt|].
  assert (NoDup (take 28 deck) ∧ ∀ r, r ∈ drop 28 deck → r ∉ take 28 deck)
    as [Hnd1 Hfresh].
  { rewrite <- (take_drop 28 deck) in Hnd.
    apply NoDup_app in Hnd as (? & Hfr & _). split; [done|].
    intros r Hr Hr'. by apply (Hfr r). }
  unfold dealt. cbn [heap stock waste foundations tableau selectedCards].
  split_and!; try done.
  - intros i Hi. rewrite list_lookup_fmap, lookup_seq_lt by done. done.
  - intros i pile Hpile.
    rewrite list_lookup_fmap in Hpile.
    destruct (seq 0 7 !! i) as [i'|] eqn:Hi; [|done].
    apply lookup_seq in Hi as [-> Hi]. simpl in Hpile.
    injection Hpile as <-. unfold dealColumn.
    rewrite length_take, length_drop, Hlen.
    do 7 (destruct i as [|i]; [by vm_compute|]). lia.
  - intros i pile k r Hpile Hr.
    rewrite list_lookup_fmap in Hpile.
    destruct (seq 0 7 !! i) as [i'|] eqn:Hi; [|done].
    apply lookup_seq in Hi as [-> Hi]. simpl in Hpile.
    injection Hpile as <-.
    apply applyWrites_in; [by rewrite dealWrites_fst|].
    apply list_elem_of_bind. exists i. split.
    + by apply columnWrites_lookup.
    + apply list_elem_of_lookup. exists i. by apply lookup_seq_lt.
  - rewrite length_drop. lia.
  - intros r Hr. rewrite applyWrites_notin.
    + apply Hdown. rewrite <- (take_drop 28 deck). apply elem_of_app. by right.
    + rewrite dealWrites_fst. by apply Hfresh.
  - rewrite top_last, !last_lookup, lookup_drop, length_drop, Hlen. done.
  - intros r. apply applyWrites_sameIdentity.
Qed.

Lemma deckHeap_faceUp (r : ref) : faceUp (deckHeap r) = false.
Proof.
  unfold deckHeap. destruct (createDeck !! r) as [c|] eqn:Hc; [|done].
  assert (Forall (λ c, faceUp c = false) createDeck) as Hall
    by (repeat constructor).
  by eapply (proj1 (Forall_lookup _ _) Hall).
Qed.

Lemma deal_spec_witness :
  ∃ s, deal (seq 0 52) deckHeap = Some s
       ∧ tableau s !! 2 = Some [3; 4; 5]
       ∧ faceUp (heap s 4) = false ∧ faceUp (heap s 5) = true
       ∧ stock s = seq 28 24.
Proof.
  destruct (deal_spec (seq 0 52) deckHeap eq_refl (NoDup_seq 0 52)
              (λ r _, deckHeap_faceUp r))
    as (s & Hdeal & _ & Hcols & _ & Hup & Hstock & _).
  exists s. split; [exact Hdeal|].
  split; [exact (Hcols 2 ltac:(lia))|].
  split; [exact (Hup 2 [3; 4; 5] 1 4 (Hcols 2 ltac:(lia)) eq_refl)|].
  split; [exact (Hup 2 [3; 4; 5] 2 5 (Hcols 2 ltac:(lia)) eq_refl)|].
  exact Hstock.
Defined.

(** ** The shuffle *)

Lemma insert_Permutation {A} (l : list A) (i : nat) (x y : A) :
  l !! i = Some x → <[i := y]> l ≡ₚ y :: delete i l.
Proof.
  revert i. induction l as [|z l IH]; intros [|i] Hi; simplify_eq/=.
  - done.
  - rewrite (IH i Hi). apply Permutation_swap.
Qed.

Lemma swap_Permutation {A} (i j : nat) (a : list A) : swap i j a ≡ₚ a.
Proof.
  unfold swap.
  destruct (a !! i) as [x|] eqn:Hi; [|done].
  destruct (a !! j) as [y|] eqn:Hj; [|done].
  destruct (decide (i = j)) as [->|Hne].
  - simplify_eq. by rewrite !list_insert_id
      by (rewrite ?list_insert_id; done).
  - assert (<[i:=y]> a !! j = Some y) as Hj'
      by (by rewrite list_lookup_insert_ne).
    assert (delete j (<[i:=y]> a) ≡ₚ delete i a) as Hdel.
    { apply (Permutation_cons_inv (a:=y)).
      rewrite <- (delete_Permutation _ _ _ Hj').
      by apply insert_Permutation with x. }
    rewrite (insert_Permutation _ j y x Hj'), Hdel.
    symmetry. by apply delete_Permutation.
Qed.

Lemma shuffleDeck_Permutation {A} (rnd : nat → nat) (deck : list A) :
  shuffleDeck rnd deck ≡ₚ deck.
Proof.
  unfold shuffleDeck. generalize (rev (seq 1 (length deck - 1))).
  intros steps. revert deck.
  induction steps as [|i steps IH]; intros deck; [done|].
  simpl. rewrite IH. apply swap_Permutation.
Qed.

Lemma shuffleDeck_length {A} (rnd : nat → nat) (deck : list A) :
  length (shuffleDeck rnd deck) = length deck.
Proof. by rewrite shuffleDeck_Permutation. Qed.

(** [initGame] never raises: it returns the deal of the shuffled deck. *)
Lemma initGame_dealt (rnd : nat → nat) :
  initGame rnd
  = Some (dealt (shuffleDeck rnd (seq 0 (length createDeck))) deckHeap).
Proof. unfold initGame. apply deal_dealt. by rewrite shuffleDeck_length. Qed.

(** ** Conservation of the cards *)

Lemma concat_insert_Permutation {A} (t : list (list A)) (i : nat)
    (p p' : list A) :
  t !! i = Some p → concat (<[i := p']> t) ++ p ≡ₚ concat t ++ p'.
Proof.
  revert i. induction t as [|q t IH]; intros [|i] Hi; simplify_eq/=.
  - solve_Permutation.
  - rewrite <- !app_assoc. f_equiv. by apply IH.
Qed.

Lemma concat_lookup_NoDup {A} (t : list (list A)) (i : nat) (p : list A) :
  t !! i = Some p → NoDup (concat t) → NoDup p.
Proof.
  intros Hi Hnd.
  pose proof (concat_insert_Permutation t i p [] Hi) as Hp.
  rewrite app_nil_r in Hp. rewrite <- Hp in Hnd.
  by apply NoDup_app in Hnd as (_ & _ & ?).
Qed.

Lemma concat_lookup_elem_of {A} (t : list (list A)) (i : nat) (p : list A)
    (x : A) :
  t !! i = Some p → x ∈ p → x ∈ concat t.
Proof.
  revert i. induction t as [|q t IH]; intros [|i] Hi Hx; simplify_eq/=;
    rewrite elem_of_app; eauto.
Qed.

Lemma foundationCards_fset (k : FKey) (p' : list ref) (f : Foundations) :
  foundationCards (fset k p' f) ++ fget k f ≡ₚ foundationCards f ++ p'.
Proof. destruct k; unfold foundationCards; simpl; solve_Permutation. Qed.

Lemma NoDup_deckIds : NoDup deckIds.
Proof. apply (bool_decide_unpack (NoDup deckIds)). by vm_compute. Qed.

Lemma deckIds_lookup (r : ref) :
  r < 52 → deckIds !! r = Some (id (deckHeap r)).
Proof.
  intros Hr. unfold deckIds, deckHeap. rewrite list_lookup_fmap.
  destruct (lookup_lt_is_Some_2 createDeck r) as [c Hc]; [exact Hr|].
  rewrite Hc. reflexivity.
Qed.

Lemma deckHeap_id_inj (r r' : ref) :
  r < 52 → r' < 52 → id (deckHeap r) = id (deckHeap r') → r = r'.
Proof.
  intros Hr Hr' Hid.
  apply (NoDup_lookup deckIds r r' (id (deckHeap r)) NoDup_deckIds).
  - by apply deckIds_lookup.
  - rewrite Hid. by apply deckIds_lookup.
Qed.

Section wellFormed.
Context (s : State) (Hwf : wellFormed s).

Lemma wf_NoDup : NoDup (allCards s).
Proof. rewrite (wf_cards s Hwf). apply NoDup_seq. Qed.

Lemma wf_bound (r : ref) : r ∈ allCards s → r < 52.
Proof. rewrite (wf_cards s Hwf), elem_of_seq. lia. Qed.

Lemma wf_id_inj (r r' : ref) :
  r ∈ allCards s → r' ∈ allCards s →
  id (heap s r) = id (heap s r') → r = r'.
Proof.
  intros Hr Hr' Hid. apply deckHeap_id_inj; [by apply wf_bound..|].
  destruct (wf_heap s Hwf r) as (_ & _ & _ & <-).
  by destruct (wf_heap s Hwf r') as (_ & _ & _ & <-).
Qed.

Lemma wf_column_elem_of (i : nat) (pile : list ref) (r : ref) :
  tableau s !! i = Some pile → r ∈ pile → r ∈ allCards s.
Proof.
  intros Hi Hr. unfold allCards. rewrite !elem_of_app. do 3 right.
  by eapply concat_lookup_elem_of.
Qed.

Lemma wf_column_NoDup (i : nat) (pile : list ref) :
  tableau s !! i = Some pile → NoDup pile.
Proof.
  intros Hi. eapply concat_lookup_NoDup; [done|].
  pose proof wf_NoDup as Hnd. unfold allCards in Hnd.
  apply NoDup_app in Hnd as (_ & _ & Hnd).
  apply NoDup_app in Hnd as (_ & _ & Hnd).
  by apply NoDup_app in Hnd as (_ & _ & Hnd).
Qed.

(** In a column, the cards below a card do not carry its [id]. *)
Lemma wf_column_ids (i : nat) (below : list ref) (c0 : ref)
    (rest : list ref) :
  tableau s !! i = Some (below ++ c0 :: rest) →
  ∀ b, b ∈ below → id (heap s b) ≠ id (heap s c0).
Proof.
  intros Hi b Hb Hid.
  pose proof (wf_column_NoDup _ _ Hi) as Hnd.
  apply NoDup_app in Hnd as (_ & Hfresh & _).
  apply (Hfresh b Hb).
  rewrite (wf_id_inj b c0); [constructor| | |done];
    eapply wf_column_elem_of; try done;
    rewrite elem_of_app; [by left|right; constructor].
Qed.
End wellFormed.

Lemma allCards_checkWin (s : State) : allCards (checkWin s) = allCards s.
Proof.
  unfold allCards.
  by rewrite stock_checkWin, waste_checkWin, foundations_checkWin,
    tableau_checkWin.
Qed.

(** The second half of [moveCards]: the cards are pushed on the
    destination, the selection is dropped and the win check runs. *)
Lemma moveCards_destination (cards : list ref) (destination : Loc)
    (s1 s' : State) :
  destination ≠ Waste →
  (s2 ← match destination with
        | Tableau j =>
            pile ← tableau s1 !! j;
            Some (with_tableau (<[j := pile ++ cards]> (tableau s1)) s1)
        | Foundation k =>
            Some (with_foundations
                    (fset k (fget k (foundations s1) ++ cards)
                          (foundations s1)) s1)
        | Waste => Some s1
        end;
   Some (checkWin (deselect s2))) = Some s' →
  allCards s' ≡ₚ allCards s1 ++ cards
  ∧ length (tableau s') = length (tableau s1)
  ∧ heap s' = heap s1
  ∧ selectedCards s' = None.
Proof.
  intros Hdest H. apply bind_Some in H as (s2 & Hs2 & [= <-]).
  rewrite allCards_checkWin, tableau_checkWin, heap_checkWin,
    selectedCards_checkWin.
  destruct destination as [|j|k]; [done|..].
  - apply bind_Some in Hs2 as (pile & Hj & [= <-]). simpl.
    split_and!; [|by rewrite length_insert|done..].
    unfold allCards. simpl. rewrite !app_assoc.
    rewrite <- (app_assoc _ (concat (tableau s1)) cards). f_equiv.
    apply (Permutation_app_inv_r pile).
    rewrite (concat_insert_Permutation _ _ _ _ Hj). solve_Permutation.
  - injection Hs2 as <-. simpl. split_and!; try done.
    unfold allCards. simpl.
    pose proof (foundationCards_fset k
      (fget k (foundations s1) ++ cards) (foundations s1)) as Hf.
    apply (Permutation_app_inv_r (fget k (foundations s1))).
    rewrite <- !app_assoc.
    rewrite (Permutation_app_comm (concat (tableau s1))
               (fget k (foundations s1))).
    rewrite (app_assoc (foundationCards _)), Hf. solve_Permutation.
Qed.

Lemma moveCards_wellFormed (s : State) (cards : list ref)
    (source destination : Loc) (s' : State) :
  wellFormed s → onTop s cards source → destination ≠ Waste →
  moveCards cards source destination s = Some s' →
  wellFormed s'.
Proof.
  intros Hwf Htop Hdest Hmove.
  cut (allCards s' ≡ₚ allCards s
       ∧ length (tableau s') = length (tableau s)
       ∧ (∀ r, sameIdentity (heap s' r) (heap s r))
       ∧ selectedCards s' = None).
  { intros (Hc & Hl & Hh & Hsel). split.
    - by rewrite Hc, (wf_cards s Hwf).
    - by rewrite Hl, (wf_columns s Hwf).
    - intros r. eapply sameIdentity_trans; [apply Hh|apply (wf_heap s Hwf)].
    - by rewrite Hsel. }
  destruct source as [|i|k]; simpl in Htop.
  - destruct Htop as (below & c & Hw & ->).
    unfold moveCards in Hmove. cbn [mbind option_bind] in Hmove.
    apply moveCards_destination in Hmove as (Hc & Hl & Hh & Hsel); [|done].
    rewrite Hc, Hl, Hh, Hsel. split_and!; try done.
    unfold allCards. simpl. rewrite Hw, removelast_last. solve_Permutation.
  - destruct Htop as (below & c0 & rest & Hi & ->).
    rewrite (moveCards_tableau_source _ _ _ _ _ _ Hi
               (wf_column_ids s Hwf _ _ _ _ Hi)) in Hmove.
    cbv zeta in Hmove.
    apply moveCards_destination in Hmove as (Hc & Hl & Hh & Hsel); [|done].
    rewrite Hc, Hl, Hh, Hsel. simpl. split_and!; try done.
    + unfold allCards. simpl. rewrite <- !app_assoc. do 3 f_equiv.
      apply (Permutation_app_inv_r below).
      rewrite <- (concat_insert_Permutation _ i _ below Hi).
      solve_Permutation.
    + by rewrite length_insert.
    + intros r. destruct (last below) as [newTop|]; [|done].
      destruct (faceUp (heap s newTop)); [done|].
      apply setFaceUp_sameIdentity.
  - destruct Htop as (below & c & Hf & ->).
    unfold moveCards in Hmove. cbn [mbind option_bind] in Hmove.
    apply moveCards_destination in Hmove as (Hc & Hl & Hh & Hsel); [|done].
    rewrite Hc, Hl, Hh, Hsel. split_and!; try done.
    unfold allCards. simpl. rewrite Hf, removelast_last.
    assert (foundationCards (foundations s)
            ≡ₚ foundationCards (fset k below (foundations s)) ++ [c]) as ->.
    { apply (Permutation_app_inv_r below).
      rewrite <- (foundationCards_fset k below (foundations s)), Hf.
      solve_Permutation. }
    solve_Permutation.
Qed.

Lemma deselect_wellFormed (s : State) : wellFormed s → wellFormed (deselect s).
Proof.
  intros Hwf. split; [apply (wf_cards s Hwf)|apply (wf_columns s Hwf)
                      |apply (wf_heap s Hwf)|exact I].
Qed.

Lemma selectCards_wellFormed (s : State) (cards : list ref) (source : Loc) :
  wellFormed s → onTop s cards source →
  wellFormed (selectCards cards source s).
Proof.
  intros [Hc Hl Hh _] Htop. split; simpl; first [done|by destruct source].
Qed.

Lemma drawFromStock_wellFormed (s s' : State) :
  wellFormed s → drawFromStock s = Some s' → wellFormed s'.
Proof.
  intros [Hc Hl Hh _]. unfold drawFromStock. simpl.
  case_bool_decide as Hst; [case_bool_decide as Hw|]; intros Hd.
  - injection Hd as <-. split; simpl; try done.
    + rewrite <- Hc. unfold allCards. simpl.
      destruct (stock s); [|done]. simpl.
      by rewrite <- (Permutation_rev (waste s)).
    + intros r. eapply sameIdentity_trans; [|apply Hh].
      apply (fold_setFaceUp_sameIdentity false (rev (waste s)) (heap s) r).
  - injection Hd as <-. by split.
  - apply bind_Some in Hd as (card & Hcard & [= <-]).
    rewrite top_last in Hcard. apply last_Some in Hcard as [base Hbase].
    split; simpl; try done.
    + rewrite <- Hc. unfold allCards. simpl.
      rewrite Hbase, removelast_last. solve_Permutation.
    + intros r. eapply sameIdentity_trans; [|apply Hh].
      apply setFaceUp_sameIdentity.
Qed.

Lemma attemptMove_wellFormed (s : State) (destination : Loc) (r : JsRet)
    (s' : State) :
  wellFormed s → attemptMove destination s = Some (r, s') → wellFormed s'.
Proof.
  intros Hwf Ha. pose proof (wf_selection s Hwf) as Htop.
  destruct (attemptMove_cases _ _ _ _ Ha)
    as [(_ & _ & ->)|[(_ & _ & ->)|(sel & Hsel & _ & Hdest & Hm)]].
  - done.
  - by apply deselect_wellFormed.
  - rewrite Hsel in Htop. by eapply moveCards_wellFormed.
Qed.

Lemma autoMoveToFoundation_wellFormed (s : State) (card : ref) (source : Loc)
    (moved : bool) (s' : State) :
  wellFormed s → onTop s [card] source →
  autoMoveToFoundation card source s = Some (moved, s') →
  wellFormed s' ∧ (moved = false → s' = s).
Proof.
  intros Hwf Htop. unfold autoMoveToFoundation. intros H.
  apply bind_Some in H as ([] & _ & H2).
  - apply bind_Some in H2 as (s1 & Hm & [= <- <-]). split; [|done].
    by apply (moveCards_wellFormed s [card] source _ _ Hwf Htop) in Hm.
  - by injection H2 as <- <-.
Qed.

Lemma handleEmptySlotClick_wellFormed (s : State) (slot : Loc) (s' : State) :
  wellFormed s → handleEmptySlotClick slot s = Some s' → wellFormed s'.
Proof.
  intros Hwf. unfold handleEmptySlotClick.
  destruct (selectedCards s); [|by intros [= <-]].
  intros H. apply fmap_Some in H as ([r s1] & Ha & ->).
  by eapply attemptMove_wellFormed.
Qed.

(** The card a click resolves, together with the cards above it in a
    tableau column, lies on top of the clicked pile. *)
Lemma clicked_onTop (s : State) (cardId : string) (source : Loc)
    (pile : list ref) (card : ref) (cardIndex : Z) :
  match source with
  | Waste =>
      Some (waste s, top (waste s), (Z.of_nat (length (waste s)) - 1)%Z)
  | Tableau i =>
      pile ← tableau s !! i;
      let cardIndex :=
        findIndex (λ c, bool_decide (id (heap s c) = cardId)) pile in
      Some (pile, at_ pile cardIndex, cardIndex)
  | Foundation k =>
      let pile := fget k (foundations s) in
      Some (pile, top pile, (Z.of_nat (length pile) - 1)%Z)
  end = Some (pile, Some card, cardIndex) →
  ∃ rest,
    match source with
    | Tableau _ => slice pile cardIndex
    | _ => [card]
    end = card :: rest
    ∧ onTop s (card :: rest) source.
Proof.
  destruct source as [|i|k]; simpl.
  - intros [= <- Htop <-]. rewrite top_last in Htop.
    apply last_Some in Htop as [below Hw]. exists []. split; [done|].
    by exists below, card.
  - intros H. apply bind_Some in H as (p & Hp & [= <- Hat <-]).
    apply findIndex_Some in Hat as (l1 & l2 & -> & Hidx).
    rewrite Hidx, slice_app. exists l2. split; [done|].
    by exists l1, card, l2.
  - intros [= <- Htop <-]. rewrite top_last in Htop.
    apply last_Some in Htop as [below Hw]. exists []. split; [done|].
    by exists below, card.
Qed.

Lemma handleCardClick_wellFormed (s : State) (cardId : string) (source : Loc)
    (dbl : bool) (s' : State) :
  wellFormed s → handleCardClick cardId source dbl s = Some s' →
  wellFormed s'.
Proof.
  intros Hwf H. unfold handleCardClick in H.
  apply bind_Some in H as ([[pile card] cardIndex] & Hres & H).
  destruct card as [card|]; [|by injection H as <-].
  destruct (faceUp (heap s card)); simpl in H; [|by injection H as <-].
  apply clicked_onTop in Hres as (rest & Hcards & Htop).
  apply bind_Some in H as ([moved s1] & Hauto & H).
  assert (wellFormed s1 ∧ (moved = false → s1 = s)) as [Hwf1 Hs1].
  { destruct (dbl && negb (isFoundation source));
      [|by injection Hauto as <- <-].
    case_bool_decide as Hlen; [|by injection Hauto as <- <-].
    eapply autoMoveToFoundation_wellFormed; [done| |exact Hauto].
    replace rest with (@nil nat) in Htop; [done|].
    destruct source; rewrite Hcards in Hlen; simpl in Hlen;
      destruct rest; simpl in *; by simplify_eq. }
  destruct moved; [by injection H as <-|].
  rewrite (Hs1 eq_refl) in *. clear Hs1 Hwf1 Hauto.
  destruct (selectedCards s) eqn:Hsc.
  - destruct source as [|i|k].
    + injection H as <-. by apply deselect_wellFormed.
    + apply fmap_Some in H as ([r s2] & Ha & ->).
      by eapply attemptMove_wellFormed.
    + apply fmap_Some in H as ([r s2] & Ha & ->).
      by eapply attemptMove_wellFormed.
  - injection H as <-. apply selectCards_wellFormed; [done|].
    by destruct source; rewrite ?Hcards.
Qed.

Lemma dealt_wellFormed (deck : list ref) :
  deck ≡ₚ seq 0 52 → wellFormed (dealt deck deckHeap).
Proof.
  intros Hperm. unfold dealt.
  split; cbn [heap stock waste foundations tableau selectedCards].
  - unfold allCards.
    cbn [heap stock waste foundations tableau selectedCards].
    rewrite dealColumns_concat.
    change (foundationCards emptyFoundations) with (@nil nat).
    rewrite !app_nil_l.
    by rewrite (Permutation_app_comm (drop 28 _)), take_drop.
  - by rewrite length_fmap.
  - intros r. apply applyWrites_sameIdentity.
  - done.
Qed.

Lemma initGame_wellFormed (rnd : nat → nat) (s : State) :
  initGame rnd = Some s → wellFormed s.
Proof.
  rewrite initGame_dealt. intros Hs.
  assert (s = dealt (shuffleDeck rnd (seq 0 (length createDeck))) deckHeap)
    as -> by congruence.
  apply dealt_wellFormed, shuffleDeck_Permutation.
Qed.

Lemma step_wellFormed (s s' : State) : wellFormed s → step s s' → wellFormed s'.
Proof.
  intros Hwf Hstep. destruct Hstep.
  - by eapply drawFromStock_wellFormed.
  - by eapply handleCardClick_wellFormed.
  - by eapply handleEmptySlotClick_wellFormed.
  - by eapply attemptMove_wellFormed.
  - by apply deselect_wellFormed.
Qed.

Lemma reachable_wellFormed (s : State) : reachable s → wellFormed s.
Proof.
  induction 1 as [rnd s Hinit|s s' _ IH Hstep].
  - by eapply initGame_wellFormed.
  - by eapply step_wellFormed.
Qed.

Lemma deckIds_deckHeap : (λ r, id (deckHeap r)) <$> seq 0 52 = deckIds.
Proof. by vm_compute. Qed.

Lemma wellFormed_partitioned (s : State) : wellFormed s → partitioned s.
Proof.
  intros Hwf. split; [apply (wf_columns s Hwf)|].
  unfold cardIds.
  assert ((λ r, id (heap s r)) <$> allCards s
          = (λ r, id (deckHeap r)) <$> allCards s) as ->.
  { apply list_fmap_ext. intros _ r _.
    by destruct (wf_heap s Hwf r) as (_ & _ & _ & ->). }
  by rewrite (wf_cards s Hwf), deckIds_deckHeap.
Qed.

(** ** The entry points return

    On a reachable board, a call that names one of the seven columns, a
    foundation or the waste raises no [TypeError]. *)

Lemma canMoveToFoundation_total (s : State) (card : ref) (k : FKey) :
  is_Some (canMoveToFoundation s card k).
Proof.
  unfold canMoveToFoundation.
  destruct (negb _); [eauto|].
  case_bool_decide as Hlen; [eauto|].
  destruct (top_is_Some (fget k (foundations s))) as [t ->]; [lia|].
  simpl. eauto.
Qed.

Lemma canMoveToTableau_total (s : State) (c0 : ref) (rest : list ref)
    (j : nat) :
  j < length (tableau s) → is_Some (canMoveToTableau s (c0 :: rest) j).
Proof.
  intros Hj. unfold canMoveToTableau.
  destruct (lookup_lt_is_Some_2 _ _ Hj) as [pile ->]. simpl.
  case_bool_decide as Hlen; [eauto|].
  destruct (top_is_Some pile) as [t ->]; [lia|]. simpl.
  destruct (negb _); [eauto|]. case_bool_decide; eauto.
Qed.

Lemma onTop_cons (s : State) (cards : list ref) (source : Loc) :
  onTop s cards source → ∃ c0 rest, cards = c0 :: rest.
Proof.
  destruct source; simpl.
  - intros (_ & c & _ & ->). eauto.
  - intros (_ & c0 & rest & _ & ->). eauto.
  - intros (_ & c & _ & ->). eauto.
Qed.

Lemma moveCards_total (s : State) (cards : list ref)
    (source destination : Loc) :
  wellFormed s → onTop s cards source → validLoc destination →
  is_Some (moveCards cards source destination s).
Proof.
  intros Hwf Htop Hdest.
  assert (∀ s1, length (tableau s1) = 7 →
            is_Some (s2 ← match destination with
                          | Tableau j =>
                              pile ← tableau s1 !! j;
                              Some (with_tableau
                                      (<[j := pile ++ cards]> (tableau s1)) s1)
                          | Foundation k =>
                              Some (with_foundations
                                      (fset k (fget k (foundations s1) ++ cards)
                                            (foundations s1)) s1)
                          | Waste => Some s1
                          end;
                     Some (checkWin (deselect s2)))) as Hsecond.
  { intros s1 Hlen. destruct destination as [|j|k]; simpl in *; [eauto| |eauto].
    destruct (lookup_lt_is_Some_2 (tableau s1) j) as [pile ->]; [lia|].
    simpl. eauto. }
  pose proof (wf_columns s Hwf) as Hcols.
  destruct source as [|i|k]; simpl in Htop.
  - unfold moveCards. cbn [mbind option_bind]. by apply Hsecond.
  - destruct Htop as (below & c0 & rest & Hi & ->).
    rewrite (moveCards_tableau_source _ _ _ _ _ _ Hi
               (wf_column_ids s Hwf _ _ _ _ Hi)).
    cbv zeta. apply Hsecond. simpl. by rewrite length_insert.
  - unfold moveCards. cbn [mbind option_bind]. by apply Hsecond.
Qed.

Lemma attemptMove_total (s : State) (destination : Loc) :
  wellFormed s → validLoc destination →
  is_Some (attemptMove destination s).
Proof.
  intros Hwf Hdest. unfold attemptMove.
  pose proof (wf_selection s Hwf) as Htop.
  destruct (selectedCards s) as [[cards source]|]; [|eauto].
  simpl in Htop. destruct (onTop_cons _ _ _ Htop) as (c0 & rest & ->).
  destruct destination as [|j|k]; [eauto|..].
  - destruct (canMoveToTableau_total s c0 rest j) as [ok ->];
      [by rewrite (wf_columns s Hwf)|].
    simpl. destruct ok; [|eauto].
    destruct (moveCards_total s (c0 :: rest) source (Tableau j))
      as [s' ->]; simpl; eauto.
  - case_bool_decide as Hlen; simpl; [|eauto].
    destruct (canMoveToFoundation_total s c0 k) as [ok ->].
    simpl. destruct ok; [|eauto].
    destruct (moveCards_total s (c0 :: rest) source (Foundation k))
      as [s' ->]; simpl; eauto.
Qed.

Lemma handleEmptySlotClick_total (s : State) (slot : Loc) :
  wellFormed s → validLoc slot → is_Some (handleEmptySlotClick slot s).
Proof.
  intros Hwf Hslot. unfold handleEmptySlotClick.
  destruct (selectedCards s); [|eauto].
  destruct (attemptMove_total s slot Hwf Hslot) as [[r s'] ->]. simpl. eauto.
Qed.

Lemma handleCardClick_total (s : State) (cardId : string) (source : Loc)
    (dbl : bool) :
  wellFormed s → validLoc source →
  is_Some (handleCardClick cardId source dbl s).
Proof.
  intros Hwf Hsource. unfold handleCardClick.
  destruct (match source with
            | Waste =>
                Some (waste s, top (waste s),
                      (Z.of_nat (length (waste s)) - 1)%Z)
            | Tableau i =>
                pile ← tableau s !! i;
                let cardIndex :=
                  findIndex (λ c, bool_decide (id (heap s c) = cardId)) pile in
                Some (pile, at_ pile cardIndex, cardIndex)
            | Foundation k =>
                let pile := fget k (foundations s) in
                Some (pile, top pile, (Z.of_nat (length pile) - 1)%Z)
            end) as [[[pile card] cardIndex]|] eqn:Hres.
  2: { destruct source as [|i|k]; simpl in *; [done| |done].
       destruct (lookup_lt_is_Some_2 (tableau s) i) as [pile Hp];
         [by rewrite (wf_columns s Hwf)|].
       by rewrite Hp in Hres. }
  simpl. destruct card as [card|]; [|eauto].
  destruct (faceUp (heap s card)); simpl; [|eauto].
  apply clicked_onTop in Hres as (rest & Hcards & Htop).
  assert (∃ moved s1,
            (if dbl && negb (isFoundation source) then
               if bool_decide
                    (length match source with
                            | Tableau _ => slice pile cardIndex
                            | _ => [card]
                            end = 1)
               then autoMoveToFoundation card source s
               else Some (false, s)
             else Some (false, s)) = Some (moved, s1)
            ∧ (moved = false → s1 = s)) as (moved & s1 & -> & Hs1).
  { destruct (dbl && negb (isFoundation source)); [|eauto].
    case_bool_decide as Hlen; [|eauto].
    assert (onTop s [card] source) as Htop1.
    { replace rest with (@nil nat) in Htop; [done|].
      destruct source; rewrite Hcards in Hlen; simpl in Hlen;
        destruct rest; simpl in *; by simplify_eq. }
    unfold autoMoveToFoundation.
    destruct (canMoveToFoundation_total s card
                (getSuitShort (suit (heap s card)))) as [ok ->].
    simpl. destruct ok; [|eauto].
    destruct (moveCards_total s [card] source
                (Foundation (getSuitShort (suit (heap s card)))))
      as [s' ->]; simpl; eauto.
    exists true, s'. by split. }
  simpl. destruct moved; [eauto|]. rewrite (Hs1 eq_refl).
  destruct (selectedCards s) eqn:Hsel; [|eauto].
  destruct source as [|i|k]; [eauto|..].
  - destruct (attemptMove_total s (Tableau i) Hwf Hsource) as [[r s'] ->].
    simpl. eauto.
  - destruct (attemptMove_total s (Foundation k) Hwf Hsource) as [[r s'] ->].
    simpl. eauto.
Qed.

(** C1. On every board reachable from [initGame] by calls of
    [drawFromStock], [handleCardClick], [handleEmptySlotClick],
    [attemptMove] and [deselect], the stock, the waste, the four foundations
    and the seven columns together hold each of the 52 card [id]s of the
    deck exactly once; every further call leads to such a board again; and
    the calls that name a pile of the board do return a board. *)
Theorem cards_conserved (s : State) :
  reachable s →
  (partitioned s ∧ NoDup (cardIds s) ∧ length (cardIds s) = 52)
  ∧ (∀ s', step s s' →
       partitioned s' ∧ NoDup (cardIds s') ∧ length (cardIds s') = 52)
  ∧ (∃ s', drawFromStock s = Some s')
  ∧ (∀ cardId source dbl,
       validLoc source → ∃ s', handleCardClick cardId source dbl s = Some s')
  ∧ (∀ slot, validLoc slot → ∃ s', handleEmptySlotClick slot s = Some s')
  ∧ (∀ destination,
       validLoc destination →
       ∃ r s', attemptMove destination s = Some (r, s'))
  ∧ NoDup deckIds ∧ length deckIds = 52.
Proof.
  intros Hreach.
  assert (∀ s0, wellFormed s0 →
            partitioned s0 ∧ NoDup (cardIds s0) ∧ length (cardIds s0) = 52)
    as Hpart.
  { intros s0 Hwf. pose proof (wellFormed_partitioned s0 Hwf) as Hp.
    split; [done|]. destruct Hp as [_ ->].
    split; [apply NoDup_deckIds|reflexivity]. }
  pose proof (reachable_wellFormed s Hreach) as Hwf.
  split; [by apply Hpart|].
  split; [intros s' Hstep; apply Hpart; by eapply step_wellFormed|].
  split; [apply drawFromStock_total|].
  split; [intros; by apply handleCardClick_total|].
  split; [intros; by apply handleEmptySlotClick_total|].
  split; [|split; [apply NoDup_deckIds|done]].
  intros destination Hdest.
  destruct (attemptMove_total s destination Hwf Hdest) as [[r s'] Ha].
  eauto.
Qed.

Lemma runOp_step (o : Op) (s s' : State) : runOp o s = Some s' → step s s'.
Proof.
  destruct o as [|cardId source dbl|slot|destination|]; simpl; intros H.
  - by apply step_drawFromStock.
  - by eapply step_handleCardClick.
  - by eapply step_handleEmptySlotClick.
  - apply fmap_Some in H as ([r s1] & Ha & ->).
    by eapply step_attemptMove.
  - injection H as <-. apply step_deselect.
Qed.

Lemma runOps_reachable (ops : list Op) (s s' : State) :
  reachable s → runOps ops s = Some s' → reachable s'.
Proof.
  revert s. induction ops as [|o ops IH]; intros s Hreach; simpl.
  - by intros [= <-].
  - intros H. apply bind_Some in H as (s1 & Ho & Hops).
    apply (IH s1); [|done].
    eapply reachable_step; [done|]. by eapply runOp_step.
Qed.

Lemma cards_conserved_witness :
  reachable movedBoard
  ∧ partitioned movedBoard ∧ NoDup (cardIds movedBoard)
  ∧ length (cardIds movedBoard) = 52.
Proof.
  assert (reachable movedBoard) as Hreach.
  { apply (reachable_step selectedBoard).
    - apply (reachable_step unshuffledBoard).
      + apply (reachable_initGame (λ i, i)). rewrite initGame_dealt.
        unfold unshuffledBoard. do 2 f_equal.
      + apply (step_handleCardClick (cardIdOf hearts VA) (Tableau 0) false).
        reflexivity.
    - apply (step_attemptMove (Foundation Kh) (RetBool true)).
      reflexivity. }
  split; [exact Hreach|]. exact (proj1 (cards_conserved movedBoard Hreach)).
Defined.

(** ** Win detection *)

Lemma alerts_checkWin (s : State) :
  alerts (checkWin s)
  = alerts s + (if bool_decide (totalFoundationCards s = 52) then 1 else 0).
Proof. unfold checkWin. case_bool_decide; simpl; lia. Qed.

Lemma totalFoundationCards_checkWin (s : State) :
  totalFoundationCards (checkWin s) = totalFoundationCards s.
Proof. unfold totalFoundationCards. by rewrite foundations_checkWin. Qed.

Lemma winningGame_alerts :
  (s0 ← initGame winningRnd;
   s1 ← runOps winningGame s0;
   s2 ← runOps kingOutAndBack s1;
   Some (alerts s1, totalFoundationCards s1,
         alerts s2, totalFoundationCards s2, alerts (checkWin s2)))
  = Some (1, 52, 2, 52, 3).
Proof. vm_compute. reflexivity. Qed.

(** C2, as stated, fails: in the game [winningGame] the last move fills
    the foundations and signals the win; putting the king of spades on the
    empty column 0 and back fills them again, and the win is signalled a
    second time; a further win check on that board signals a third time. *)
Lemma win_signalled_twice :
  ∃ s0 s1 s2,
    initGame winningRnd = Some s0
    ∧ runOps winningGame s0 = Some s1
    ∧ runOps kingOutAndBack s1 = Some s2
    ∧ reachable s1 ∧ totalFoundationCards s1 = 52 ∧ alerts s1 = 1
    ∧ reachable s2 ∧ totalFoundationCards s2 = 52 ∧ alerts s2 = 2
    ∧ alerts (checkWin s2) = 3.
Proof.
  pose proof winningGame_alerts as H.
  apply bind_Some in H as (s0 & H0 & H).
  apply bind_Some in H as (s1 & H1 & H).
  apply bind_Some in H as (s2 & H2 & H).
  injection H as Ha1 Ht1 Ha2 Ht2 Ha3.
  assert (reachable s1) as Hr1.
  { eapply runOps_reachable; [|exact H1]. by eapply reachable_initGame. }
  exists s0, s1, s2.
  split; [exact H0|]. split; [exact H1|]. split; [exact H2|].
  split; [exact Hr1|]. split; [exact Ht1|]. split; [exact Ha1|].
  split; [exact (runOps_reachable _ _ _ Hr1 H2)|].
  split; [exact Ht2|]. split; [exact Ha2|exact Ha3].
Qed.

(** C2, amended. Every win check signals exactly when the four foundation
    piles hold 52 cards together, whatever was signalled before;
    [moveCards] runs one such check on the board it has produced, so each
    successful [moveCards] that leaves 52 cards on the foundations signals
    once, and one that leaves fewer does not signal; [drawFromStock],
    [deselect] and a call of [attemptMove] that returns a falsy value do
    not signal. *)
Theorem win_signal_per_check (s : State) :
  alerts (checkWin s)
  = alerts s + (if bool_decide (totalFoundationCards s = 52) then 1 else 0)
  ∧ (∀ cards source destination s',
       moveCards cards source destination s = Some s' →
       alerts s'
       = alerts s
         + (if bool_decide (totalFoundationCards s' = 52) then 1 else 0))
  ∧ (∀ s', drawFromStock s = Some s' → alerts s' = alerts s)
  ∧ alerts (deselect s) = alerts s
  ∧ (∀ destination r s',
       attemptMove destination s = Some (r, s') → truthy r = false →
       alerts s' = alerts s).
Proof.
  split; [apply alerts_checkWin|]. split; [|split; [|split; [done|]]].
  - intros cards source destination s' H. unfold moveCards in H.
    apply bind_Some in H as (s1 & Hs1 & H).
    apply bind_Some in H as (s2 & Hs2 & [= <-]).
    rewrite alerts_checkWin, totalFoundationCards_checkWin.
    f_equal.
    assert (alerts s1 = alerts s) as <-.
    { destruct source as [|i|k].
      - by injection Hs1 as <-.
      - apply bind_Some in Hs1 as (pile & _ & Hs1).
        apply bind_Some in Hs1 as (startIdx & _ & Hs1).
        apply bind_Some in Hs1 as (h & _ & [= <-]). done.
      - by injection Hs1 as <-. }
    destruct destination as [|j|k].
    + by injection Hs2 as <-.
    + apply bind_Some in Hs2 as (pile & _ & [= <-]). done.
    + by injection Hs2 as <-.
  - intros s'. unfold drawFromStock. simpl.
    case_bool_decide; [case_bool_decide|]; intros Hd.
    + by injection Hd as <-.
    + by injection Hd as <-.
    + apply bind_Some in Hd as (card & _ & [= <-]). done.
  - intros destination r s' Ha Hr.
    destruct (attemptMove_cases _ _ _ _ Ha)
      as [(_ & _ & ->)|[(_ & _ & ->)|(sel & _ & -> & _)]]; done.
Qed.

Lemma win_signal_per_check_witness :
  ∃ s', moveCards [51] (Tableau 0) (Foundation Ks) almostWonBoard = Some s'
        ∧ totalFoundationCards s' = 52
        ∧ alerts almostWonBoard = 0 ∧ alerts s' = 1.
Proof.
  assert (totalFoundationCards <$>
            moveCards [51] (Tableau 0) (Foundation Ks) almostWonBoard
          = Some 52) as Ht by (vm_compute; reflexivity).
  apply fmap_Some in Ht as (s' & Hm & Ht).
  exists s'. split; [exact Hm|]. split; [by symmetry|].
  split; [reflexivity|].
  rewrite (proj1 (proj2 (win_signal_per_check almostWonBoard)) _ _ _ _ Hm).
  rewrite <- Ht. reflexivity.
Defined.

(** ** Clicks on the waste *)

Lemma fget_fset (k : FKey) (p : list ref) (f : Foundations) :
  fget k (fset k p f) = p.
Proof. by destruct k. Qed.

Lemma fget_fset_ne (k k' : FKey) (p : list ref) (f : Foundations) :
  k ≠ k' → fget k' (fset k p f) = fget k' f.
Proof. by destruct k, k'. Qed.

(** C10. With the waste as source, [handleCardClick] never reads
    [cardId]: two calls on the same state that differ only in [cardId] have
    the same outcome.  The card it resolves is the top card of the waste,
    and this is the card it acts upon: with an empty waste or a face-down
    top card nothing happens; a double click moves the top card from the
    waste to the foundation of its suit when [canMoveToFoundation] accepts
    it there; in every other case the top card, and no other, is selected
    with the waste as source when nothing is selected, and the selection is
    dropped when something is. *)
Theorem handleCardClick_waste_ignores_cardId
    (s : State) (cardId1 cardId2 : string) (dbl : bool) :
  handleCardClick cardId1 Waste dbl s = handleCardClick cardId2 Waste dbl s
  ∧ (waste s = [] → handleCardClick cardId1 Waste dbl s = Some s)
  ∧ (∀ below c,
       waste s = below ++ [c] →
       let key := getSuitShort (suit (heap s c)) in
       (faceUp (heap s c) = false →
        handleCardClick cardId1 Waste dbl s = Some s)
       ∧ (faceUp (heap s c) = true → dbl = true →
          canMoveToFoundation s c key = Some true →
          ∃ s',
            handleCardClick cardId1 Waste dbl s = Some s'
            ∧ waste s' = below
            ∧ fget key (foundations s') = fget key (foundations s) ++ [c]
            ∧ (∀ k, k ≠ key →
                    fget k (foundations s') = fget k (foundations s))
            ∧ stock s' = stock s ∧ tableau s' = tableau s
            ∧ heap s' = heap s ∧ selectedCards s' = None)
       ∧ (faceUp (heap s c) = true →
          dbl = false ∨ canMoveToFoundation s c key = Some false →
          handleCardClick cardId1 Waste dbl s
          = Some (match selectedCards s with
                  | None => selectCards [c] Waste s
                  | Some _ => deselect s
                  end))).
Proof.
  split; [reflexivity|]. split.
  - intros Hw. unfold handleCardClick. by rewrite Hw.
  - intros below c Hw key. unfold handleCardClick.
    rewrite Hw, top_snoc. cbn [mbind option_bind]. split_and!.
    + by intros ->.
    + intros -> -> Hcan. cbn [negb andb isFoundation].
      rewrite bool_decide_eq_true_2 by done.
      unfold autoMoveToFoundation. fold key. rewrite Hcan.
      cbn [mbind option_bind]. fold key.
      unfold moveCards. cbn [mbind option_bind].
      eexists. split; [reflexivity|].
      rewrite waste_checkWin, foundations_checkWin, stock_checkWin,
        tableau_checkWin, heap_checkWin, selectedCards_checkWin.
      cbn [waste foundations stock tableau heap selectedCards deselect
           with_waste with_foundations with_selectedCards].
      rewrite Hw, removelast_last, fget_fset.
      split_and!; try done. intros k Hk. by apply fget_fset_ne.
    + intros -> Hcase. cbn [negb isFoundation].
      assert ((if dbl && true
               then if bool_decide (length [c] = 1)
                    then autoMoveToFoundation c Waste s
                    else Some (false, s)
               else Some (false, s)) = Some (false, s)) as ->.
      { destruct Hcase as [->|Hcan]; [done|].
        destruct dbl; [|done]. cbn [andb].
        rewrite bool_decide_eq_true_2 by done.
        unfold autoMoveToFoundation. fold key. by rewrite Hcan. }
      cbn [mbind option_bind]. by destruct (selectedCards s).
Qed.

Lemma handleCardClick_waste_ignores_cardId_witness :
  handleCardClick "7-hearts" Waste false wasteBoard
  = handleCardClick "" Waste false wasteBoard
  ∧ handleCardClick "7-hearts" Waste false wasteBoard
    = Some (selectCards [9] Waste wasteBoard)
  ∧ ∃ s', handleCardClick "6-hearts" Waste true aceWasteBoard = Some s'
          ∧ waste s' = [5] ∧ fget Kh (foundations s') = [0]
          ∧ selectedCards s' = None.
Proof.
  destruct (handleCardClick_waste_ignores_cardId wasteBoard "7-hearts" ""
              false) as (Hsame & _ & Htop).
  destruct (Htop [7; 8] 9 eq_refl) as (_ & _ & Hselect).
  destruct (handleCardClick_waste_ignores_cardId aceWasteBoard "6-hearts" ""
              true) as (_ & _ & Htop').
  destruct (Htop' [5] 0 eq_refl) as (_ & Hmove & _).
  destruct (Hmove eq_refl eq_refl eq_refl)
    as (s' & H & Hw & Hf & _ & _ & _ & _ & Hsel).
  split; [exact Hsame|]. split; [exact (Hselect eq_refl (or_introl eq_refl))|].
  exists s'. split; [exact H|]. split; [exact Hw|]. split; [exact Hf|].
  exact Hsel.
Defined.

(** * Further properties *)

(** ** The deck *)

(** X1. [createCard] gives every suit and value an [id] of its own and a
    color that is red exactly for hearts and diamonds; [createDeck] holds
    the 52 combinations of suit and value, suits in the outer loop, each
    once and face-down. *)
Theorem createDeck_cards :
  (∀ s v s' v',
     id (createCard s v) = id (createCard s' v') → s = s' ∧ v = v')
  ∧ (∀ s v, color (createCard s v) = red ↔ s = hearts ∨ s = diamonds)
  ∧ (λ c, (suit c, value c)) <$> createDeck = (s ← SUITS; v ← VALUES; [(s, v)])
  ∧ length createDeck = 52
  ∧ NoDup (id <$> createDeck)
  ∧ (∀ s v, createCard s v ∈ createDeck)
  ∧ (∀ c, c ∈ createDeck → faceUp c = false).
Proof.
  split_and!.
  - intros s v s' v' H. destruct s, s'; destruct v, v'; by vm_compute in H.
  - intros s v. destruct s; simpl; split; intros H; try done; eauto.
    + by destruct H.
    + by destruct H.
  - reflexivity.
  - reflexivity.
  - apply NoDup_deckIds.
  - intros s v. apply list_elem_of_bind. exists s. split.
    + apply list_elem_of_bind. exists v. split; [apply list_elem_of_here|].
      destruct v; unfold VALUES; repeat first [apply list_elem_of_here|apply list_elem_of_further].
    + destruct s; unfold SUITS; repeat first [apply list_elem_of_here|apply list_elem_of_further].
  - intros c Hc.
    assert (Forall (λ c, faceUp c = false) createDeck) as Hall
      by (repeat constructor).
    by apply (proj1 (Forall_forall _ _) Hall).
Qed.

(** X2. [getValueIndex] is the inverse of indexing [VALUES]: it never
    answers -1, the value at the position it returns is the value asked
    for, and the position of [VALUES[i]] is [i]. *)
Theorem getValueIndex_VALUES_inverse :
  (∀ v, (0 ≤ getValueIndex v < 13)%Z ∧ at_ VALUES (getValueIndex v) = Some v)
  ∧ (∀ i v, VALUES !! i = Some v → getValueIndex v = Z.of_nat i).
Proof.
  split.
  - intros v. destruct v; vm_compute; (split; [split|]; done).
  - intros i v Hi.
    do 13 (destruct i as [|i]; [by simplify_eq/=|]). done.
Qed.

(** ** The shuffle *)

(** X3. Whatever [Math.random] returns, [shuffleDeck] returns a
    rearrangement of its argument: the same cards, each as often as before,
    and so of the same length; an empty or one-card deck is returned as it
    is. *)
Theorem shuffleDeck_permutes {A} (rnd : nat → nat) (deck : list A) :
  shuffleDeck rnd deck ≡ₚ deck
  ∧ length (shuffleDeck rnd deck) = length deck
  ∧ (∀ x : A, x ∈ shuffleDeck rnd deck ↔ x ∈ deck)
  ∧ shuffleDeck rnd (@nil A) = []
  ∧ (∀ x : A, shuffleDeck rnd [x] = [x]).
Proof.
  split_and!.
  - apply shuffleDeck_Permutation.
  - apply shuffleDeck_length.
  - intros x. by rewrite shuffleDeck_Permutation.
  - reflexivity.
  - reflexivity.
Qed.

Lemma fold_left_swap_ext {A} (f g : nat → nat) (l : list nat) (a : list A) :
  (∀ i, i ∈ l → f i = g i) →
  fold_left (λ shuffled i, swap i (f i mod (i + 1)) shuffled) l a
  = fold_left (λ shuffled i, swap i (g i mod (i + 1)) shuffled) l a.
Proof.
  revert a. induction l as [|i l IH]; intros a Hfg; [done|].
  simpl. rewrite (Hfg i) by constructor.
  apply IH. intros j Hj. apply Hfg. by constructor.
Qed.

(** One iteration of the loop of [shuffleDeck] can bring any card of the
    part still to be shuffled to its end. *)
Lemma swap_last {A} (p0 : list A) (y : A) (suf : list A) (j : nat) (x : A) :
  (p0 ++ [y]) !! j = Some x →
  ∃ pre', swap (length p0) j ((p0 ++ [y]) ++ suf) = (pre' ++ [x]) ++ suf
          ∧ length pre' = length p0
          ∧ pre' ++ [x] ≡ₚ p0 ++ [y].
Proof.
  intros Hj. unfold swap.
  assert (((p0 ++ [y]) ++ suf) !! length p0 = Some y) as Hi.
  { rewrite <- app_assoc. simpl. by apply list_lookup_middle. }
  assert (((p0 ++ [y]) ++ suf) !! j = Some x) as Hj'
    by (by apply lookup_app_l_Some).
  rewrite Hi, Hj'.
  destruct (decide (j = length p0)) as [->|Hne].
  - rewrite Hi in Hj'. injection Hj' as <-. exists p0.
    split; [|done]. rewrite !list_insert_id; try done.
    by rewrite list_insert_id.
  - assert (p0 !! j = Some x) as Hp0.
    { apply lookup_lt_Some in Hj as Hlt. rewrite length_app in Hlt.
      simpl in Hlt. rewrite lookup_app_l in Hj by lia. done. }
    exists (<[j := y]> p0). split; [|split].
    + rewrite <- !app_assoc. simpl.
      rewrite insert_app_r_alt, Nat.sub_diag by lia. simpl.
      rewrite insert_app_l by (by eapply lookup_lt_Some). done.
    + by rewrite length_insert.
    + rewrite (insert_Permutation _ _ _ _ Hp0).
      rewrite (delete_Permutation p0 j x Hp0) at 2. solve_Permutation.
Qed.

Lemma shuffle_steps_reach {A} (m : nat) :
  ∀ (pre suf target : list A),
    length pre = S m → pre ≡ₚ target →
    ∃ rnd,
      fold_left (λ shuffled i, swap i (rnd i mod (i + 1)) shuffled)
                (rev (seq 1 m)) (pre ++ suf)
      = target ++ suf.
Proof.
  induction m as [|m IH]; intros pre suf target Hlen Hperm.
  - exists (λ _, 0). simpl.
    destruct pre as [|x [|??]]; simplify_eq/=.
    apply Permutation_singleton_l in Hperm. by subst.
  - destruct pre as [|y p0 _] using rev_ind; [done|].
    destruct target as [|x t0 _] using rev_ind.
    { apply Permutation_nil_r in Hperm. by destruct p0. }
    rewrite length_app in Hlen. simpl in Hlen.
    assert (x ∈ p0 ++ [y]) as Hx.
    { rewrite Hperm, elem_of_app. right. constructor. }
    apply list_elem_of_lookup in Hx as [j Hj].
    destruct (swap_last p0 y suf j x Hj) as (pre' & Hswap & Hlen' & Hperm').
    destruct (IH pre' (x :: suf) t0) as [rnd' Hrnd'].
    { lia. }
    { apply (Permutation_app_inv_r [x]). by rewrite Hperm'. }
    exists (λ i, if decide (i = S m) then j else rnd' i).
    rewrite seq_S, rev_app_distr. cbn [rev app fold_left Nat.add].
    rewrite decide_True by done.
    assert (j < S m + 1) as Hjlt.
    { apply lookup_lt_Some in Hj. rewrite length_app in Hj. simpl in Hj. lia. }
    rewrite Nat.mod_small by done.
    replace (S m) with (length p0) at 1 by lia.
    rewrite Hswap, <- !app_assoc. cbn [app].
    rewrite <- Hrnd'. apply fold_left_swap_ext.
    intros i Hi. apply list_elem_of_In, in_rev, in_seq in Hi.
    rewrite decide_False by lia. done.
Qed.

(** X4. Every order of the deck can come out of [shuffleDeck]: for each
    rearrangement of the argument there are values of [Math.random] for
    which the loop produces it. *)
Theorem shuffleDeck_any_order {A} (deck target : list A) :
  deck ≡ₚ target → ∃ rnd, shuffleDeck rnd deck = target.
Proof.
  intros Hperm. unfold shuffleDeck.
  destruct deck as [|x deck].
  - apply Permutation_nil_l in Hperm. subst target.
    exists (λ _, 0). reflexivity.
  - destruct (shuffle_steps_reach (length deck) (x :: deck) [] target)
      as [rnd Hrnd]; [done..|].
    exists rnd. rewrite !app_nil_r in Hrnd. simpl. by rewrite Nat.sub_0_r.
Qed.

Lemma shuffleDeck_any_order_witness :
  [1; 2; 3] ≡ₚ [3; 1; 2] ∧ ∃ rnd, shuffleDeck rnd [1; 2; 3] = [3; 1; 2].
Proof.
  assert ([1; 2; 3] ≡ₚ [3; 1; 2]) as H.
  { change [3; 1; 2] with ([3] ++ [1; 2]).
    change [1; 2; 3] with ([1; 2] ++ [3]). apply Permutation_app_comm. }
  split; [exact H|exact (shuffleDeck_any_order _ _ H)].
Defined.

(** ** Clicks that change nothing *)

Lemma findIndex_none {A} (p : A → bool) (l : list A) :
  (∀ y, y ∈ l → p y = false) → findIndex p l = (-1)%Z.
Proof.
  induction l as [|x l IH]; intros Hl; [done|]. simpl.
  rewrite (Hl x) by constructor.
  rewrite IH by (intros; apply Hl; by constructor). done.
Qed.

(** X5. [handleCardClick] leaves the whole state as it is, selection
    included, when the click resolves no card (empty waste or foundation, or
    a column that holds no card with the [id] clicked) and when the card it
    resolves is face-down, be it the card of a column with the [id]
    clicked, the top card of the waste or the top card of a foundation; for
    a column that does not exist it raises. *)
Theorem handleCardClick_ignored (s : State) (cardId : string) (dbl : bool) :
  (waste s = [] → handleCardClick cardId Waste dbl s = Some s)
  ∧ (∀ k, fget k (foundations s) = [] →
          handleCardClick cardId (Foundation k) dbl s = Some s)
  ∧ (∀ i pile,
       tableau s !! i = Some pile →
       (∀ c, c ∈ pile → id (heap s c) ≠ cardId) →
       handleCardClick cardId (Tableau i) dbl s = Some s)
  ∧ (∀ i below c rest,
       tableau s !! i = Some (below ++ c :: rest) →
       (∀ b, b ∈ below → id (heap s b) ≠ cardId) →
       id (heap s c) = cardId → faceUp (heap s c) = false →
       handleCardClick cardId (Tableau i) dbl s = Some s)
  ∧ (∀ below c,
       waste s = below ++ [c] → faceUp (heap s c) = false →
       handleCardClick cardId Waste dbl s = Some s)
  ∧ (∀ k below c,
       fget k (foundations s) = below ++ [c] → faceUp (heap s c) = false →
       handleCardClick cardId (Foundation k) dbl s = Some s)
  ∧ (∀ i, tableau s !! i = None →
          handleCardClick cardId (Tableau i) dbl s = None).
Proof.
  unfold handleCardClick. split_and!.
  - intros ->. done.
  - intros k ->. done.
  - intros i pile -> Hids. simpl.
    rewrite findIndex_none; [done|].
    intros c Hc. apply bool_decide_eq_false_2. by apply Hids.
  - intros i below c rest -> Hbelow Hid Hdown. simpl.
    rewrite (findIndex_id (heap s) below c rest cardId Hid Hbelow).
    rewrite at_nonneg, list_lookup_middle by done. simpl.
    by rewrite Hdown.
  - intros below c -> Hdown. simpl. rewrite top_snoc. simpl.
    by rewrite Hdown.
  - intros k below c -> Hdown. simpl. rewrite top_snoc. simpl.
    by rewrite Hdown.
  - intros i ->. done.
Qed.

Lemma handleCardClick_ignored_witness :
  handleCardClick "K-spades" (Tableau 1) true flipBoard = Some flipBoard
  ∧ handleCardClick "2-hearts" (Tableau 1) true flipBoard = Some flipBoard
  ∧ handleCardClick "" Waste false flipBoard = Some flipBoard
  ∧ handleCardClick "" (Tableau 7) false flipBoard = None
  ∧ handleCardClick "A-hearts" (Foundation Kh) false aceBoard = Some aceBoard.
Proof.
  destruct (handleCardClick_ignored flipBoard "K-spades" true)
    as (_ & _ & H3 & _).
  destruct (handleCardClick_ignored flipBoard "2-hearts" true)
    as (_ & _ & _ & H4 & _).
  destruct (handleCardClick_ignored flipBoard "" false)
    as (H1 & _ & _ & _ & _ & _ & H6).
  destruct (handleCardClick_ignored aceBoard "A-hearts" false)
    as (_ & _ & _ & _ & _ & H7 & _).
  split; [|split; [|split; [|split]]].
  - apply (H3 1 [1; 2] eq_refl). intros c Hc.
    apply list_elem_of_In in Hc. simpl in Hc.
    destruct Hc as [<-|[<-|[]]]; vm_compute; discriminate.
  - apply (H4 1 [] 1 [2] eq_refl).
    + intros b Hb. by apply elem_of_nil in Hb.
    + reflexivity.
    + reflexivity.
  - exact (H1 eq_refl).
  - exact (H6 7 eq_refl).
  - exact (H7 Kh [] 0 eq_refl eq_refl).
Defined.

(** ** Automatic moves to a foundation *)

(** What a move to a foundation leaves alone. *)
Lemma moveCards_to_foundation (s : State) (cards : list ref) (source : Loc)
    (key : FKey) (s' : State) :
  moveCards cards source (Foundation key) s = Some s' →
  selectedCards s' = None
  ∧ stock s' = stock s
  ∧ (isFoundation source = false →
     fget key (foundations s') = fget key (foundations s) ++ cards
     ∧ ∀ k, k ≠ key → fget k (foundations s') = fget k (foundations s)).
Proof.
  intros Hm. split; [by eapply moveCards_selectedCards|].
  unfold moveCards in Hm.
  apply bind_Some in Hm as (s0 & Hs0 & Hm).
  injection Hm as <-.
  rewrite stock_checkWin, foundations_checkWin. simpl.
  assert (stock s0 = stock s
          ∧ (isFoundation source = false →
             foundations s0 = foundations s)) as [-> Hf].
  { destruct source as [|i|k].
    - by injection Hs0 as <-.
    - apply bind_Some in Hs0 as (pile & _ & Hs0).
      apply bind_Some in Hs0 as (startIdx & _ & Hs0).
      apply bind_Some in Hs0 as (h & _ & [= <-]). done.
    - by injection Hs0 as <-. }
  split; [done|]. intros Hsrc. rewrite (Hf Hsrc).
  split; [apply fget_fset|]. intros k Hk. by apply fget_fset_ne.
Qed.

(** A move of at least one card to a foundation returns, unless its source
    is a column that does not exist. *)
Lemma moveCards_to_foundation_returns (s : State) (c0 : ref)
    (rest : list ref) (source : Loc) (key : FKey) :
  match source with
  | Tableau i => is_Some (tableau s !! i)
  | _ => True
  end →
  is_Some (moveCards (c0 :: rest) source (Foundation key) s).
Proof.
  intros Hsrc. unfold moveCards. destruct source as [|i|k].
  - cbn [mbind option_bind]. eauto.
  - destruct Hsrc as [pile ->]. cbn [mbind option_bind].
    set (startIdx := match pile with
                     | [] => Some (-1)%Z
                     | _ :: _ => _
                     end).
    assert (is_Some startIdx) as [idx ->] by (subst startIdx; by destruct pile).
    cbn [mbind option_bind].
    case_bool_decide as Hlen.
    + destruct (top_is_Some _ Hlen) as [newTop ->].
      cbn [mbind option_bind]. eauto.
    + cbn [mbind option_bind]. eauto.
  - cbn [mbind option_bind]. eauto.
Qed.

(** X6. [autoMoveToFoundation] asks [canMoveToFoundation], which always
    answers, about the foundation of the card's own suit and no other.
    When it refuses, the call returns [false] and the state is as before:
    unlike [attemptMove], it keeps the selection.  When it accepts, the
    call returns [true] (it raises only for a source column that does not
    exist): the card has been pushed on that foundation, the other
    foundations and the stock are as before (for a source other than a
    foundation), and the selection is absent.  A call that returns has
    returned the answer of [canMoveToFoundation]. *)
Theorem autoMoveToFoundation_spec (s : State) (card : ref) (source : Loc) :
  let key := getSuitShort (suit (heap s card)) in
  (∃ ok, canMoveToFoundation s card key = Some ok)
  ∧ (canMoveToFoundation s card key = Some false →
     autoMoveToFoundation card source s = Some (false, s))
  ∧ (canMoveToFoundation s card key = Some true →
     match source with
     | Tableau i => is_Some (tableau s !! i)
     | _ => True
     end →
     ∃ s',
       autoMoveToFoundation card source s = Some (true, s')
       ∧ selectedCards s' = None
       ∧ stock s' = stock s
       ∧ (isFoundation source = false →
          fget key (foundations s') = fget key (foundations s) ++ [card]
          ∧ ∀ k, k ≠ key → fget k (foundations s') = fget k (foundations s)))
  ∧ (∀ moved s',
       autoMoveToFoundation card source s = Some (moved, s') →
       canMoveToFoundation s card key = Some moved
       ∧ (moved = false → s' = s)
       ∧ (moved = true →
          selectedCards s' = None
          ∧ stock s' = stock s
          ∧ (isFoundation source = false →
             fget key (foundations s') = fget key (foundations s) ++ [card]
             ∧ ∀ k, k ≠ key →
                    fget k (foundations s') = fget k (foundations s)))).
Proof.
  cbv zeta. split_and!.
  - apply canMoveToFoundation_total.
  - intros Hcan. unfold autoMoveToFoundation. by rewrite Hcan.
  - intros Hcan Hsrc.
    destruct (moveCards_to_foundation_returns s card [] source
                (getSuitShort (suit (heap s card))) Hsrc) as [s' Hm].
    exists s'. split.
    + unfold autoMoveToFoundation. rewrite Hcan. cbn [mbind option_bind].
      by rewrite Hm.
    + by apply (moveCards_to_foundation s [card] source).
  - intros moved s' H. unfold autoMoveToFoundation in H.
    apply bind_Some in H as (ok & Hcan & H).
    destruct ok.
    + apply bind_Some in H as (s1 & Hm & [= <- <-]).
      split; [done|]. split; [done|]. intros _.
      by apply (moveCards_to_foundation s [card] source).
    + injection H as <- <-. done.
Qed.

Lemma autoMoveToFoundation_spec_witness :
  autoMoveToFoundation 2 (Tableau 1) selectedBoard = Some (false, selectedBoard)
  ∧ ∃ s', autoMoveToFoundation 0 (Tableau 0) unshuffledBoard = Some (true, s')
          ∧ selectedCards s' = None
          ∧ fget Kh (foundations s') = [0]
          ∧ fget Ks (foundations s') = [].
Proof.
  split.
  - destruct (autoMoveToFoundation_spec selectedBoard 2 (Tableau 1))
      as (_ & Hrefused & _).
    apply Hrefused. reflexivity.
  - destruct (autoMoveToFoundation_spec unshuffledBoard 0 (Tableau 0))
      as (_ & _ & Haccepted & _).
    destruct (Haccepted eq_refl (mk_is_Some _ _ eq_refl))
      as (s' & H & Hsel & _ & Hf).
    destruct (Hf eq_refl) as [Hkey Hother].
    exists s'. split; [exact H|]. split; [exact Hsel|]. split; [exact Hkey|].
    exact (Hother Ks ltac:(discriminate)).
Defined.

(** ** The cycle of stock and waste *)

Lemma card_eta (c c' : Card) :
  sameIdentity c c' → faceUp c = faceUp c' → c = c'.
Proof.
  destruct c, c'. unfold sameIdentity. simpl.
  intros (-> & -> & -> & ->) ->. done.
Qed.

Lemma drawFromStock_order (s s' : State) :
  drawFromStock s = Some s' →
  stock s' ++ rev (waste s') = stock s ++ rev (waste s)
  ∧ foundations s' = foundations s ∧ tableau s' = tableau s
  ∧ alerts s' = alerts s ∧ selectedCards s' = None
  ∧ (∀ r, sameIdentity (heap s' r) (heap s r))
  ∧ (∀ r, r ∉ stock s → r ∉ waste s → heap s' r = heap s r).
Proof.
  unfold drawFromStock. simpl.
  case_bool_decide as Hst; [case_bool_decide as Hw|]; intros Hd.
  - injection Hd as <-. simpl.
    destruct (stock s); [|done]. rewrite app_nil_r. split_and!; try done.
    + intros r.
      apply (fold_setFaceUp_sameIdentity false (rev (waste s)) (heap s) r).
    + intros r _ Hr. apply fold_setFaceUp_notin. intros Hin. apply Hr.
      apply list_elem_of_In, in_rev. by apply list_elem_of_In.
  - injection Hd as <-. simpl. split_and!; try done.
  - apply bind_Some in Hd as (card & Hcard & [= <-]).
    rewrite top_last in Hcard. apply last_Some in Hcard as [base Hbase].
    simpl. rewrite Hbase, removelast_last, rev_app_distr, <- app_assoc.
    split_and!; try done.
    + intros r. apply setFaceUp_sameIdentity.
    + intros r Hr _. apply setFaceUp_other. intros ->. apply Hr.
      rewrite elem_of_app. right. constructor.
Qed.

(** X7. However often [drawFromStock] is called, the stock followed by the
    reversed waste stays the same sequence of cards: drawing and recycling
    never change the order in which these cards come round.  The calls
    leave foundations, tableau and win signals alone, and change no card
    outside stock and waste. *)
Theorem drawTimes_keeps_order (n : nat) (s s' : State) :
  drawTimes n s = Some s' →
  stock s' ++ rev (waste s') = stock s ++ rev (waste s)
  ∧ foundations s' = foundations s ∧ tableau s' = tableau s
  ∧ alerts s' = alerts s
  ∧ (∀ r, sameIdentity (heap s' r) (heap s r))
  ∧ (∀ r, r ∉ stock s → r ∉ waste s → heap s' r = heap s r).
Proof.
  revert s. induction n as [|n IH]; intros s; simpl.
  - intros [= <-]. by split_and!.
  - intros H. apply bind_Some in H as (s1 & Hd & Hn).
    destruct (drawFromStock_order _ _ Hd)
      as (Ho1 & Hf1 & Ht1 & Ha1 & _ & Hi1 & Hh1).
    destruct (IH _ Hn) as (Ho & Hf & Ht & Ha & Hi & Hh).
    split_and!; try congruence.
    + intros r. eapply sameIdentity_trans; [apply Hi|apply Hi1].
    + intros r Hr Hw. rewrite Hh; [by apply Hh1| |].
      * intros Hin. assert (r ∈ stock s1 ++ rev (waste s1)) as Hin'
          by (rewrite elem_of_app; by left).
        rewrite Ho1, elem_of_app in Hin'. destruct Hin' as [?|Hin']; [done|].
        apply Hw. apply list_elem_of_In, in_rev. by apply list_elem_of_In.
      * intros Hin. assert (r ∈ stock s1 ++ rev (waste s1)) as Hin'.
        { rewrite elem_of_app. right.
          apply list_elem_of_In. rewrite <- in_rev. by apply list_elem_of_In. }
        rewrite Ho1, elem_of_app in Hin'. destruct Hin' as [?|Hin']; [done|].
        apply Hw. apply list_elem_of_In, in_rev. by apply list_elem_of_In.
Qed.

Lemma drawTimes_total (n : nat) (s : State) : is_Some (drawTimes n s).
Proof.
  revert s. induction n as [|n IH]; intros s; simpl; [eauto|].
  destruct (drawFromStock_total s) as [s1 ->]. simpl. apply IH.
Qed.

Lemma drawTimes_keeps_order_witness :
  ∃ s', drawTimes 5 wasteBoard = Some s'
        ∧ stock s' ++ rev (waste s') = [9; 8; 7].
Proof.
  destruct (drawTimes_total 5 wasteBoard) as [s' H].
  exists s'. split; [exact H|].
  exact (proj1 (drawTimes_keeps_order 5 wasteBoard s' H)).
Defined.

Lemma drawTimes_snoc (n : nat) (s : State) :
  drawTimes (n + 1) s = (s1 ← drawTimes n s; drawFromStock s1).
Proof.
  revert s. induction n as [|n IH]; intros s; simpl.
  - by destruct (drawFromStock s).
  - destruct (drawFromStock s) as [s1|]; simpl; [apply IH|done].
Qed.

(** Drawing the cards [d] off the stock turns each of them face-up. *)
Lemma drawTimes_replay_heap (d : list ref) : ∀ s base,
  stock s = base ++ rev d →
  ∃ s', drawTimes (length d) s = Some s'
        ∧ waste s' = waste s ++ d ∧ stock s' = base
        ∧ heap s' = fold_left (λ h card, setFaceUp card true h) d (heap s).
Proof.
  induction d as [|x d IH]; intros s base Hst.
  - exists s. simpl in *. by rewrite !app_nil_r in *.
  - simpl in Hst. rewrite app_assoc in Hst.
    simpl. rewrite (drawFromStock_draw _ _ _ Hst). simpl.
    edestruct IH as (s' & -> & Hw & Hs & Hh); [by simpl|].
    exists s'. simpl in *. by rewrite Hw, <- app_assoc.
Qed.

(** X8. Calling [drawFromStock] once more than the stock has cards draws
    the whole stock and recycles it: the waste is empty again, the stock
    holds its former cards in their former order under the former waste
    reversed, all face-down.  Starting with an empty waste and a
    face-down stock, the board is then exactly what it was. *)
Theorem draw_full_cycle (s : State) :
  stock s ++ waste s ≠ [] →
  ∃ s', drawTimes (length (stock s) + 1) s = Some s'
    ∧ stock s' = stock s ++ rev (waste s)
    ∧ waste s' = []
    ∧ (∀ r, r ∈ stock s' → faceUp (heap s' r) = false)
    ∧ (waste s = [] → (∀ r, r ∈ stock s → faceUp (heap s r) = false) →
       stock s' = stock s ∧ ∀ r, heap s' r = heap s r).
Proof.
  intros Hne. rewrite drawTimes_snoc.
  destruct (drawTimes_replay_heap (rev (stock s)) s [])
    as (s1 & Hd & Hw1 & Hs1 & Hh1); [by rewrite rev_involutive|].
  rewrite length_rev in Hd. rewrite Hd. simpl.
  unfold drawFromStock. simpl. rewrite Hs1, Hw1. simpl.
  rewrite bool_decide_eq_true_2.
  2: { rewrite length_app, length_rev.
       destruct (stock s), (waste s); simpl in *; try lia. done. }
  eexists. split; [done|]. simpl.
  rewrite rev_app_distr, rev_involutive, Hh1.
  split; [done|]. split; [done|].
  assert (∀ r, r ∈ stock s ++ rev (waste s) →
            faceUp (fold_left (λ h card, setFaceUp card false h)
                      (stock s ++ rev (waste s))
                      (fold_left (λ h card, setFaceUp card true h)
                         (rev (stock s)) (heap s)) r) = false) as Hdown.
  { intros r Hr. by apply fold_setFaceUp_in. }
  split; [exact Hdown|].
  intros Hw Hst. rewrite Hw in *. simpl in *. rewrite app_nil_r in *.
  split; [done|].
  intros r. apply card_eta.
  - eapply sameIdentity_trans; apply fold_setFaceUp_sameIdentity.
  - destruct (decide (r ∈ stock s)) as [Hin|Hout].
    + rewrite (Hdown r Hin). symmetry. by apply Hst.
    + rewrite !fold_setFaceUp_notin; [done| |done].
      intros Hin. apply Hout.
      apply list_elem_of_In, in_rev. by apply list_elem_of_In.
Qed.

Lemma draw_full_cycle_witness :
  ∃ s', drawTimes 4 stockBoard = Some s'
        ∧ stock s' = [7; 8; 9] ∧ waste s' = []
        ∧ ∀ r, heap s' r = heap stockBoard r.
Proof.
  destruct (draw_full_cycle stockBoard) as (s' & Hd & _ & Hw & _ & Hback).
  - discriminate.
  - exists s'. split; [exact Hd|].
    destruct Hback as [Hs Hh].
    + reflexivity.
    + intros r Hr. apply deckHeap_faceUp.
    + split; [exact Hs|]. split; [exact Hw|exact Hh].
Defined.

(** ** What the entry points do *)

Lemma attemptMove_legal (s : State) (destination : Loc) (s' : State) :
  attemptMove destination s = Some (RetBool true, s') →
  ∃ cards source,
    selectedCards s = Some (mkSelection cards source)
    ∧ moveCards cards source destination s = Some s'
    ∧ match destination with
      | Tableau j => canMoveToTableau s cards j = Some true
      | Foundation k =>
          ∃ c, cards = [c] ∧ canMoveToFoundation s c k = Some true
      | Waste => False
      end.
Proof.
  unfold attemptMove.
  destruct (selectedCards s) as [[cards source]|]; [|done].
  intros Ha. exists cards, source. split; [done|].
  destruct destination as [|j|k]; [done|..].
  - apply bind_Some in Ha as ([] & Hcan & Ha); [|done].
    apply bind_Some in Ha as (s1 & Hm & [= <-]). done.
  - apply bind_Some in Ha as ([] & Hcan & Ha); [|done].
    apply bind_Some in Ha as (s1 & Hm & [= <-]). split; [done|].
    case_bool_decide as Hlen; [|done].
    destruct cards as [|c [|??]]; simplify_eq/=. by exists c.
Qed.

Lemma autoMoveToFoundation_moved (s : State) (card : ref) (source : Loc)
    (s' : State) :
  autoMoveToFoundation card source s = Some (true, s') →
  canMoveToFoundation s card (getSuitShort (suit (heap s card))) = Some true
  ∧ moveCards [card] source (Foundation (getSuitShort (suit (heap s card)))) s
    = Some s'.
Proof.
  unfold autoMoveToFoundation. intros H.
  apply bind_Some in H as ([] & Hcan & H); [|done].
  apply bind_Some in H as (s1 & Hm & [= <-]). done.
Qed.

(** The outcomes of a click on a card. *)
Lemma handleCardClick_cases (s : State) (cardId : string) (source : Loc)
    (dbl : bool) (s' : State) :
  handleCardClick cardId source dbl s = Some s' →
  s' = s
  ∨ (∃ card,
       faceUp (heap s card) = true ∧ onTop s [card] source
       ∧ isFoundation source = false
       ∧ autoMoveToFoundation card source s = Some (true, s')
       ∧ dbl = true)
  ∨ (∃ card rest,
       faceUp (heap s card) = true ∧ onTop s (card :: rest) source
       ∧ selectedCards s = None
       ∧ s' = selectCards (card :: rest) source s)
  ∨ (is_Some (selectedCards s) ∧ source ≠ Waste
     ∧ ∃ r, attemptMove source s = Some (r, s'))
  ∨ (is_Some (selectedCards s) ∧ source = Waste ∧ s' = deselect s).
Proof.
  intros H. unfold handleCardClick in H.
  apply bind_Some in H as ([[pile card] cardIndex] & Hres & H).
  destruct card as [card|]; [|injection H as <-; by left].
  destruct (faceUp (heap s card)) eqn:Hup; simpl in H;
    [|injection H as <-; by left].
  apply clicked_onTop in Hres as (rest & Hcards & Htop).
  apply bind_Some in H as ([moved s1] & Hauto & H).
  destruct moved.
  - injection H as <-. right. left. exists card.
    destruct (dbl && negb (isFoundation source)) eqn:Hdbl; [|done].
    case_bool_decide as Hlen; [|done].
    split; [done|]. split; [|split; [|split; [done|]]].
    + replace rest with (@nil nat) in Htop; [done|].
      destruct source; rewrite Hcards in Hlen; simpl in Hlen;
        destruct rest; simpl in *; by simplify_eq.
    + apply andb_true_iff in Hdbl as [_ Hf]. by apply negb_true_iff in Hf.
    + by apply andb_true_iff in Hdbl as [-> _].
  - assert (s1 = s) as ->.
    { destruct (dbl && negb (isFoundation source));
        [|by injection Hauto as <-].
      case_bool_decide; [|by injection Hauto as <-].
      unfold autoMoveToFoundation in Hauto.
      apply bind_Some in Hauto as ([] & _ & Hauto).
      - apply bind_Some in Hauto as (? & _ & ?). done.
      - by injection Hauto as <-. }
    do 2 right.
    destruct (selectedCards s) as [sel|] eqn:Hsel.
    + right. destruct source as [|i|k].
      * right. injection H as <-. eauto.
      * left. apply fmap_Some in H as ([r s2] & Ha & ->).
        split; [eauto|]. split; [done|]. by exists r.
      * left. apply fmap_Some in H as ([r s2] & Ha & ->).
        split; [eauto|]. split; [done|]. by exists r.
    + left. injection H as <-. exists card, rest.
      split; [done|]. split; [done|]. split; [done|].
      by destruct source; rewrite ?Hcards.
Qed.

(** On a board that satisfies the invariant, a call of an entry point
    leaves the state as it is or plays once. *)
Lemma step_play (s s' : State) :
  klondike s → step s s' → s' = s ∨ play s s'.
Proof.
  intros Hk Hstep.
  pose proof (kl_wellFormed s Hk) as Hwf.
  assert (∀ destination r s2,
            attemptMove destination s = Some (r, s2) →
            s2 = s ∨ play s s2) as Hattempt.
  { intros destination r s2 Ha.
    destruct (attemptMove_cases _ _ _ _ Ha)
      as [(_ & _ & ->)|[(_ & _ & ->)|(sel & Hsel & -> & _ & _)]].
    - by left.
    - right. constructor.
    - right. destruct (attemptMove_legal _ _ _ Ha)
        as (cards & source & Hsel' & Hm & Hlegal).
      pose proof (wf_selection s Hwf) as Htop.
      pose proof (kl_selection s Hk) as Hup.
      rewrite Hsel' in Htop, Hup. simpl in *.
      by apply (play_move s cards source destination). }
  destruct Hstep as [s s' Hd|cardId source dbl s s' Hc|slot s s' He
                     |destination r s s' Ha|s].
  - right. by constructor.
  - destruct (handleCardClick_cases _ _ _ _ _ Hc)
      as [->|[(card & Hup & Htop & Hsrc & Hauto & _)
             |[(card & rest & Hup & Htop & Hsel & ->)
              |[(_ & _ & r & Ha)|(_ & _ & ->)]]]].
    + by left.
    + right. destruct (autoMoveToFoundation_moved _ _ _ _ Hauto) as [Hcan Hm].
      apply (play_move s [card] source
               (Foundation (getSuitShort (suit (heap s card)))) s'); [|done].
      split; [done|]. split; [by intros c [= <-]|]. by exists card.
    + right. apply play_select; [done|]. by intros c [= <-].
    + by eapply Hattempt.
    + right. constructor.
  - unfold handleEmptySlotClick in He.
    destruct (selectedCards s); [|injection He as <-; by left].
    apply fmap_Some in He as ([r s2] & Ha & ->). by eapply Hattempt.
  - by eapply Hattempt.
  - right. constructor.
Qed.

(** ** Chains and columns *)

Lemma stacks_ext (h h' : Heap) (a b : ref) :
  sameIdentity (h' a) (h a) → sameIdentity (h' b) (h b) →
  stacks h a b → stacks h' a b.
Proof.
  unfold stacks. intros (_ & -> & -> & _) (_ & -> & -> & _). done.
Qed.

Lemma chain_ext (h h' : Heap) (run : list ref) :
  (∀ r, sameIdentity (h' r) (h r)) → chain h run → chain h' run.
Proof.
  intros Hid. induction run as [|a [|b run] IH]; simpl; [done..|].
  intros [Hs Hc]. split; [by eapply stacks_ext|by apply IH].
Qed.

Lemma chain_app (h : Heap) (l1 l2 : list ref) :
  chain h (l1 ++ l2)
  ↔ chain h l1 ∧ chain h l2
    ∧ (∀ a b, last l1 = Some a → head l2 = Some b → stacks h a b).
Proof.
  induction l1 as [|a [|b l1] IH].
  - simpl. split; [|by intros (_ & ? & _)].
    intros H. split; [done|]. split; [done|]. by intros a b [=].
  - destruct l2 as [|b l2]; simpl.
    + split; [|done]. intros _. split; [done|]. split; [done|].
      by intros ?? _ [=].
    + split.
      * intros [Hs Hc]. split; [done|]. split; [done|].
        by intros ?? [= <-] [= <-].
      * intros (_ & Hc & Hs). split; [|done]. by apply Hs.
  - change ((a :: b :: l1) ++ l2) with (a :: (b :: l1) ++ l2).
    change (chain h (a :: (b :: l1) ++ l2))
      with (stacks h a b ∧ chain h ((b :: l1) ++ l2)).
    change (chain h (a :: b :: l1)) with (stacks h a b ∧ chain h (b :: l1)).
    change (last (a :: b :: l1)) with (last (b :: l1)).
    rewrite IH. tauto.
Qed.

(** Along a chain the rank falls by one from card to card. *)
Lemma chain_rank (h : Heap) (run : list ref) : ∀ c0 t,
  chain h (c0 :: run) → last (c0 :: run) = Some t →
  getValueIndex (value (h t))
  = (getValueIndex (value (h c0)) - Z.of_nat (length run))%Z.
Proof.
  induction run as [|b run IH]; intros c0 t Hc Hlast.
  - simpl in *. injection Hlast as <-. lia.
  - destruct Hc as [[_ Hr] Hc].
    change (last (c0 :: b :: run)) with (last (b :: run)) in Hlast.
    rewrite (IH b t Hc Hlast), Hr. simpl length. lia.
Qed.

(** A card cannot be put on the last card of the run it leads. *)
Lemma chain_not_on_itself (h : Heap) (c0 t : ref) (rest : list ref) :
  chain h (c0 :: rest) → last (c0 :: rest) = Some t → ¬ stacks h t c0.
Proof.
  intros Hc Hlast [Hcol Hrank].
  pose proof (chain_rank h rest c0 t Hc Hlast) as Ht.
  destruct rest as [|b rest].
  - simpl in Hlast. injection Hlast as <-. done.
  - simpl length in Ht. lia.
Qed.

Lemma columnOK_ext (h h' : Heap) (pile : list ref) :
  (∀ r, sameIdentity (h' r) (h r)) →
  (∀ r, r ∈ pile → faceUp (h' r) = faceUp (h r)) →
  columnOK h pile → columnOK h' pile.
Proof.
  intros Hid Hup (down & up & -> & Hd & Hu & Hc & Hne).
  exists down, up. split; [done|]. split_and!; try done.
  - intros r Hr. rewrite Hup; [by apply Hd|]. rewrite elem_of_app. by left.
  - intros r Hr. rewrite Hup; [by apply Hu|]. rewrite elem_of_app. by right.
  - by eapply chain_ext.
Qed.

(** A run of face-up cards on an empty column. *)
Lemma columnOK_run (h : Heap) (c0 : ref) (rest : list ref) :
  (∀ r, r ∈ c0 :: rest → faceUp (h r) = true) → chain h (c0 :: rest) →
  columnOK h (c0 :: rest).
Proof.
  intros Hu Hc. exists [], (c0 :: rest). split; [done|].
  split; [by intros r Hr%elem_of_nil|]. by split_and!.
Qed.

(** A run put on the top card of a column. *)
Lemma columnOK_add (h : Heap) (pile : list ref) (t c0 : ref)
    (rest : list ref) :
  columnOK h pile → last pile = Some t → stacks h t c0 →
  (∀ r, r ∈ c0 :: rest → faceUp (h r) = true) → chain h (c0 :: rest) →
  columnOK h (pile ++ c0 :: rest).
Proof.
  intros (down & up & -> & Hd & Hu & Hc & Hne) Hlast Hs Hrun Hcrun.
  assert (up ≠ []) as Hup.
  { apply Hne. intros Hnil. by rewrite Hnil in Hlast. }
  assert (last up = Some t) as Hlast'.
  { destruct up as [|u up _] using rev_ind; [done|].
    rewrite app_assoc, last_snoc in Hlast. by rewrite last_snoc. }
  exists down, (up ++ c0 :: rest). split; [by rewrite app_assoc|].
  split; [done|]. split_and!.
  - intros r [Hr|Hr]%elem_of_app; [by apply Hu|by apply Hrun].
  - apply chain_app. split; [done|]. split; [done|].
    intros a b Ha [= <-]. rewrite Hlast' in Ha. by injection Ha as <-.
  - intros _. by destruct up.
Qed.

(** The heap after the auto-flip of [moveCards]. *)
Lemma flip_cases (h : Heap) (below : list ref) :
  let h' := match last below with
            | Some newTop =>
                if faceUp (h newTop) then h else setFaceUp newTop true h
            | None => h
            end in
  (∀ r, sameIdentity (h' r) (h r))
  ∧ (∀ r, faceUp (h r) = true → faceUp (h' r) = true)
  ∧ (∀ r, last below ≠ Some r → h' r = h r)
  ∧ (∀ r, last below = Some r → faceUp (h' r) = true).
Proof.
  cbv zeta. destruct (last below) as [newTop|]; [|by split_and!].
  destruct (faceUp (h newTop)) eqn:Hup.
  { split_and!; try done. by intros r [= <-]. }
  split_and!.
  - intros r. apply setFaceUp_sameIdentity.
  - intros r Hr. unfold setFaceUp. case_bool_decide; [done|done].
  - intros r Hr. apply setFaceUp_other. by intros ->.
  - intros r [= <-]. apply setFaceUp_same.
Qed.

(** A run taken off a column, from a face-up card on: the run is a chain of
    face-up cards, and after the auto-flip what is left is a column. *)
Lemma columnOK_remove (h : Heap) (below : list ref) (c0 : ref)
    (rest : list ref) :
  columnOK h (below ++ c0 :: rest) → faceUp (h c0) = true →
  NoDup (below ++ c0 :: rest) →
  let h' := match last below with
            | Some newTop =>
                if faceUp (h newTop) then h else setFaceUp newTop true h
            | None => h
            end in
  columnOK h' below
  ∧ (∀ r, r ∈ c0 :: rest → faceUp (h r) = true)
  ∧ chain h (c0 :: rest).
Proof.
  intros (down & up & Hpile & Hd & Hu & Hc & _) Hup0 Hnd h'.
  destruct (flip_cases h below) as (Hid & Hmono & Hframe & Hflip).
  fold h' in Hid, Hmono, Hframe, Hflip.
  assert (∃ up1, below = down ++ up1 ∧ up = up1 ++ c0 :: rest)
    as (up1 & -> & ->).
  { apply app_eq_app in Hpile as [l [[-> ->]|[-> Hl]]].
    - by exists l.
    - destruct l as [|x l].
      + exists []. simpl in Hl. by rewrite !app_nil_r.
      + injection Hl as <- _. exfalso.
        rewrite (Hd c0) in Hup0; [done|].
        rewrite elem_of_app. right. constructor. }
  apply chain_app in Hc as (Hc1 & Hcrun & _).
  split; [|split; [|done]].
  2: { intros r Hr. apply Hu. rewrite elem_of_app. by right. }
  destruct up1 as [|u up1 _] using rev_ind.
  - rewrite app_nil_r in *.
    destruct down as [|t down _] using rev_ind.
    + exists [], []. split; [done|].
      split; [by intros r Hr%elem_of_nil|].
      split; [by intros r Hr%elem_of_nil|]. done.
    + exists down, [t]. split; [done|].
      apply NoDup_app in Hnd as (Hnd & _ & _).
      apply NoDup_app in Hnd as (_ & Hfresh & _).
      split_and!; try done.
      * intros r Hr. rewrite Hframe.
        -- apply Hd. rewrite elem_of_app. by left.
        -- rewrite last_snoc. intros [= ->]. apply (Hfresh r Hr). constructor.
      * intros r Hr%list_elem_of_singleton. subst r.
        apply Hflip. by rewrite last_snoc.
  - assert (faceUp (h u) = true) as Hur.
    { apply Hu. rewrite !elem_of_app. left. right. constructor. }
    assert (h' = h) as ->.
    { unfold h'. by rewrite app_assoc, last_snoc, Hur. }
    exists down, (up1 ++ [u]). split; [done|]. split_and!; try done.
    + intros r Hr. apply Hu. rewrite elem_of_app. by left.
    + intros _. by destruct up1.
Qed.

(** ** What the validators accept *)

Lemma canMoveToTableau_true (s : State) (c0 : ref) (rest : list ref)
    (j : nat) :
  canMoveToTableau s (c0 :: rest) j = Some true →
  ∃ pile,
    tableau s !! j = Some pile
    ∧ (pile = [] ∧ value (heap s c0) = VK
       ∨ ∃ t, last pile = Some t ∧ faceUp (heap s t) = true
              ∧ stacks (heap s) t c0).
Proof.
  unfold canMoveToTableau. intros H.
  apply bind_Some in H as (pile & Hj & H). exists pile. split; [done|].
  case_bool_decide as Hlen.
  - left. simpl in H. injection H as H.
    apply bool_decide_eq_true_1 in H. by destruct pile.
  - right. apply bind_Some in H as (t & Ht & H). rewrite top_last in Ht.
    exists t. split; [done|].
    destruct (faceUp (heap s t)); simpl in H; [|done].
    case_bool_decide as Hcol; [done|]. injection H as H.
    apply bool_decide_eq_true_1 in H. done.
Qed.

Lemma canMoveToFoundation_true (s : State) (c : ref) (k : FKey) :
  canMoveToFoundation s c k = Some true →
  getSuitShort (suit (heap s c)) = k
  ∧ (fget k (foundations s) = [] ∧ getValueIndex (value (heap s c)) = 0%Z
     ∨ ∃ t, last (fget k (foundations s)) = Some t
            ∧ getValueIndex (value (heap s c))
              = (getValueIndex (value (heap s t)) + 1)%Z).
Proof.
  unfold canMoveToFoundation. case_bool_decide as Hsuit; simpl; [|done].
  intros H. split; [done|]. case_bool_decide as Hlen.
  - left. injection H as H. apply bool_decide_eq_true_1 in H.
    rewrite H. by destruct (fget k (foundations s)).
  - right. apply bind_Some in H as (t & Ht & [= H]).
    rewrite top_last in Ht. apply bool_decide_eq_true_1 in H. eauto.
Qed.

(** ** The piles share no card *)

Lemma concat_columns_disjoint {A} (t : list (list A)) (i j : nat)
    (p q : list A) (x : A) :
  NoDup (concat t) → t !! i = Some p → t !! j = Some q → i ≠ j →
  x ∈ p → x ∉ q.
Proof.
  revert i j. induction t as [|c t IH]; intros [|i] [|j] Hnd Hi Hj Hne Hp Hq;
    simplify_eq/=; apply NoDup_app in Hnd as (_ & Hfresh & Hnd).
  - apply (Hfresh x Hp). by eapply concat_lookup_elem_of.
  - apply (Hfresh x Hq). by eapply concat_lookup_elem_of.
  - apply (IH i j); try done. congruence.
Qed.

Section disjoint.
Context (s : State) (Hwf : wellFormed s).

Lemma wf_stock_NoDup : NoDup (stock s).
Proof.
  pose proof (wf_NoDup s Hwf) as Hnd. unfold allCards in Hnd.
  by apply NoDup_app in Hnd as (? & _ & _).
Qed.

Lemma wf_stock_tableau (r : ref) (i : nat) (pile : list ref) :
  r ∈ stock s → tableau s !! i = Some pile → r ∉ pile.
Proof.
  intros Hr Hi Hp. pose proof (wf_NoDup s Hwf) as Hnd. unfold allCards in Hnd.
  apply NoDup_app in Hnd as (_ & Hfresh & _). apply (Hfresh r Hr).
  rewrite !elem_of_app. do 2 right. by eapply concat_lookup_elem_of.
Qed.

Lemma wf_waste_tableau (r : ref) (i : nat) (pile : list ref) :
  r ∈ waste s → tableau s !! i = Some pile → r ∉ pile.
Proof.
  intros Hr Hi Hp. pose proof (wf_NoDup s Hwf) as Hnd. unfold allCards in Hnd.
  apply NoDup_app in Hnd as (_ & _ & Hnd).
  apply NoDup_app in Hnd as (_ & Hfresh & _). apply (Hfresh r Hr).
  rewrite !elem_of_app. right. by eapply concat_lookup_elem_of.
Qed.

Lemma elem_of_foundationCards (f : Foundations) (k : FKey) (r : ref) :
  r ∈ fget k f → r ∈ foundationCards f.
Proof.
  unfold foundationCards. rewrite !elem_of_app. destruct k; simpl; eauto.
Qed.

Lemma wf_waste_foundations (r : ref) (k : FKey) :
  r ∈ waste s → r ∉ fget k (foundations s).
Proof.
  intros Hr Hk. pose proof (wf_NoDup s Hwf) as Hnd. unfold allCards in Hnd.
  apply NoDup_app in Hnd as (_ & _ & Hnd).
  apply NoDup_app in Hnd as (_ & Hfresh & _). apply (Hfresh r Hr).
  rewrite !elem_of_app. left. by eapply elem_of_foundationCards.
Qed.

Lemma wf_columns_disjoint (i j : nat) (p q : list ref) (r : ref) :
  tableau s !! i = Some p → tableau s !! j = Some q → i ≠ j →
  r ∈ p → r ∉ q.
Proof.
  apply concat_columns_disjoint.
  pose proof (wf_NoDup s Hwf) as Hnd. unfold allCards in Hnd.
  apply NoDup_app in Hnd as (_ & _ & Hnd).
  apply NoDup_app in Hnd as (_ & _ & Hnd).
  by apply NoDup_app in Hnd as (_ & _ & Hnd).
Qed.
End disjoint.

(** ** The rules are kept *)

Lemma tidy_ext (s s' : State) :
  stock s' = stock s → waste s' = waste s →
  foundations s' = foundations s → tableau s' = tableau s →
  heap s' = heap s → tidy s → tidy s'.
Proof.
  intros Hst Hw Hf Ht Hh [H1 H2 H3 H4 H5].
  split; rewrite ?Hst, ?Hw, ?Hf, ?Ht, ?Hh; done.
Qed.

Lemma drawFromStock_tidy (s s' : State) :
  wellFormed s → tidy s → drawFromStock s = Some s' → tidy s'.
Proof.
  intros Hwf [Hst Hw Hfu Hf Ht]. unfold drawFromStock. simpl.
  case_bool_decide as Hlen; [case_bool_decide as Hwl|]; intros Hd.
  - injection Hd as <-.
    assert (∀ r, r ∉ waste s →
              fold_left (λ h card, setFaceUp card false h)
                        (rev (waste s)) (heap s) r = heap s r) as Hframe.
    { intros r Hr. apply fold_setFaceUp_notin. intros Hin. apply Hr.
      apply list_elem_of_In, in_rev. by apply list_elem_of_In. }
    split; simpl.
    + intros r Hr. by apply fold_setFaceUp_in.
    + by intros r Hr%elem_of_nil.
    + intros k r Hr. rewrite Hframe; [by eapply Hfu|].
      intros Hin. by apply (wf_waste_foundations s Hwf r k).
    + intros k i r Hr.
      destruct (fold_setFaceUp_sameIdentity false (rev (waste s)) (heap s) r)
        as (-> & -> & _). by apply Hf.
    + intros i pile Hi. apply columnOK_ext with (heap s); [| |by eapply Ht].
      * intros r. apply fold_setFaceUp_sameIdentity.
      * intros r Hr. rewrite Hframe; [done|].
        intros Hin. by apply (wf_waste_tableau s Hwf r i pile).
  - injection Hd as <-. by split.
  - apply bind_Some in Hd as (card & Hcard & [= <-]).
    rewrite top_last in Hcard. apply last_Some in Hcard as [base Hbase].
    pose proof (wf_stock_NoDup s Hwf) as Hnd. rewrite Hbase in Hnd.
    apply NoDup_app in Hnd as (_ & Hfresh & _).
    assert (∀ r, faceUp (heap s r) = true →
              faceUp (setFaceUp card true (heap s) r) = true) as Hmono.
    { intros r Hr. unfold setFaceUp. by case_bool_decide. }
    split; simpl.
    + rewrite Hbase, removelast_last. intros r Hr.
      rewrite setFaceUp_other.
      * apply Hst. rewrite Hbase, elem_of_app. by left.
      * intros ->. apply (Hfresh card Hr). constructor.
    + intros r [Hr|Hr%list_elem_of_singleton]%elem_of_app.
      * by apply Hmono, Hw.
      * subst r. apply setFaceUp_same.
    + intros k r Hr. by eapply Hmono, Hfu.
    + intros k i r Hr.
      destruct (setFaceUp_sameIdentity card true (heap s) r)
        as (-> & -> & _). by apply Hf.
    + intros i pile Hi. apply columnOK_ext with (heap s); [| |by eapply Ht].
      * intros r. apply setFaceUp_sameIdentity.
      * intros r Hr. rewrite setFaceUp_other; [done|]. intros ->.
        apply (wf_stock_tableau s Hwf card i pile); [|done..].
        rewrite Hbase, elem_of_app. right. constructor.
Qed.

(** The board between the two halves of [moveCards]: the cards are off
    their source, the card they uncover in a column is face-up, and the
    piles are tidy. *)
Lemma moveCards_source (s : State) (cards : list ref) (source : Loc) :
  wellFormed s → tidy s → onTop s cards source →
  (∀ c, cards !! 0 = Some c → faceUp (heap s c) = true) →
  ∃ s1,
    (∀ destination,
       moveCards cards source destination s
       = (s2 ← addToDestination cards destination s1;
          Some (checkWin (deselect s2))))
    ∧ tidy s1
    ∧ (∀ r, r ∈ cards → faceUp (heap s1 r) = true)
    ∧ chain (heap s1) cards
    ∧ (∀ r, sameIdentity (heap s1 r) (heap s r))
    ∧ stock s1 = stock s
    ∧ pileAt source s = pileAt source s1 ++ cards
    ∧ (source ≠ Waste → waste s1 = waste s)
    ∧ (∀ j, Tableau j ≠ source → tableau s1 !! j = tableau s !! j)
    ∧ (∀ k, Foundation k ≠ source →
            fget k (foundations s1) = fget k (foundations s))
    ∧ (∀ j, source = Tableau j → is_Some (tableau s1 !! j)).
Proof.
  intros Hwf [Hst Hw Hfu Hf Ht] Htop Hup.
  destruct source as [|i|k]; simpl in Htop.
  - destruct Htop as (below & c & Hwaste & ->).
    exists (with_waste below s). split_and!; simpl; try done.
    + intros destination. unfold moveCards. simpl.
      by rewrite Hwaste, removelast_last.
    + split; simpl; try done.
      intros r Hr. apply Hw. rewrite Hwaste, elem_of_app. by left.
    + intros r Hr%list_elem_of_singleton. subst r. by apply Hup.
  - destruct Htop as (below & c0 & rest & Hi & ->).
    pose proof (wf_column_NoDup s Hwf _ _ Hi) as Hnd.
    destruct (columnOK_remove (heap s) below c0 rest)
      as (Hbelow & Hrun & Hchain); [by eapply Ht|by apply Hup|done|].
    destruct (flip_cases (heap s) below) as (Hid & Hmono & Hframe & _).
    set (h' := match last below with
               | Some newTop =>
                   if faceUp (heap s newTop) then heap s
                   else setFaceUp newTop true (heap s)
               | None => heap s
               end) in *.
    assert (∀ r, last below = Some r → r ∈ below ++ c0 :: rest) as Hlast.
    { intros r Hr. apply last_Some in Hr as [l ->].
      rewrite !elem_of_app. left. right. constructor. }
    exists (with_heap h' (with_tableau (<[i := below]> (tableau s)) s)).
    split_and!; simpl; try done.
    + intros destination.
      by rewrite (moveCards_tableau_source _ _ _ _ _ _ Hi
                    (wf_column_ids s Hwf _ _ _ _ Hi)).
    + split; simpl.
      * intros r Hr. rewrite Hframe; [by apply Hst|].
        intros Hl. by apply (wf_stock_tableau s Hwf r i _ Hr Hi), Hlast.
      * intros r Hr. by apply Hmono, Hw.
      * intros k r Hr. by eapply Hmono, Hfu.
      * intros k j r Hr. destruct (Hid r) as (-> & -> & _). by apply Hf.
      * intros j pile Hj.
        destruct (decide (j = i)) as [->|Hne].
        -- rewrite list_lookup_insert_eq in Hj by (by eapply lookup_lt_Some).
           by injection Hj as <-.
        -- rewrite list_lookup_insert_ne in Hj by done.
           apply columnOK_ext with (heap s); [done| |by eapply Ht].
           intros r Hr. rewrite Hframe; [done|]. intros Hl.
           by apply (wf_columns_disjoint s Hwf j i pile _ r Hj Hi Hne Hr),
             Hlast.
    + intros r Hr. by apply Hmono, Hrun.
    + by apply (chain_ext (heap s) h' (c0 :: rest)).
    + rewrite Hi. simpl.
      by rewrite list_lookup_insert_eq by (by eapply lookup_lt_Some).
    + intros j Hj. rewrite list_lookup_insert_ne; [done|]. congruence.
    + intros j [= <-].
      rewrite list_lookup_insert_eq by (by eapply lookup_lt_Some). eauto.
  - destruct Htop as (below & c & Hk & ->).
    exists (with_foundations (fset k below (foundations s)) s).
    split_and!; simpl; try done.
    + intros destination. unfold moveCards. simpl.
      by rewrite Hk, removelast_last.
    + split; simpl; try done.
      * intros k' r Hr. destruct (decide (k = k')) as [<-|Hne].
        -- rewrite fget_fset in Hr. apply (Hfu k).
           rewrite Hk, elem_of_app. by left.
        -- rewrite fget_fset_ne in Hr by done. by eapply Hfu.
      * intros k' i r Hr. destruct (decide (k = k')) as [<-|Hne].
        -- rewrite fget_fset in Hr. apply Hf.
           rewrite Hk. by apply lookup_app_l_Some.
        -- rewrite fget_fset_ne in Hr by done. by apply Hf.
    + intros r Hr%list_elem_of_singleton. subst r. by apply Hup.
    + by rewrite fget_fset.
    + intros k' Hk'. apply fget_fset_ne. congruence.
Qed.

Lemma tidy_checkWin (s : State) : tidy s → tidy (checkWin s).
Proof.
  apply tidy_ext;
    auto using stock_checkWin, waste_checkWin, foundations_checkWin,
      tableau_checkWin, heap_checkWin.
Qed.

(** Pushing a chain of face-up cards on a pile that takes them keeps the
    piles tidy. *)
Lemma addToDestination_tidy (s1 : State) (c0 : ref) (rest : list ref)
    (destination : Loc) (s2 : State) :
  tidy s1 →
  (∀ r, r ∈ c0 :: rest → faceUp (heap s1 r) = true) →
  chain (heap s1) (c0 :: rest) →
  match destination with
  | Tableau j =>
      ∀ pile, tableau s1 !! j = Some pile →
              pile = [] ∨ ∃ t, last pile = Some t ∧ stacks (heap s1) t c0
  | Foundation k =>
      rest = []
      ∧ getSuitShort (suit (heap s1 c0)) = k
      ∧ getValueIndex (value (heap s1 c0))
        = Z.of_nat (length (fget k (foundations s1)))
  | Waste => False
  end →
  addToDestination (c0 :: rest) destination s1 = Some s2 →
  tidy (checkWin (deselect s2)).
Proof.
  intros [Hst Hw Hfu Hf Ht] Hup Hchain Haccept Hadd.
  apply tidy_checkWin. destruct destination as [|j|k]; [done|..].
  - simpl in Hadd. apply bind_Some in Hadd as (pile & Hj & [= <-]).
    split; simpl; try done.
    intros i col Hi. destruct (decide (i = j)) as [->|Hne].
    + rewrite list_lookup_insert_eq in Hi by (by eapply lookup_lt_Some).
      injection Hi as <-.
      destruct (Haccept pile Hj) as [->|(t & Hlast & Hstacks)].
      * by apply columnOK_run.
      * apply columnOK_add with t; try done. by eapply Ht.
    + rewrite list_lookup_insert_ne in Hi by done. by eapply Ht.
  - simpl in Hadd. injection Hadd as <-.
    destruct Haccept as (-> & Hsuit & Hrank).
    split; simpl; try done.
    + intros k' r Hr. destruct (decide (k = k')) as [<-|Hne].
      * rewrite fget_fset in Hr.
        apply elem_of_app in Hr as [Hr|Hr]; [by eapply Hfu|by apply Hup].
      * rewrite fget_fset_ne in Hr by done. by eapply Hfu.
    + intros k' i r Hr. destruct (decide (k = k')) as [<-|Hne].
      * rewrite fget_fset in Hr.
        apply lookup_app_Some in Hr as [Hr|[Hlen Hr]]; [by apply Hf|].
        apply list_lookup_singleton_Some in Hr as [Hi <-].
        split; [done|]. rewrite Hrank. lia.
      * rewrite fget_fset_ne in Hr by done. by apply Hf.
Qed.

Lemma last_app_cons_r {A} (l : list A) (x : A) (l' : list A) :
  last (l ++ x :: l') = last (x :: l').
Proof.
  rewrite last_app. by destruct (last (x :: l')) eqn:E;
    [|destruct l' using rev_ind;
      [|rewrite app_comm_cons, last_snoc in E]].
Qed.

(** A legal move keeps the piles tidy. *)
Lemma moveCards_tidy (s : State) (cards : list ref)
    (source destination : Loc) (s' : State) :
  wellFormed s → tidy s → legalMove s cards source destination →
  moveCards cards source destination s = Some s' → tidy s'.
Proof.
  intros Hwf Htidy (Htop & Hup & Hlegal) Hm.
  destruct (moveCards_source s cards source Hwf Htidy Htop Hup)
    as (s1 & Heq & Htidy1 & Hup1 & Hchain1 & Hid & _ & Hsrc & _ & Hcols
        & Hfs & _).
  rewrite Heq in Hm. apply bind_Some in Hm as (s2 & Hadd & [= <-]).
  destruct (onTop_cons _ _ _ Htop) as (c0 & rest & ->).
  apply (addToDestination_tidy s1 c0 rest destination s2); try done.
  destruct destination as [|j|k]; [done|..].
  - destruct (canMoveToTableau_true _ _ _ _ Hlegal) as (pile & Hj & Hacc).
    intros pile1 Hj1.
    destruct (decide (Tableau j = source)) as [<-|Hne].
    + exfalso. simpl in Hsrc. rewrite Hj, Hj1 in Hsrc. simpl in Hsrc.
      destruct Hacc as [[-> _]|(t & Hlast & _ & Hstacks)];
        [by destruct pile1|].
      rewrite Hsrc, last_app_cons_r in Hlast.
      apply (chain_not_on_itself (heap s1) c0 t rest Hchain1 Hlast).
      by eapply stacks_ext.
    + rewrite (Hcols j Hne), Hj in Hj1. injection Hj1 as <-.
      destruct Hacc as [[-> _]|(t & Hlast & _ & Hstacks)]; [by left|].
      right. exists t. split; [done|]. by eapply stacks_ext.
  - destruct Hlegal as (c & Hc & Hcan). injection Hc as <- ->.
    destruct (canMoveToFoundation_true _ _ _ Hcan) as [Hsuit Hrank].
    split; [done|].
    destruct (Hid c0) as (Hs0 & Hv0 & _). rewrite Hs0, Hv0.
    split; [done|].
    destruct (decide (Foundation k = source)) as [<-|Hne].
    + exfalso. simpl in Hsrc.
      destruct Hrank as [[Hnil _]|(t & Hlast & Hr)].
      * rewrite Hnil in Hsrc. by destruct (fget k (foundations s1)).
      * rewrite Hsrc, last_snoc in Hlast. injection Hlast as <-. lia.
    + rewrite (Hfs k Hne).
      destruct Hrank as [[-> Hr]|(t & Hlast & Hr)]; [done|].
      rewrite last_lookup in Hlast.
      destruct (td_foundations s Htidy k _ _ Hlast) as [_ Ht].
      rewrite Hr, Ht.
      apply lookup_lt_Some in Hlast. lia.
Qed.

Lemma play_klondike (s s' : State) : klondike s → play s s' → klondike s'.
Proof.
  intros [Hwf Htidy Hsel] Hplay.
  destruct Hplay as [|cards source Htop Hup|s' Hd
                     |cards source destination s' Hlegal Hm].
  - split; [by apply deselect_wellFormed|by apply (tidy_ext s)|done].
  - split; [by apply selectCards_wellFormed|by apply (tidy_ext s)|done].
  - split; [by eapply drawFromStock_wellFormed|by eapply drawFromStock_tidy|].
    by rewrite (proj1 (proj2 (proj2 (proj2 (proj2
                  (drawFromStock_order _ _ Hd)))))).
  - split.
    + destruct Hlegal as (Htop & _ & Hdest).
      apply (moveCards_wellFormed s cards source destination); try done.
      intros ->. done.
    + by eapply moveCards_tidy.
    + by rewrite (moveCards_selectedCards _ _ _ _ _ Hm).
Qed.

Lemma step_klondike (s s' : State) : klondike s → step s s' → klondike s'.
Proof.
  intros Hk Hstep. destruct (step_play s s' Hk Hstep) as [->|Hplay]; [done|].
  by eapply play_klondike.
Qed.

(** The faces of the cards after the deal. *)
Lemma dealt_column_faceUp (deck : list ref) (h : Heap) (i k : nat)
    (pile : list ref) (r : ref) :
  NoDup deck →
  tableau (dealt deck h) !! i = Some pile → pile !! k = Some r →
  faceUp (heap (dealt deck h) r) = bool_decide (k = i).
Proof.
  intros Hnd Hpile Hr. unfold dealt in *.
  cbn [heap stock waste foundations tableau selectedCards] in *.
  rewrite list_lookup_fmap in Hpile.
  destruct (seq 0 7 !! i) as [i'|] eqn:Hi; [|done].
  apply lookup_seq in Hi as [-> Hi]. simpl in Hpile.
  injection Hpile as <-.
  apply applyWrites_in.
  - rewrite dealWrites_fst. rewrite <- (take_drop 28 deck) in Hnd.
    by apply NoDup_app in Hnd as (? & _ & _).
  - apply list_elem_of_bind. exists i. split.
    + by apply columnWrites_lookup.
    + apply list_elem_of_lookup. exists i. by apply lookup_seq_lt.
Qed.

Lemma dealt_klondike (deck : list ref) :
  deck ≡ₚ seq 0 52 → klondike (dealt deck deckHeap).
Proof.
  intros Hperm.
  assert (NoDup deck) as Hnd by (rewrite Hperm; apply NoDup_seq).
  assert (length deck = 52) as Hlen by (by rewrite Hperm).
  split; [by apply dealt_wellFormed| |done].
  split.
  - intros r Hr. unfold dealt in *.
    cbn [heap stock waste foundations tableau selectedCards] in *.
    rewrite applyWrites_notin; [apply deckHeap_faceUp|].
    rewrite dealWrites_fst. rewrite <- (take_drop 28 deck) in Hnd.
    apply NoDup_app in Hnd as (_ & Hfresh & _). intros Hin.
    by apply (Hfresh r Hin).
  - by intros r Hr%elem_of_nil.
  - intros k r Hr. by destruct k; apply elem_of_nil in Hr.
  - intros k i r Hr. by destruct k.
  - intros i pile Hi.
    assert (length pile = i + 1) as Hpl.
    { unfold dealt in Hi.
      cbn [heap stock waste foundations tableau selectedCards] in Hi.
      rewrite list_lookup_fmap in Hi.
      destruct (seq 0 7 !! i) as [i'|] eqn:Hi'; [|done].
      apply lookup_seq in Hi' as [-> Hi']. simpl in Hi.
      injection Hi as <-. unfold dealColumn.
      rewrite length_take, length_drop, Hlen.
      do 7 (destruct i as [|i]; [by vm_compute|]). lia. }
    pose proof (dealt_column_faceUp deck deckHeap i) as Hface.
    exists (take i pile), (drop i pile).
    split; [by rewrite take_drop|]. split_and!.
    + intros r [k Hk]%list_elem_of_lookup.
      apply lookup_take_Some in Hk as [Hk Hlt].
      rewrite (Hface k pile r Hnd Hi Hk). apply bool_decide_eq_false_2. lia.
    + intros r [k Hk]%list_elem_of_lookup. rewrite lookup_drop in Hk.
      assert (k = 0) as ->.
      { apply lookup_lt_Some in Hk. lia. }
      rewrite (Hface _ pile r Hnd Hi Hk). apply bool_decide_eq_true_2. lia.
    + destruct (drop i pile) as [|x [|y l]] eqn:Hdrop; try done.
      apply (f_equal length) in Hdrop. rewrite length_drop in Hdrop.
      simpl in Hdrop. lia.
    + intros _ Hdrop. apply (f_equal length) in Hdrop.
      rewrite length_drop in Hdrop. simpl in Hdrop. lia.
Qed.

Lemma reachable_klondike (s : State) : reachable s → klondike s.
Proof.
  induction 1 as [rnd s Hinit|s s' _ IH Hstep].
  - rewrite initGame_dealt in Hinit.
    assert (s = dealt (shuffleDeck rnd (seq 0 (length createDeck))) deckHeap)
      as -> by congruence.
    apply dealt_klondike, shuffleDeck_Permutation.
  - by eapply step_klondike.
Qed.

(** ** The rules of the game on the reachable boards *)

Lemma reachable_unshuffledBoard : reachable unshuffledBoard.
Proof.
  apply (reachable_initGame (λ i, i)). rewrite initGame_dealt.
  unfold unshuffledBoard. do 2 f_equal.
Qed.

Lemma reachable_selectedBoard : reachable selectedBoard.
Proof.
  apply (reachable_step unshuffledBoard); [apply reachable_unshuffledBoard|].
  apply (step_handleCardClick (cardIdOf hearts VA) (Tableau 0) false).
  reflexivity.
Qed.

Lemma step_selectedBoard : step selectedBoard movedBoard.
Proof. apply (step_attemptMove (Foundation Kh) (RetBool true)). reflexivity. Qed.

Lemma reachable_movedBoard : reachable movedBoard.
Proof.
  apply (reachable_step selectedBoard);
    [apply reachable_selectedBoard|apply step_selectedBoard].
Qed.

(** A selected run is face-up and in sequence. *)
Lemma klondike_selection (s : State) (cards : list ref) (source : Loc) :
  klondike s → onTop s cards source →
  (∀ c, cards !! 0 = Some c → faceUp (heap s c) = true) →
  (∀ r, r ∈ cards → faceUp (heap s r) = true) ∧ chain (heap s) cards.
Proof.
  intros [Hwf Htidy _] Htop Hup. destruct source as [|i|k].
  - destruct Htop as (below & c & _ & ->). split; [|done].
    intros r ->%list_elem_of_singleton. by apply Hup.
  - destruct Htop as (below & c0 & rest & Hpile & ->).
    pose proof (td_tableau s Htidy i _ Hpile) as Hok.
    apply columnOK_remove in Hok; [| by apply Hup
                                   | by apply (wf_column_NoDup s Hwf i)].
    by destruct Hok as (_ & ? & ?).
  - destruct Htop as (below & c & _ & ->). split; [|done].
    intros r ->%list_elem_of_singleton. by apply Hup.
Qed.

(** No legal move ends on the pile it starts from. *)
Lemma legalMove_elsewhere (s : State) (cards : list ref)
    (source destination : Loc) :
  klondike s → legalMove s cards source destination → source ≠ destination.
Proof.
  intros Hk (Htop & Hup & Hdest) <-.
  destruct (klondike_selection s cards source Hk Htop Hup) as [_ Hchain].
  destruct source as [|i|k]; [done| |].
  - destruct Htop as (below & c0 & rest & Hpile & ->).
    apply canMoveToTableau_true in Hdest as (pile & Hpile' & Hcase).
    rewrite Hpile in Hpile'. injection Hpile' as <-.
    destruct Hcase as [[Hnil _]|(t & Hlast & _ & Hst)].
    + by destruct below.
    + rewrite last_app_cons_r in Hlast.
      by apply (chain_not_on_itself (heap s) c0 t rest).
  - destruct Htop as (below & c & Hpile & ->).
    destruct Hdest as (c' & [= <-] & Hcan).
    apply canMoveToFoundation_true in Hcan as (_ & [[Hnil _]|(t & Hlast & Hv)]).
    + rewrite Hpile in Hnil. by destruct below.
    + rewrite Hpile, last_snoc in Hlast. injection Hlast as <-. lia.
Qed.

(** X9. On every board of a game, each tableau column is a (possibly empty)
    block of face-down cards under a block of face-up cards in which every
    card is of the other color than, and one rank below, the card it lies
    on; the top card of a column that is not empty is face-up. *)
Theorem tableau_columns_in_sequence (s : State) (i : nat) (pile : list ref) :
  reachable s → tableau s !! i = Some pile →
  columnOK (heap s) pile
  ∧ ∀ t, last pile = Some t → faceUp (heap s t) = true.
Proof.
  intros Hreach Hpile.
  pose proof (td_tableau s (kl_tidy s (reachable_klondike s Hreach)) i pile
                Hpile) as Hok.
  split; [done|]. intros t Hlast.
  destruct Hok as (down & up & -> & _ & Hup & _ & Hne).
  apply Hup. destruct up as [|u up] using rev_ind.
  - exfalso. apply Hne; [|done]. intros Hnil. by rewrite Hnil in Hlast.
  - rewrite app_assoc, last_snoc in Hlast. injection Hlast as ->.
    apply elem_of_app. right. constructor.
Qed.

Lemma tableau_columns_in_sequence_witness :
  reachable movedBoard ∧ tableau movedBoard !! 2 = Some [3; 4; 5]
  ∧ columnOK (heap movedBoard) [3; 4; 5]
  ∧ ∀ t, last [3; 4; 5] = Some t → faceUp (heap movedBoard t) = true.
Proof.
  split; [apply reachable_movedBoard|]. split; [reflexivity|].
  apply (tableau_columns_in_sequence movedBoard 2 [3; 4; 5]);
    [apply reachable_movedBoard|reflexivity].
Defined.

(** X10. On every board of a game the cards of the stock are face-down and
    the cards of the waste are face-up. *)
Theorem stock_down_waste_up (s : State) :
  reachable s →
  (∀ r, r ∈ stock s → faceUp (heap s r) = false)
  ∧ (∀ r, r ∈ waste s → faceUp (heap s r) = true).
Proof.
  intros Hreach.
  destruct (kl_tidy s (reachable_klondike s Hreach)) as [Hst Hw _ _ _].
  done.
Qed.

Lemma stock_down_waste_up_witness :
  reachable movedBoard
  ∧ (∀ r, r ∈ stock movedBoard → faceUp (heap movedBoard r) = false)
  ∧ (∀ r, r ∈ waste movedBoard → faceUp (heap movedBoard r) = true).
Proof.
  split; [apply reachable_movedBoard|].
  apply (stock_down_waste_up movedBoard), reachable_movedBoard.
Defined.

Lemma getValueIndex_lookup (v : Value) (i : nat) :
  getValueIndex v = Z.of_nat i → VALUES !! i = Some v.
Proof.
  intros Hv.
  assert (i = Z.to_nat (getValueIndex v)) as -> by lia.
  by destruct v.
Qed.

(** X11. On every board of a game, foundation [k] holds face-up cards of
    the suit of [k] only, and its card number [i] from the bottom has the
    rank [VALUES[i]]: the ace lies at the bottom, every card is one rank
    above the card under it, and no foundation holds more than 13 cards. *)
Theorem foundations_in_order (s : State) (k : FKey) :
  reachable s →
  (∀ i r,
     fget k (foundations s) !! i = Some r →
     getSuitShort (suit (heap s r)) = k
     ∧ VALUES !! i = Some (value (heap s r))
     ∧ faceUp (heap s r) = true)
  ∧ length (fget k (foundations s)) ≤ 13.
Proof.
  intros Hreach.
  destruct (kl_tidy s (reachable_klondike s Hreach)) as [_ _ Hup Hf _].
  assert (∀ i r,
            fget k (foundations s) !! i = Some r →
            getSuitShort (suit (heap s r)) = k
            ∧ VALUES !! i = Some (value (heap s r))
            ∧ faceUp (heap s r) = true) as Hcards.
  { intros i r Hr. destruct (Hf k i r Hr) as [Hs Hv].
    split; [done|]. split; [by apply getValueIndex_lookup|].
    apply (Hup k). by eapply list_elem_of_lookup_2. }
  split; [done|].
  destruct (decide (length (fget k (foundations s)) ≤ 13)) as [|Hlen]; [done|].
  destruct (lookup_lt_is_Some_2 (fget k (foundations s)) 13) as [r Hr]; [lia|].
  by destruct (Hcards 13 r Hr) as (_ & ? & _).
Qed.

Lemma foundations_in_order_witness :
  reachable movedBoard
  ∧ (∀ i r,
       fget Kh (foundations movedBoard) !! i = Some r →
       getSuitShort (suit (heap movedBoard r)) = Kh
       ∧ VALUES !! i = Some (value (heap movedBoard r))
       ∧ faceUp (heap movedBoard r) = true)
  ∧ length (fget Kh (foundations movedBoard)) ≤ 13.
Proof.
  split; [apply reachable_movedBoard|].
  apply (foundations_in_order movedBoard Kh), reachable_movedBoard.
Defined.

(** X12. On every board of a game the selection, when there is one, is
    not empty, lies on top of the pile it was taken from, and consists of
    face-up cards in sequence: each of the other color than, and one rank
    below, the card before it. *)
Theorem selection_is_a_run (s : State) (sel : Selection) :
  reachable s → selectedCards s = Some sel →
  sel_cards sel ≠ []
  ∧ (∃ below, pileAt (sel_source sel) s = below ++ sel_cards sel)
  ∧ (∀ r, r ∈ sel_cards sel → faceUp (heap s r) = true)
  ∧ chain (heap s) (sel_cards sel).
Proof.
  intros Hreach Hsel.
  pose proof (reachable_klondike s Hreach) as Hk.
  pose proof (wf_selection s (kl_wellFormed s Hk)) as Htop.
  pose proof (kl_selection s Hk) as Hup.
  rewrite Hsel in Htop, Hup.
  split; [|split].
  - destruct (sel_source sel); simpl in Htop.
    + by destruct Htop as (? & ? & _ & ->).
    + by destruct Htop as (? & ? & ? & _ & ->).
    + by destruct Htop as (? & ? & _ & ->).
  - destruct (sel_source sel) as [|i|k]; simpl in *.
    + destruct Htop as (below & c & -> & ->). by exists below.
    + destruct Htop as (below & c0 & rest & -> & ->). by exists below.
    + destruct Htop as (below & c & -> & ->). by exists below.
  - by apply (klondike_selection s _ (sel_source sel)).
Qed.

Lemma selection_is_a_run_witness :
  reachable selectedBoard
  ∧ selectedCards selectedBoard = Some (mkSelection [0] (Tableau 0))
  ∧ [0] ≠ []
  ∧ (∃ below, pileAt (Tableau 0) selectedBoard = below ++ [0])
  ∧ (∀ r, r ∈ [0] → faceUp (heap selectedBoard r) = true)
  ∧ chain (heap selectedBoard) [0].
Proof.
  split; [apply reachable_selectedBoard|]. split; [reflexivity|].
  apply (selection_is_a_run selectedBoard (mkSelection [0] (Tableau 0)));
    [apply reachable_selectedBoard|reflexivity].
Defined.

(** X13. The entry points change a board of a game by the rules only: a
    call of [drawFromStock], [handleCardClick], [handleEmptySlotClick],
    [attemptMove] or [deselect] that returns leaves the state as it is, or
    drops the selection, or selects cards that lie on top of a pile with
    the first of them face-up, or draws, or moves cards from the top of a
    pile, the first of them face-up, to a column or a foundation whose
    validator accepts them. *)
Theorem entry_points_keep_the_rules (s s' : State) :
  reachable s → step s s' → s' = s ∨ play s s'.
Proof.
  intros Hreach Hstep. apply step_play; [|done].
  by apply reachable_klondike.
Qed.

Lemma entry_points_keep_the_rules_witness :
  reachable selectedBoard ∧ step selectedBoard movedBoard
  ∧ (movedBoard = selectedBoard ∨ play selectedBoard movedBoard).
Proof.
  split; [apply reachable_selectedBoard|].
  split; [apply step_selectedBoard|].
  apply (entry_points_keep_the_rules selectedBoard movedBoard);
    [apply reachable_selectedBoard|apply step_selectedBoard].
Defined.

(** ** The end of the game *)

Lemma klondike_foundation_length (s : State) (k : FKey) :
  klondike s → length (fget k (foundations s)) ≤ 13.
Proof.
  intros Hk.
  destruct (decide (length (fget k (foundations s)) ≤ 13)) as [|Hlen]; [done|].
  destruct (lookup_lt_is_Some_2 (fget k (foundations s)) 13) as [r Hr]; [lia|].
  destruct (td_foundations s (kl_tidy s Hk) k 13 r Hr) as [_ Hv].
  by destruct (value (heap s r)).
Qed.

Lemma length_allCards (s : State) :
  length (allCards s)
  = length (stock s) + length (waste s) + totalFoundationCards s
    + length (concat (tableau s)).
Proof.
  unfold allCards, foundationCards, totalFoundationCards.
  rewrite !length_app. lia.
Qed.

Lemma concat_nil_Forall {A} (ls : list (list A)) :
  concat ls = [] ↔ ∀ l, l ∈ ls → l = [].
Proof.
  induction ls as [|l ls IH]; simpl.
  - split; [by intros _ l Hl%elem_of_nil|done].
  - split.
    + intros [-> Hls]%app_eq_nil l' [->|Hl']%elem_of_cons; [done|].
      by apply IH.
    + intros Hall. rewrite (Hall l) by constructor. simpl.
      apply IH. intros l' Hl'. apply Hall. by constructor.
Qed.

Lemma reachable_wonBoard :
  reachable wonBoard ∧ totalFoundationCards wonBoard = 52.
Proof.
  pose proof winningGame_alerts as H.
  apply bind_Some in H as (s0 & H0 & H).
  apply bind_Some in H as (s1 & H1 & H).
  apply bind_Some in H as (s2 & _ & H).
  assert (wonBoard = s1) as ->.
  { unfold wonBoard. rewrite H0. cbn [mbind option_bind]. by rewrite H1. }
  split.
  - eapply runOps_reachable; [|exact H1]. by eapply reachable_initGame.
  - congruence.
Qed.

(** X14. On every board of a game the foundations hold at most 52 cards
    together; they hold 52, the test of [checkWin], exactly when the stock,
    the waste and all columns are empty; and then every foundation holds
    the thirteen ranks from the ace to the king, in this order. *)
Theorem won_iff_all_cards_home (s : State) :
  reachable s →
  totalFoundationCards s ≤ 52
  ∧ (totalFoundationCards s = 52
     ↔ stock s = [] ∧ waste s = [] ∧ ∀ pile, pile ∈ tableau s → pile = [])
  ∧ (totalFoundationCards s = 52 →
     ∀ k, (λ r, value (heap s r)) <$> fget k (foundations s) = VALUES).
Proof.
  intros Hreach.
  pose proof (reachable_klondike s Hreach) as Hk.
  pose proof (wf_cards s (kl_wellFormed s Hk)) as Hcards.
  apply Permutation_length in Hcards.
  rewrite length_allCards, length_seq in Hcards.
  split; [lia|]. split.
  - rewrite <- concat_nil_Forall. split.
    + intros Hwon.
      split; [apply length_zero_iff_nil; lia|].
      split; apply length_zero_iff_nil; lia.
    + intros (Hst & Hw & Ht). rewrite Hst, Hw, Ht in Hcards. simpl in Hcards.
      lia.
  - intros Hwon k.
    assert (length (fget k (foundations s)) = 13) as Hlen.
    { pose proof (klondike_foundation_length s Kh Hk).
      pose proof (klondike_foundation_length s Kd Hk).
      pose proof (klondike_foundation_length s Kc Hk).
      pose proof (klondike_foundation_length s Ks Hk).
      unfold totalFoundationCards in Hwon. unfold fget in *.
      destruct k; lia. }
    apply list_eq. intros i. rewrite list_lookup_fmap.
    destruct (fget k (foundations s) !! i) as [r|] eqn:Hr; simpl.
    + destruct (td_foundations s (kl_tidy s Hk) k i r Hr) as [_ Hv].
      symmetry. by apply getValueIndex_lookup.
    + apply lookup_ge_None in Hr. symmetry. apply lookup_ge_None.
      rewrite Hlen in Hr. done.
Qed.

Lemma won_iff_all_cards_home_witness :
  reachable wonBoard ∧ totalFoundationCards wonBoard = 52
  ∧ stock wonBoard = [] ∧ waste wonBoard = []
  ∧ (∀ pile, pile ∈ tableau wonBoard → pile = [])
  ∧ ∀ k, (λ r, value (heap wonBoard r)) <$> fget k (foundations wonBoard)
         = VALUES.
Proof.
  destruct reachable_wonBoard as [Hreach Hwon].
  destruct (won_iff_all_cards_home wonBoard Hreach) as (_ & Hiff & Hfull).
  split; [exact Hreach|]. split; [exact Hwon|].
  destruct (proj1 Hiff Hwon) as (Hst & Hw & Ht).
  split; [exact Hst|]. split; [exact Hw|]. split; [exact Ht|].
  exact (Hfull Hwon).
Defined.

(** ** What a move changes *)

Lemma pileAt_checkWin_deselect (l : Loc) (s : State) :
  pileAt l (checkWin (deselect s)) = pileAt l s.
Proof.
  destruct l; unfold pileAt;
    by rewrite ?waste_checkWin, ?tableau_checkWin, ?foundations_checkWin.
Qed.

Lemma addToDestination_pileAt (cards : list ref) (destination : Loc)
    (s1 s2 : State) :
  destination ≠ Waste →
  addToDestination cards destination s1 = Some s2 →
  pileAt destination s2 = pileAt destination s1 ++ cards
  ∧ (∀ l, l ≠ destination → pileAt l s2 = pileAt l s1)
  ∧ stock s2 = stock s1.
Proof.
  intros Hdest Ha. destruct destination as [|j|k]; [done| |]; simpl in Ha.
  - apply bind_Some in Ha as (pile & Hpile & [= <-]). simpl.
    rewrite Hpile. simpl. split; [|split; [|done]].
    + rewrite list_lookup_insert_eq; [done|]. by eapply lookup_lt_Some.
    + intros [|i|k] Hl; simpl; [done| |done].
      rewrite list_lookup_insert_ne; [done|]. by intros ->.
  - injection Ha as <-. simpl. split; [|split; [|done]].
    + by rewrite fget_fset.
    + intros [|i|k'] Hl; simpl; [done|done|].
      rewrite fget_fset_ne; [done|]. by intros ->.
Qed.

Lemma moveCards_effect (s : State) (cards : list ref)
    (source destination : Loc) (s' : State) :
  klondike s → legalMove s cards source destination →
  moveCards cards source destination s = Some s' →
  source ≠ destination
  ∧ pileAt source s = pileAt source s' ++ cards
  ∧ pileAt destination s' = pileAt destination s ++ cards
  ∧ (∀ l, l ≠ source → l ≠ destination → pileAt l s' = pileAt l s)
  ∧ stock s' = stock s.
Proof.
  intros Hk Hlegal Hm.
  pose proof (legalMove_elsewhere s cards source destination Hk Hlegal) as Hne.
  destruct Hlegal as (Htop & Hup & Hdest).
  assert (destination ≠ Waste) as Hnw by (by intros ->).
  destruct (moveCards_source s cards source (kl_wellFormed s Hk)
              (kl_tidy s Hk) Htop Hup)
    as (s1 & Heq & _ & _ & _ & _ & Hst & Hsrc & Hw & Ht & Hf & _).
  rewrite Heq in Hm. apply bind_Some in Hm as (s2 & Ha & [= <-]).
  destruct (addToDestination_pileAt _ _ _ _ Hnw Ha) as (Hd2 & Ho2 & Hst2).
  assert (∀ l, l ≠ source → pileAt l s1 = pileAt l s) as Hframe.
  { intros [|i|k] Hl; simpl.
    - apply Hw. by intros ->.
    - rewrite Ht; [done|]. by intros <-.
    - apply Hf. by intros <-. }
  split; [done|]. rewrite !pileAt_checkWin_deselect. split_and!.
  - rewrite Ho2; done.
  - rewrite Hd2, Hframe; done.
  - intros l Hl1 Hl2. rewrite pileAt_checkWin_deselect, Ho2, Hframe; done.
  - rewrite stock_checkWin. change (stock s2 = stock s). congruence.
Qed.

(** X15. On a board of a game, a call of [attemptMove] that returns [true]
    has moved the selected cards, and nothing else: the destination is
    another pile than the source of the selection, the source has lost the
    selected cards from its top, the destination has them on top in the
    same order, every other pile and the stock hold the cards they held,
    and the selection is absent. *)
Theorem attemptMove_moves_the_selection (s : State) (destination : Loc)
    (s' : State) :
  reachable s → attemptMove destination s = Some (RetBool true, s') →
  ∃ cards source,
    selectedCards s = Some (mkSelection cards source)
    ∧ source ≠ destination
    ∧ pileAt source s = pileAt source s' ++ cards
    ∧ pileAt destination s' = pileAt destination s ++ cards
    ∧ (∀ l, l ≠ source → l ≠ destination → pileAt l s' = pileAt l s)
    ∧ stock s' = stock s
    ∧ selectedCards s' = None.
Proof.
  intros Hreach Ha.
  pose proof (reachable_klondike s Hreach) as Hk.
  destruct (attemptMove_legal _ _ _ Ha)
    as (cards & source & Hsel & Hm & Hdest).
  pose proof (wf_selection s (kl_wellFormed s Hk)) as Htop.
  pose proof (kl_selection s Hk) as Hup.
  rewrite Hsel in Htop, Hup. simpl in Htop, Hup.
  exists cards, source. split; [done|].
  destruct (moveCards_effect s cards source destination s' Hk) as
    (H1 & H2 & H3 & H4 & H5); [done|done|].
  split_and!; try done. by eapply moveCards_selectedCards.
Qed.

Lemma attemptMove_moves_the_selection_witness :
  reachable selectedBoard
  ∧ attemptMove (Foundation Kh) selectedBoard = Some (RetBool true, movedBoard)
  ∧ ∃ cards source,
      selectedCards selectedBoard = Some (mkSelection cards source)
      ∧ source ≠ Foundation Kh
      ∧ pileAt source selectedBoard = pileAt source movedBoard ++ cards
      ∧ pileAt (Foundation Kh) movedBoard
        = pileAt (Foundation Kh) selectedBoard ++ cards
      ∧ (∀ l, l ≠ source → l ≠ Foundation Kh →
              pileAt l movedBoard = pileAt l selectedBoard)
      ∧ stock movedBoard = stock selectedBoard
      ∧ selectedCards movedBoard = None.
Proof.
  split; [apply reachable_selectedBoard|]. split; [reflexivity|].
  apply (attemptMove_moves_the_selection selectedBoard (Foundation Kh)
           movedBoard); [apply reachable_selectedBoard|reflexivity].
Defined.

(** X16. On a board of a game, a single click on the pile the selection
    was taken from moves no card: the state stays as it is (the click
    resolves no face-up card) or only the selection is dropped. *)
Theorem click_on_selected_pile (s : State) (sel : Selection)
    (cardId : string) (s' : State) :
  reachable s → selectedCards s = Some sel →
  handleCardClick cardId (sel_source sel) false s = Some s' →
  s' = s ∨ s' = deselect s.
Proof.
  intros Hreach Hsel Hc.
  pose proof (reachable_klondike s Hreach) as Hk.
  destruct (handleCardClick_cases _ _ _ _ _ Hc)
    as [->|[(card & _ & _ & _ & _ & [=])
           |[(card & rest & _ & _ & Hnone & _)
            |[(_ & _ & r & Ha)|(_ & _ & ->)]]]].
  - by left.
  - congruence.
  - destruct (attemptMove_cases _ _ _ _ Ha)
      as [(_ & _ & ->)|[(_ & _ & ->)|(sel' & Hsel' & -> & _ & Hm)]].
    + by left.
    + by right.
    + exfalso.
      destruct (attemptMove_legal _ _ _ Ha)
        as (cards & source & Hsel'' & _ & Hdest).
      rewrite Hsel in Hsel''. injection Hsel'' as ->.
      pose proof (wf_selection s (kl_wellFormed s Hk)) as Htop.
      pose proof (kl_selection s Hk) as Hup.
      rewrite Hsel in Htop, Hup. simpl in *.
      by apply (legalMove_elsewhere s cards source source Hk).
  - by right.
Qed.

Lemma click_on_selected_pile_witness :
  reachable selectedBoard
  ∧ selectedCards selectedBoard = Some (mkSelection [0] (Tableau 0))
  ∧ handleCardClick "A-hearts" (Tableau 0) false selectedBoard
    = Some (deselect selectedBoard)
  ∧ (deselect selectedBoard = selectedBoard
     ∨ deselect selectedBoard = deselect selectedBoard).
Proof.
  split; [apply reachable_selectedBoard|]. split; [reflexivity|].
  split; [reflexivity|].
  apply (click_on_selected_pile selectedBoard (mkSelection [0] (Tableau 0))
           "A-hearts" (deselect selectedBoard));
    [apply reachable_selectedBoard|reflexivity|reflexivity].
Defined.

(** ** Clicks *)

(** X17. On a board of a game, a click on an empty column while cards are
    selected puts the selected run on that column when its first card is a
    king, and takes it from the top of its source; for any other first
    card it only drops the selection. *)
Theorem empty_column_takes_kings (s : State) (j : nat) (sel : Selection)
    (s' : State) :
  reachable s → tableau s !! j = Some [] → selectedCards s = Some sel →
  handleEmptySlotClick (Tableau j) s = Some s' →
  ∃ c0,
    sel_cards sel !! 0 = Some c0
    ∧ if bool_decide (value (heap s c0) = VK)
      then tableau s' !! j = Some (sel_cards sel)
           ∧ pileAt (sel_source sel) s
             = pileAt (sel_source sel) s' ++ sel_cards sel
           ∧ stock s' = stock s
           ∧ selectedCards s' = None
      else s' = deselect s.
Proof.
  intros Hreach Hj Hsel He.
  pose proof (reachable_klondike s Hreach) as Hk.
  pose proof (wf_selection s (kl_wellFormed s Hk)) as Htop.
  pose proof (kl_selection s Hk) as Hup.
  rewrite Hsel in Htop, Hup.
  unfold handleEmptySlotClick in He. rewrite Hsel in He.
  apply fmap_Some in He as ([r s2] & Ha & ->).
  unfold attemptMove in Ha. rewrite Hsel in Ha.
  destruct sel as [cards source]. cbn [sel_cards sel_source snd] in *.
  apply bind_Some in Ha as (ok & Hcan & Ha).
  pose proof Hcan as Hcan'.
  unfold canMoveToTableau in Hcan. rewrite Hj in Hcan.
  cbn [mbind option_bind] in Hcan.
  rewrite bool_decide_eq_true_2 in Hcan by done.
  apply bind_Some in Hcan as (c0 & Hc0 & [= <-]).
  exists c0. split; [done|].
  case_bool_decide as HK.
  - apply bind_Some in Ha as (s3 & Hm & [= _ <-]).
    destruct (moveCards_effect s cards source (Tableau j) s3 Hk)
      as (_ & Hsrc & Hdst & _ & Hst); [done|done|].
    split_and!; [|done|done|by eapply moveCards_selectedCards].
    unfold pileAt in Hdst. rewrite Hj in Hdst. simpl in Hdst.
    destruct (tableau s3 !! j) as [pile|]; simpl in Hdst; [by subst|].
    by destruct cards.
  - by injection Ha as _ <-.
Qed.

Lemma reachable_kingSelectedBoard : reachable kingSelectedBoard.
Proof.
  apply (runOps_reachable
           [OpDrawFromStock; OpCardClick "K-spades" Waste false] movedBoard);
    [apply reachable_movedBoard|reflexivity].
Qed.

Lemma empty_column_takes_kings_witness :
  reachable kingSelectedBoard ∧ tableau kingSelectedBoard !! 0 = Some []
  ∧ selectedCards kingSelectedBoard = Some (mkSelection [51] Waste)
  ∧ ∃ s', handleEmptySlotClick (Tableau 0) kingSelectedBoard = Some s'
          ∧ tableau s' !! 0 = Some [51]
          ∧ waste kingSelectedBoard = waste s' ++ [51].
Proof.
  pose proof reachable_kingSelectedBoard as Hreach.
  split; [exact Hreach|]. split; [reflexivity|]. split; [reflexivity|].
  destruct (handleEmptySlotClick_total kingSelectedBoard (Tableau 0))
    as [s' He]; [by apply reachable_wellFormed|simpl; lia|].
  exists s'. split; [exact He|].
  destruct (empty_column_takes_kings kingSelectedBoard 0
              (mkSelection [51] Waste) s' Hreach eq_refl eq_refl He)
    as (c0 & Hc0 & H).
  injection Hc0 as <-.
  rewrite bool_decide_eq_true_2 in H by reflexivity.
  split; [exact (proj1 H)|exact (proj1 (proj2 H))].
Defined.

(** X18. On a board of a game with no selection, a click on a face-up
    card of a column selects that card together with all cards lying on
    it, and changes nothing else; so does a double click unless the card
    is the top card of its column. *)
Theorem click_selects_run (s : State) (i : nat) (below : list ref) (c : ref)
    (rest : list ref) (dbl : bool) :
  reachable s → selectedCards s = None →
  tableau s !! i = Some (below ++ c :: rest) → faceUp (heap s c) = true →
  (dbl = true → rest ≠ []) →
  handleCardClick (id (heap s c)) (Tableau i) dbl s
  = Some (selectCards (c :: rest) (Tableau i) s).
Proof.
  intros Hreach Hsel Hpile Hup Hdbl.
  pose proof (reachable_wellFormed s Hreach) as Hwf.
  unfold handleCardClick. rewrite Hpile. cbn [mbind option_bind].
  rewrite (findIndex_id (heap s) below c rest _ eq_refl
             (wf_column_ids s Hwf i below c rest Hpile)).
  rewrite at_nonneg, list_lookup_middle by done.
  rewrite Hup, slice_app. cbn [negb isFoundation andb].
  destruct dbl; cbn [andb].
  - rewrite bool_decide_eq_false_2.
    + cbn [mbind option_bind]. by rewrite Hsel.
    + specialize (Hdbl eq_refl). by destruct rest.
  - cbn [mbind option_bind]. by rewrite Hsel.
Qed.

Lemma click_selects_run_witness :
  reachable movedBoard ∧ selectedCards movedBoard = None
  ∧ tableau movedBoard !! 2 = Some ([3; 4] ++ 5 :: [])
  ∧ faceUp (heap movedBoard 5) = true
  ∧ handleCardClick (id (heap movedBoard 5)) (Tableau 2) false movedBoard
    = Some (selectCards [5] (Tableau 2) movedBoard).
Proof.
  split; [apply reachable_movedBoard|]. split; [reflexivity|].
  split; [reflexivity|]. split; [reflexivity|].
  apply (click_selects_run movedBoard 2 [3; 4] 5 [] false);
    [apply reachable_movedBoard|reflexivity|reflexivity|reflexivity|done].
Defined.

(** X19. On a board of a game, a double click on the top card of the
    waste or of a column sends that card to the foundation of its suit
    whenever [canMoveToFoundation] accepts it there, whether or not other
    cards are selected: the card leaves the top of its pile and lies on top
    of the foundation, every other pile and the stock hold the cards they
    held, and the selection is absent. *)
Theorem double_click_sends_home (s : State) (source : Loc) (c : ref) :
  reachable s → isFoundation source = false → onTop s [c] source →
  let key := getSuitShort (suit (heap s c)) in
  canMoveToFoundation s c key = Some true →
  ∃ s',
    handleCardClick (id (heap s c)) source true s = Some s'
    ∧ pileAt source s = pileAt source s' ++ [c]
    ∧ pileAt (Foundation key) s' = pileAt (Foundation key) s ++ [c]
    ∧ (∀ l, l ≠ source → l ≠ Foundation key → pileAt l s' = pileAt l s)
    ∧ stock s' = stock s
    ∧ selectedCards s' = None.
Proof.
  intros Hreach Hsrc Htop key Hcan.
  pose proof (reachable_klondike s Hreach) as Hk.
  pose proof (kl_wellFormed s Hk) as Hwf.
  assert (faceUp (heap s c) = true) as Hup.
  { destruct source as [|i|k]; [| |done].
    - destruct Htop as (below & c' & Hw & [= <-]).
      apply (td_waste s (kl_tidy s Hk)). rewrite Hw.
      apply elem_of_app. right. constructor.
    - destruct Htop as (below & c0 & rest & Hpile & [= <- <-]).
      destruct (td_tableau s (kl_tidy s Hk) i _ Hpile)
        as (down & up & Heq & _ & Hfu & _ & Hne).
      apply Hfu. destruct up as [|u up _] using rev_ind.
      + exfalso. apply Hne; [by destruct below|done].
      + rewrite app_assoc in Heq. apply app_inj_tail in Heq as [_ ->].
        apply elem_of_app. right. constructor. }
  destruct (moveCards_total s [c] source (Foundation key) Hwf Htop I)
    as [s' Hm].
  assert (legalMove s [c] source (Foundation key)) as Hlegal.
  { split; [done|]. split; [by intros ? [= <-]|]. by exists c. }
  exists s'.
  destruct (moveCards_effect s [c] source (Foundation key) s' Hk Hlegal Hm)
    as (_ & H1 & H2 & H3 & H4).
  split_and!; try done; [|by eapply moveCards_selectedCards].
  assert (autoMoveToFoundation c source s = Some (true, s')) as Hauto.
  { unfold autoMoveToFoundation. fold key. rewrite Hcan.
    cbn [mbind option_bind]. fold key. by rewrite Hm. }
  unfold handleCardClick.
  destruct source as [|i|k]; [| |done].
  - destruct Htop as (below & c' & Hw & [= <-]).
    rewrite Hw, top_snoc. cbn [mbind option_bind]. rewrite Hup.
    cbn [negb andb isFoundation]. rewrite bool_decide_eq_true_2 by done.
    rewrite Hauto. done.
  - destruct Htop as (below & c0 & rest & Hpile & [= <- <-]).
    rewrite Hpile. cbn [mbind option_bind].
    rewrite (findIndex_id (heap s) below c [] _ eq_refl
               (wf_column_ids s Hwf i below c [] Hpile)).
    rewrite at_nonneg, list_lookup_middle by done.
    rewrite Hup, slice_app. cbn [negb andb isFoundation].
    rewrite bool_decide_eq_true_2 by done.
    rewrite Hauto. done.
Qed.

Lemma double_click_sends_home_witness :
  reachable unshuffledBoard ∧ onTop unshuffledBoard [0] (Tableau 0)
  ∧ canMoveToFoundation unshuffledBoard 0 Kh = Some true
  ∧ ∃ s',
      handleCardClick "A-hearts" (Tableau 0) true unshuffledBoard = Some s'
      ∧ pileAt (Tableau 0) unshuffledBoard = pileAt (Tableau 0) s' ++ [0]
      ∧ pileAt (Foundation Kh) s' = [0].
Proof.
  assert (onTop unshuffledBoard [0] (Tableau 0)) as Htop.
  { exists [], 0, []. split; reflexivity. }
  assert (canMoveToFoundation unshuffledBoard 0 Kh = Some true) as Hcan
    by reflexivity.
  split; [apply reachable_unshuffledBoard|]. split; [exact Htop|].
  split; [exact Hcan|].
  destruct (double_click_sends_home unshuffledBoard (Tableau 0) 0
              reachable_unshuffledBoard eq_refl Htop Hcan)
    as (s' & H1 & H2 & H3 & _).
  exists s'. split; [exact H1|]. split; [exact H2|exact H3].
Defined.

(** ** Faces *)

Lemma moveCards_faceUp (s : State) (cards : list ref)
    (source destination : Loc) (s' : State) (r : ref) :
  moveCards cards source destination s = Some s' →
  faceUp (heap s r) = true → faceUp (heap s' r) = true.
Proof.
  intros Hm Hup. unfold moveCards in Hm.
  apply bind_Some in Hm as (s1 & H1 & Hm).
  apply bind_Some in Hm as (s2 & H2 & [= <-]).
  rewrite heap_checkWin. change (faceUp (heap s2 r) = true).
  assert (heap s2 = heap s1) as ->.
  { destruct destination as [|j|k].
    - by injection H2 as <-.
    - by apply bind_Some in H2 as (pile & _ & [= <-]).
    - by injection H2 as <-. }
  destruct source as [|i|k].
  - by injection H1 as <-.
  - apply bind_Some in H1 as (pile & _ & H1).
    apply bind_Some in H1 as (startIdx & _ & H1).
    apply bind_Some in H1 as (h & Hh & [= <-]).
    change (faceUp (h r) = true).
    case_bool_decide; [|by injection Hh as <-].
    apply bind_Some in Hh as (newTop & _ & [= <-]).
    destruct (negb (faceUp (heap s newTop))); [|done].
    destruct (decide (r = newTop)) as [->|Hne].
    + apply setFaceUp_same.
    + by rewrite setFaceUp_other.
  - by injection H1 as <-.
Qed.

(** X20. No entry point turns a card face-down, except [drawFromStock]
    when it recycles the waste: after a call of [drawFromStock],
    [handleCardClick], [handleEmptySlotClick], [attemptMove] or [deselect],
    a card that was face-up is face-up still, or the stock was empty, the
    card lay on the waste and lies in the stock now. *)
Theorem face_up_stays_up (s s' : State) (r : ref) :
  step s s' → faceUp (heap s r) = true →
  faceUp (heap s' r) = true
  ∨ (stock s = [] ∧ r ∈ waste s ∧ r ∈ stock s').
Proof.
  intros Hstep Hup.
  assert (∀ destination res s2,
            attemptMove destination s = Some (res, s2) →
            faceUp (heap s2 r) = true) as Hattempt.
  { intros destination res s2 Ha.
    destruct (attemptMove_cases _ _ _ _ Ha)
      as [(_ & _ & ->)|[(_ & _ & ->)|(sel & _ & _ & _ & Hm)]]; [done|done|].
    by eapply moveCards_faceUp. }
  destruct Hstep as [s s' Hd|cardId source dbl s s' Hc|slot s s' He
                     |destination res s s' Ha|s].
  - unfold drawFromStock in Hd.
    cbn [deselect with_selectedCards stock waste heap] in Hd.
    case_bool_decide as Hst; [case_bool_decide as Hw|].
    + injection Hd as <-. cbn [heap stock with_waste with_stock with_heap].
      destruct (decide (r ∈ waste s)) as [Hin|Hin].
      * right. split; [by apply length_zero_iff_nil|]. split; [done|].
        by apply list_elem_of_In, in_rev, list_elem_of_In in Hin.
      * left. rewrite fold_setFaceUp_notin; [done|]. intros Hr. apply Hin.
        by apply list_elem_of_In, in_rev, list_elem_of_In.
    + injection Hd as <-. by left.
    + apply bind_Some in Hd as (card & _ & [= <-]). left.
      cbn [heap with_waste with_stock with_heap].
      destruct (decide (r = card)) as [->|Hne].
      * apply setFaceUp_same.
      * by rewrite setFaceUp_other.
  - left.
    destruct (handleCardClick_cases _ _ _ _ _ Hc)
      as [->|[(card & _ & _ & _ & Hauto & _)
             |[(card & rest & _ & _ & _ & ->)
              |[(_ & _ & res & Ha)|(_ & _ & ->)]]]]; try done.
    + destruct (autoMoveToFoundation_moved _ _ _ _ Hauto) as [_ Hm].
      by eapply moveCards_faceUp.
    + by eapply Hattempt.
  - left. unfold handleEmptySlotClick in He.
    destruct (selectedCards s); [|by injection He as <-].
    apply fmap_Some in He as ([res s2] & Ha & ->). by eapply Hattempt.
  - left. by eapply Hattempt.
  - by left.
Qed.

Lemma face_up_stays_up_witness :
  step selectedBoard movedBoard ∧ faceUp (heap selectedBoard 5) = true
  ∧ (faceUp (heap movedBoard 5) = true
     ∨ (stock selectedBoard = [] ∧ 5 ∈ waste selectedBoard
        ∧ 5 ∈ stock movedBoard)).
Proof.
  split; [apply step_selectedBoard|]. split; [reflexivity|].
  apply (face_up_stays_up selectedBoard movedBoard 5);
    [apply step_selectedBoard|reflexivity].
Defined.
